(** * PTXStream: the pinned staging-area pool of the PTX JNI driver

    A shallow embedding of [drivers/ptx-jni/src/main/cpp/source/PTXStream.cpp].

    The C++ file keeps three globals ([head], [front], [rear]), a heap of
    [StagingAreaList] structs that are shared by pointer between the list of
    allocated areas, the free queue and the transfers in flight, and it talks
    to two external libraries: the CUDA driver API and JNI.  The embedding
    keeps the globals and the struct heap as they are (structs are addressed,
    and mutated in place), threads one state through every function with a
    small state-and-fault monad, and models the two libraries as an
    environment whose answers come from an oracle, so that every theorem
    covers every behaviour of the driver. *)

From Stdlib Require Import ZArith List Lia Strings.Byte.
From stdpp Require Import base option list gmap.

(** ** Numeric types of the C++ code *)

(** [CUresult] is the driver's status enum; only [CUDA_SUCCESS] is named in
    the source, the other constants are the values of cuda.h and are used in
    examples only. *)
Abbreviation CUresult := Z (only parsing).
Definition CUDA_SUCCESS : CUresult := 0%Z.
Definition CUDA_ERROR_INVALID_VALUE : CUresult := 1%Z.
Definition CUDA_ERROR_OUT_OF_MEMORY : CUresult := 2%Z.
Definition CUDA_ERROR_INVALID_HANDLE : CUresult := 400%Z.
Definition CUDA_ERROR_NOT_READY : CUresult := 600%Z.

(** [(size_t) length] on a [jlong]: reduction modulo 2^64. *)
Definition to_size_t (z : Z) : Z := (z mod 2 ^ 64)%Z.

(** A [jlong] passed where JNI expects a [jsize] (a 32-bit signed int). *)
Definition to_jsize (z : Z) : Z := ((z + 2 ^ 31) mod 2 ^ 32 - 2 ^ 31)%Z.

(** ** Data *)

(** [struct area_list].  Pointers to structs are [option nat]: [None] is
    [NULL], [Some a] the address [a] in the struct heap.  [staging_area] is a
    pointer to a block of host memory, again [None] for [NULL]. *)
Record StagingAreaList := mkArea {
  next : option nat;
  staging_area : option nat;
  area_length : Z
}.

(** Work queued on a CUDA stream and not yet executed by the device. *)
Inductive stream_op :=
| MemcpyDtoH (dst : nat) (dst_off : Z) (src : Z) (n : Z)
| MemcpyHtoD (dst : Z) (src : nat) (n : Z)
| Callback (userData : option nat).

(** The calls the code makes to the driver and to JNI, in the order it makes
    them, together with the two queue operations.  This is ghost state: it
    records what happened and influences nothing. *)
Inductive event :=
| EvMemAllocHost (size : Z) (r : CUresult) (p : option nat)
| EvMemFreeHost (p : option nat) (r : CUresult)
| EvMemcpyDtoHAsync (dst : option nat) (dst_off : Z) (src n : Z) (stream : Z) (r : CUresult)
| EvMemcpyHtoDAsync (dst : Z) (src : option nat) (n : Z) (stream : Z) (r : CUresult)
| EvEventRecord (e : nat) (stream : Z)
| EvEventQuery (e : nat) (r : CUresult)
| EvEventSynchronize (e : nat) (r : CUresult)
| EvStreamAddCallback (stream : Z) (userData : option nat) (r : CUresult)
| EvStreamDestroy (stream : Z) (r : CUresult)
| EvGetByteArrayRegion (array : nat) (start len : Z) (buf : option nat)
| EvSetByteArrayRegion (array : nat) (start len : Z) (buf : option nat)
| EvEnqueue (region : option nat)
| EvDequeue (region : option nat).

(** The whole state: the globals of PTXStream.cpp, the C heap of structs, and
    the environment (host memory blocks, device memory, streams, events, the
    oracle that answers driver calls). *)
Record State := mkState {
  (* static StagingAreaList *head *)
  head : option nat;
  (* the QueueNode list from [front] to [rear], as the sequence of its
     [element] fields *)
  queue : list (option nat);
  (* malloc'ed StagingAreaList structs *)
  areas : gmap nat StagingAreaList;
  next_area : nat;
  (* host memory blocks: pinned buffers of cuMemAllocHost and the storage of
     Java arrays; a block that is absent has been freed *)
  host : gmap nat (list byte);
  next_block : nat;
  (* device memory *)
  device : Z -> byte;
  (* work issued on streams and not yet completed, oldest first *)
  pending : list (Z * stream_op);
  (* the stream each event was last recorded on *)
  events : gmap nat Z;
  next_event : nat;
  (* answers of the driver to the calls that report a status, in call order;
     when exhausted the driver answers CUDA_SUCCESS *)
  oracle : list Z;
  trace : list event
}.

Definition set_head (h : option nat) (s : State) : State :=
  mkState h (queue s) (areas s) (next_area s) (host s) (next_block s)
          (device s) (pending s) (events s) (next_event s) (oracle s) (trace s).
Definition set_queue (q : list (option nat)) (s : State) : State :=
  mkState (head s) q (areas s) (next_area s) (host s) (next_block s)
          (device s) (pending s) (events s) (next_event s) (oracle s) (trace s).
Definition set_areas (m : gmap nat StagingAreaList) (s : State) : State :=
  mkState (head s) (queue s) m (next_area s) (host s) (next_block s)
          (device s) (pending s) (events s) (next_event s) (oracle s) (trace s).
Definition set_next_area (n : nat) (s : State) : State :=
  mkState (head s) (queue s) (areas s) n (host s) (next_block s)
          (device s) (pending s) (events s) (next_event s) (oracle s) (trace s).
Definition set_host (m : gmap nat (list byte)) (s : State) : State :=
  mkState (head s) (queue s) (areas s) (next_area s) m (next_block s)
          (device s) (pending s) (events s) (next_event s) (oracle s) (trace s).
Definition set_next_block (n : nat) (s : State) : State :=
  mkState (head s) (queue s) (areas s) (next_area s) (host s) n
          (device s) (pending s) (events s) (next_event s) (oracle s) (trace s).
Definition set_device (d : Z -> byte) (s : State) : State :=
  mkState (head s) (queue s) (areas s) (next_area s) (host s) (next_block s)
          d (pending s) (events s) (next_event s) (oracle s) (trace s).
Definition set_pending (p : list (Z * stream_op)) (s : State) : State :=
  mkState (head s) (queue s) (areas s) (next_area s) (host s) (next_block s)
          (device s) p (events s) (next_event s) (oracle s) (trace s).
Definition set_events (m : gmap nat Z) (s : State) : State :=
  mkState (head s) (queue s) (areas s) (next_area s) (host s) (next_block s)
          (device s) (pending s) m (next_event s) (oracle s) (trace s).
Definition set_next_event (n : nat) (s : State) : State :=
  mkState (head s) (queue s) (areas s) (next_area s) (host s) (next_block s)
          (device s) (pending s) (events s) n (oracle s) (trace s).
Definition set_oracle (o : list Z) (s : State) : State :=
  mkState (head s) (queue s) (areas s) (next_area s) (host s) (next_block s)
          (device s) (pending s) (events s) (next_event s) o (trace s).
Definition log (e : event) (s : State) : State :=
  mkState (head s) (queue s) (areas s) (next_area s) (host s) (next_block s)
          (device s) (pending s) (events s) (next_event s) (oracle s)
          (trace s ++ [e]).

(** The state of a process that has made no call yet: [head], [front] and
    [rear] are [NULL].  The Java heap and the oracle are the caller's. *)
Definition initial (jheap : gmap nat (list byte)) (nb : nat) (o : list Z) : State :=
  mkState None [] ∅ 0 jheap nb (fun _ => x00) [] ∅ 0 o [].

(** ** The monad: state, plus the two ways a C++ function can fail to return *)

Inductive outcome (A : Type) :=
| Done (a : A) (s : State)
  (* a dereference of NULL or of freed memory: undefined behaviour *)
| Fault (s : State)
  (* a loop of the model ran out of fuel *)
| OutOfFuel.
Arguments Done {A} a s.
Arguments Fault {A} s.
Arguments OutOfFuel {A}.

Definition M (A : Type) : Type := State -> outcome A.

Definition ret {A} (a : A) : M A := fun s => Done a s.
Definition bind {A B} (m : M A) (k : A -> M B) : M B :=
  fun s => match m s with
           | Done a s' => k a s'
           | Fault s' => Fault s'
           | OutOfFuel => OutOfFuel
           end.
Definition fault {A} : M A := fun s => Fault s.
Definition get {A} (f : State -> A) : M A := fun s => Done (f s) s.
Definition modify (f : State -> State) : M unit := fun s => Done tt (f s).

Notation "'let*' x ':=' c1 'in' c2" := (bind c1 (fun x => c2))
  (at level 10, x name, c1 at level 100, c2 at level 200).
Notation "c1 '>>' c2" := (bind c1 (fun _ => c2))
  (at level 100, c2 at level 200, right associativity).

(** The final state of a computation that returned. *)
Definition state_of {A} (o : outcome A) : option State :=
  match o with Done _ s => Some s | _ => None end.
Definition value_of {A} (o : outcome A) : option A :=
  match o with Done a _ => Some a | _ => None end.

(** ** The free queue *)

(** [enqueue]: both branches of the source; on an empty queue the new node is
    front and rear, otherwise it is linked after [rear]. *)
Definition enqueue (region : option nat) : M unit :=
  let* q := get queue in
  match q with
  | [] => modify (set_queue [region])
  | _ :: _ => modify (set_queue (q ++ [region]))
  end >>
  modify (log (EvEnqueue region)).

(** [dequeue]: [NULL] on an empty queue, otherwise the element of the front
    node, which is unlinked and freed. *)
Definition dequeue : M (option nat) :=
  let* q := get queue in
  match q with
  | [] => ret None
  | region :: q' =>
      modify (set_queue q') >>
      modify (log (EvDequeue region)) >>
      ret region
  end.

(** [free_queue]: the loop walks the nodes and frees each one. *)
Fixpoint free_queue_loop (q : list (option nat)) : list (option nat) :=
  match q with
  | [] => []
  | _ :: q' => free_queue_loop q'
  end.
Definition free_queue : M unit :=
  let* q := get queue in
  match q with
  | [] => ret tt
  | _ :: _ => modify (set_queue (free_queue_loop q))
  end.

(** ** The environment: pinned host memory

    The driver is not part of the repository.  Each call that reports a status
    takes its answer from the oracle, and the model makes the state agree with
    the answer: an allocation that reports success has created a block, a free
    that reports success has released one. *)

Definition ask : M Z :=
  let* o := get oracle in
  match o with
  | [] => ret CUDA_SUCCESS
  | r :: o' => modify (set_oracle o') >> ret r
  end.

(** [cuMemAllocHost(pp, size)].  On success a new block of [size] bytes
    exists and its address is returned; block addresses are never reused.  On
    failure nothing is returned, and the caller's pointer is left as it was. *)
Definition cuMemAllocHost (size : Z) : M (Z * option nat) :=
  let* r := ask in
  if decide (r = CUDA_SUCCESS) then
    let* b := get next_block in
    modify (set_next_block (S b)) >>
    let* h := get host in
    modify (set_host (<[b := replicate (Z.to_nat size) x00]> h)) >>
    modify (log (EvMemAllocHost size r (Some b))) >>
    ret (r, Some b)
  else
    modify (log (EvMemAllocHost size r None)) >>
    ret (r, None).

(** [cuMemFreeHost(p)]. *)
Definition cuMemFreeHost (p : option nat) : M Z :=
  let* r := ask in
  modify (log (EvMemFreeHost p r)) >>
  (if decide (r = CUDA_SUCCESS) then
     match p with
     | Some b => let* h := get host in modify (set_host (delete b h))
     | None => ret tt
     end
   else ret tt) >>
  ret r.

(** ** The struct heap *)

(** [malloc(sizeof(StagingAreaList))]: a new struct whose fields are
    indeterminate; the code writes each field before it reads it.  Struct
    addresses are handed out in increasing order and never reused, whereas
    C's [malloc] may hand out the address of a freed struct again.  The
    difference can only show in runs that go on after structs were freed,
    that is, after [free_staging_area_list]. *)
Definition malloc_area : M nat :=
  let* a := get next_area in
  modify (set_next_area (S a)) >>
  let* m := get areas in
  modify (set_areas (<[a := mkArea None None 0]> m)) >>
  ret a.

(** [free(list)]. *)
Definition free_area (a : nat) : M unit :=
  let* m := get areas in modify (set_areas (delete a m)).

(** [*list]: reading through a pointer.  [NULL] and pointers to freed structs
    fault. *)
Definition load (list : option nat) : M StagingAreaList :=
  match list with
  | None => fault
  | Some a =>
      let* m := get areas in
      match m !! a with
      | Some sa => ret sa
      | None => fault
      end
  end.

Definition store (a : nat) (sa : StagingAreaList) : M unit :=
  let* m := get areas in modify (set_areas (<[a := sa]> m)).

(** ** Acquiring a staging area *)

(** [check_or_init_staging_area(size, list)]. *)
Definition check_or_init_staging_area (size : Z) (list : option nat)
  : M (option nat) :=
  match list with
  | None =>
      (* Create *)
      let* a := malloc_area in
      let* rp := cuMemAllocHost size in
      if decide (rp.1 ≠ CUDA_SUCCESS) then ret None
      else
        store a (mkArea None rp.2 size) >>
        ret (Some a)
  | Some a =>
      let* sa := load list in
      (* Update *)
      if decide (area_length sa < size)%Z then
        let* result := cuMemFreeHost (staging_area sa) in
        if decide (result ≠ CUDA_SUCCESS) then ret None
        else
          let* rp := cuMemAllocHost size in
          if decide (rp.1 ≠ CUDA_SUCCESS) then ret None
          else
            store a (mkArea (next sa) rp.2 size) >>
            ret (Some a)
      else ret list
  end.

(** [get_first_free_staging_area(size)]. *)
Definition get_first_free_staging_area (size : Z) : M (option nat) :=
  let* list := dequeue in
  let* list := check_or_init_staging_area size list in
  let* h := get head in
  match h with
  | None => modify (set_head list)
  | Some _ => ret tt
  end >>
  ret list.

(** [set_to_unused(hStream, status, list)], the stream callback. *)
Definition set_to_unused (hStream : Z) (status : Z) (list : option nat) : M unit :=
  enqueue list.

(** ** Releasing everything *)

(** [free_staging_area_list()].  The local [result] is declared without an
    initialiser, so it is [None] (indeterminate) until the loop body has run.
    Every iteration frees the struct [head] points to, so the loop cannot run
    more often than there are structs; the fuel is that number plus one. *)
Fixpoint free_staging_area_list_loop (fuel : nat) (result : option Z)
  : M (option Z) :=
  let* h := get head in
  match h with
  | None => ret result
  | Some a =>
      match fuel with
      | O => fun _ => OutOfFuel
      | S fuel' =>
          let* sa := load h in
          let* r := cuMemFreeHost (staging_area sa) in
          modify (set_head (next sa)) >>
          free_area a >>
          free_staging_area_list_loop fuel' (Some r)
      end
  end.

Definition free_staging_area_list : M (option Z) :=
  let* m := get areas in
  free_staging_area_list_loop (S (size m)) None.

(** ** The environment: device, streams and events *)

Definition dev_read (d : Z -> byte) (src n : Z) : list byte :=
  (fun i => d (src + i)%Z) <$> seqZ 0 n.

Definition dev_write (d : Z -> byte) (dst : Z) (data : list byte) : Z -> byte :=
  fun a => if decide (dst <= a < dst + Z.of_nat (length data))%Z
           then nth (Z.to_nat (a - dst)) data x00 else d a.

(** Overwrite [l] from position [off] with [data]. *)
Definition write_at (off : nat) (data l : list byte) : list byte :=
  take off l ++ data ++ drop (off + length data) l.

(** The device executes one queued piece of work.  A copy reads its source
    when it executes, not when it was issued; a copy whose host block has been
    freed in the meantime has no block to act on.  The only callback the code
    ever registers is [set_to_unused]. *)
Definition complete_op (stream : Z) (op : stream_op) (s : State) : State :=
  match op with
  | MemcpyDtoH b off src n =>
      match host s !! b with
      | Some l =>
          if decide (0 <= off /\ 0 <= n /\ off + n <= Z.of_nat (length l))%Z
          then set_host (<[b := write_at (Z.to_nat off) (dev_read (device s) src n) l]> (host s)) s
          else s
      | None => s
      end
  | MemcpyHtoD dst b n =>
      match host s !! b with
      | Some l =>
          if decide (0 <= n <= Z.of_nat (length l))%Z
          then set_device (dev_write (device s) dst (take (Z.to_nat n) l)) s
          else s
      | None => s
      end
  | Callback userData =>
      match set_to_unused stream CUDA_SUCCESS userData s with
      | Done _ s' => s'
      | _ => s
      end
  end.

(** All the work queued on [stream] is executed, in issue order; work queued
    on other streams stays. *)
Fixpoint complete_stream (stream : Z) (ops : list (Z * stream_op)) (s : State)
  : list (Z * stream_op) * State :=
  match ops with
  | [] => ([], s)
  | (st, op) :: rest =>
      if decide (st = stream) then complete_stream stream rest (complete_op st op s)
      else let r := complete_stream stream rest s in ((st, op) :: r.1, r.2)
  end.

(** Only the oldest piece of work queued on [stream] is executed. *)
Fixpoint complete_first (stream : Z) (ops : list (Z * stream_op)) (s : State)
  : list (Z * stream_op) * State :=
  match ops with
  | [] => ([], s)
  | (st, op) :: rest =>
      if decide (st = stream) then (rest, complete_op st op s)
      else let r := complete_first stream rest s in ((st, op) :: r.1, r.2)
  end.

Definition issue (stream : Z) (op : stream_op) : M unit :=
  let* p := get pending in modify (set_pending (p ++ [(stream, op)])).

(** [cuMemcpyDtoHAsync(dstHost, srcDevice, ByteCount, hStream)]; the host
    pointer is a block and an offset into it. *)
Definition cuMemcpyDtoHAsync (dst : option nat) (dst_off : Z) (src n : Z) (stream : Z)
  : M Z :=
  let* r := ask in
  modify (log (EvMemcpyDtoHAsync dst dst_off src n stream r)) >>
  (if decide (r = CUDA_SUCCESS) then
     match dst with
     | Some b => issue stream (MemcpyDtoH b dst_off src n)
     | None => ret tt
     end
   else ret tt) >>
  ret r.

(** [cuMemcpyHtoDAsync(dstDevice, srcHost, ByteCount, hStream)]. *)
Definition cuMemcpyHtoDAsync (dst : Z) (src : option nat) (n : Z) (stream : Z)
  : M Z :=
  let* r := ask in
  modify (log (EvMemcpyHtoDAsync dst src n stream r)) >>
  (if decide (r = CUDA_SUCCESS) then
     match src with
     | Some b => issue stream (MemcpyHtoD dst b n)
     | None => ret tt
     end
   else ret tt) >>
  ret r.

(** [cuStreamAddCallback(hStream, set_to_unused, userData, 0)]. *)
Definition cuStreamAddCallback (stream : Z) (userData : option nat) : M Z :=
  let* r := ask in
  modify (log (EvStreamAddCallback stream userData r)) >>
  (if decide (r = CUDA_SUCCESS) then issue stream (Callback userData) else ret tt) >>
  ret r.

(** The work that precedes event [e] on its stream completes.  In this file
    an event is only ever waited for right after it was recorded, when all the
    work of its stream precedes it. *)
Definition complete_event (e : nat) : M unit :=
  let* ev := get events in
  match ev !! e with
  | Some stream =>
      fun s => let r := complete_stream stream (pending s) s in
               Done tt (set_pending r.1 r.2)
  | None => ret tt
  end.

(** [cuEventQuery(e)]: the answer says whether the device has reached the
    event; if it has, the work before the event is done. *)
Definition cuEventQuery (e : nat) : M Z :=
  let* r := ask in
  modify (log (EvEventQuery e r)) >>
  (if decide (r = CUDA_SUCCESS) then complete_event e else ret tt) >>
  ret r.

(** [cuEventSynchronize(e)]: the answer says whether the wait succeeded; if
    it did, the device has reached the event and the work before it is
    done. *)
Definition cuEventSynchronize (e : nat) : M Z :=
  let* r := ask in
  modify (log (EvEventSynchronize e r)) >>
  (if decide (r = CUDA_SUCCESS) then complete_event e else ret tt) >>
  ret r.

(** [cuStreamDestroy(hStream)]: work still queued on the stream completes
    later. *)
Definition cuStreamDestroy (stream : Z) : M Z :=
  let* r := ask in
  modify (log (EvStreamDestroy stream r)) >>
  ret r.

(** Modelled from the spec: [record_events_create], [record_event_begin],
    [record_event_end] and [wrapper_from_events] are declared in PTXEvent.h,
    which is not among the sources.  An event bracket is a pair of fresh event
    markers; [begin] records the first on the stream before the operation is
    issued, [end] records the second right after it, and the wrapper hands
    the pair to the caller. *)
Definition record_events_create : M (nat * nat) :=
  let* e := get next_event in
  modify (set_next_event (S (S e))) >>
  ret (e, S e).

Definition cuEventRecord (e : nat) (stream : Z) : M unit :=
  let* ev := get events in
  modify (set_events (<[e := stream]> ev)) >>
  modify (log (EvEventRecord e stream)).

Definition record_event_begin (beforeEvent : nat) (stream : Z) : M unit :=
  cuEventRecord beforeEvent stream.

Definition record_event_end (afterEvent : nat) (stream : Z) : M unit :=
  cuEventRecord afterEvent stream.

Definition wrapper_from_events (event1 event2 : nat) : M (nat * nat) :=
  ret (event1, event2).

(** ** The environment: JNI

    A Java array is a block of host memory, named by its handle.  The region
    functions check the bounds against the array and, as JNI prescribes, copy
    nothing when the region does not fit (an ArrayIndexOutOfBoundsException is
    left pending).  The native buffer is read or written for [len] bytes; a
    buffer that is NULL, freed or shorter than that is a fault. *)

Definition in_bounds (start len : Z) (arr : list byte) : Prop :=
  (0 <= start /\ 0 <= len /\ start + len <= Z.of_nat (length arr))%Z.

#[global] Instance in_bounds_dec start len arr : Decision (in_bounds start len arr).
Proof. unfold in_bounds. apply _. Defined.

Definition native_buffer (buf : option nat) (len : Z) : M (nat * list byte) :=
  match buf with
  | None => fault
  | Some b =>
      let* h := get host in
      match h !! b with
      | Some l => if decide (len <= Z.of_nat (length l))%Z then ret (b, l) else fault
      | None => fault
      end
  end.

Definition java_array (array : nat) : M (list byte) :=
  let* h := get host in
  match h !! array with
  | Some arr => ret arr
  | None => fault
  end.

(** [env->GetByteArrayRegion(array, start, len, buf)]: Java array to native
    buffer. *)
Definition GetByteArrayRegion (array : nat) (start len : Z) (buf : option nat)
  : M unit :=
  modify (log (EvGetByteArrayRegion array start len buf)) >>
  let* arr := java_array array in
  if decide (in_bounds start len arr) then
    let* bl := native_buffer buf len in
    let* h := get host in
    modify (set_host (<[bl.1 := write_at 0 (take (Z.to_nat len) (drop (Z.to_nat start) arr)) bl.2]> h))
  else ret tt.

(** [env->SetByteArrayRegion(array, start, len, buf)]: native buffer to Java
    array. *)
Definition SetByteArrayRegion (array : nat) (start len : Z) (buf : option nat)
  : M unit :=
  modify (log (EvSetByteArrayRegion array start len buf)) >>
  let* arr := java_array array in
  if decide (in_bounds start len arr) then
    let* bl := native_buffer buf len in
    let* h := get host in
    modify (set_host (<[array := write_at (Z.to_nat start) (take (Z.to_nat len) bl.2) arr]> h))
  else ret tt.

(** [env->GetPrimitiveArrayCritical(array, 0)]: a direct pointer to the
    storage of the array. *)
Definition GetPrimitiveArrayCritical (array : nat) : M (option nat) :=
  ret (Some array).

(** [env->ReleasePrimitiveArrayCritical(array, carray, 0)]. *)
Definition ReleasePrimitiveArrayCritical (array : nat) (carray : option nat) : M unit :=
  ret tt.

(** ** The transfers

    The JNI environment and class arguments are dropped, and the stream
    wrapper is the stream handle it holds ([stream_from_array] only copies
    the bytes out).  [a / b] on a [jlong] truncates towards zero. *)

(** [transferFromDeviceToHostBlock]. *)
Definition transferFromDeviceToHostBlock
    (device_ptr length : Z) (array : nat) (host_offset : Z) (stream : Z)
    (NATIVE_J_TYPE : Z) : M (nat * nat) :=
  let* staging_list := get_first_free_staging_area (to_size_t length) in
  let* ev := record_events_create in
  record_event_begin ev.1 stream >>
  let* sa := load staging_list in
  let* result := cuMemcpyDtoHAsync (staging_area sa) 0 device_ptr (to_size_t length) stream in
  record_event_end ev.2 stream >>
  let* q := cuEventQuery ev.2 in
  (if decide (q ≠ CUDA_SUCCESS) then cuEventSynchronize ev.2 >> ret tt else ret tt) >>
  let* sa := load staging_list in
  SetByteArrayRegion array (to_jsize (host_offset ÷ NATIVE_J_TYPE))
                     (to_jsize (length ÷ NATIVE_J_TYPE)) (staging_area sa) >>
  set_to_unused stream result staging_list >>
  wrapper_from_events ev.1 ev.2.

(** [transferFromDeviceToHostAsync]. *)
Definition transferFromDeviceToHostAsync
    (device_ptr length : Z) (array : nat) (host_offset : Z) (stream : Z)
  : M (nat * nat) :=
  let* native_array := GetPrimitiveArrayCritical array in
  let* ev := record_events_create in
  record_event_begin ev.1 stream >>
  let* result := cuMemcpyDtoHAsync native_array host_offset device_ptr (to_size_t length) stream in
  record_event_end ev.2 stream >>
  let* result := cuMemFreeHost native_array in
  ReleasePrimitiveArrayCritical array native_array >>
  wrapper_from_events ev.1 ev.2.

(** [transferFromHostToDeviceBlocking]. *)
Definition transferFromHostToDeviceBlocking
    (device_ptr length : Z) (array : nat) (host_offset : Z) (stream : Z)
    (numBytesNativeType : Z) : M (nat * nat) :=
  let* staging_list := get_first_free_staging_area (to_size_t length) in
  let* sa := load staging_list in
  GetByteArrayRegion array (to_jsize (host_offset ÷ numBytesNativeType))
                     (to_jsize (length ÷ numBytesNativeType)) (staging_area sa) >>
  let* ev := record_events_create in
  record_event_begin ev.1 stream >>
  let* sa := load staging_list in
  let* result := cuMemcpyHtoDAsync device_ptr (staging_area sa) (to_size_t length) stream in
  record_event_end ev.2 stream >>
  let* result := cuStreamAddCallback stream staging_list in
  wrapper_from_events ev.1 ev.2.

(** [transferFromHostToDeviceAsync]: the same calls; the source only reads
    the stream handle later. *)
Definition transferFromHostToDeviceAsync
    (device_ptr length : Z) (array : nat) (host_offset : Z) (stream : Z)
    (numBytesNativeType : Z) : M (nat * nat) :=
  let* staging_list := get_first_free_staging_area (to_size_t length) in
  let* sa := load staging_list in
  GetByteArrayRegion array (to_jsize (host_offset ÷ numBytesNativeType))
                     (to_jsize (length ÷ numBytesNativeType)) (staging_area sa) >>
  let* ev := record_events_create in
  record_event_begin ev.1 stream >>
  let* sa := load staging_list in
  let* result := cuMemcpyHtoDAsync device_ptr (staging_area sa) (to_size_t length) stream in
  record_event_end ev.2 stream >>
  let* result := cuStreamAddCallback stream staging_list in
  wrapper_from_events ev.1 ev.2.

(** ** Stream life cycle *)

(** [cuDestroyStream]: the value returned is
    [(jlong) result & stagingAreaResult].  It is [None] when
    [stagingAreaResult] is the indeterminate value of an uninitialised
    local. *)
Definition cuDestroyStream (stream : Z) : M (option Z) :=
  let* result := cuStreamDestroy stream in
  free_queue >>
  let* stagingAreaResult := free_staging_area_list in
  ret (match stagingAreaResult with
       | Some r => Some (Z.land result r)
       | None => None
       end).

(** ** Runs

    What can happen to the pool over time: the host calls a transfer, the
    device executes the oldest piece of work of a stream, the host destroys a
    stream. *)
Inductive op :=
| DtoHBlock (device_ptr length : Z) (array : nat) (host_offset stream ty : Z)
| DtoHAsync (device_ptr length : Z) (array : nat) (host_offset stream : Z)
| HtoDBlocking (device_ptr length : Z) (array : nat) (host_offset stream ty : Z)
| HtoDAsync (device_ptr length : Z) (array : nat) (host_offset stream ty : Z)
| DeviceStep (stream : Z)
| Destroy (stream : Z).

Definition device_step (stream : Z) : M unit :=
  fun s => let r := complete_first stream (pending s) s in
           Done tt (set_pending r.1 r.2).

Definition step (o : op) : M unit :=
  match o with
  | DtoHBlock d l a h st ty => transferFromDeviceToHostBlock d l a h st ty >> ret tt
  | DtoHAsync d l a h st => transferFromDeviceToHostAsync d l a h st >> ret tt
  | HtoDBlocking d l a h st ty => transferFromHostToDeviceBlocking d l a h st ty >> ret tt
  | HtoDAsync d l a h st ty => transferFromHostToDeviceAsync d l a h st ty >> ret tt
  | DeviceStep st => device_step st
  | Destroy st => cuDestroyStream st >> ret tt
  end.

Fixpoint run (ops : list op) : M unit :=
  match ops with
  | [] => ret tt
  | o :: ops' => step o >> run ops'
  end.

(** ** Observations *)

(** The areas reachable from [head] through [next]: the list of allocated
    areas that [free_staging_area_list] walks.  [None] when the walk meets a
    freed struct or does not end within the fuel. *)
Fixpoint registry_from (fuel : nat) (m : gmap nat StagingAreaList) (p : option nat)
  : option (list nat) :=
  match p with
  | None => Some []
  | Some a =>
      match fuel with
      | O => None
      | S fuel' =>
          match m !! a with
          | Some sa => cons a <$> registry_from fuel' m (next sa)
          | None => None
          end
      end
  end.

Definition registry (s : State) : option (list nat) :=
  registry_from (S (size (areas s))) (areas s) (head s).

(** The areas held by transfers in flight: those a queued callback will
    release. *)
Definition in_flight (s : State) : list (option nat) :=
  omap (fun x => match x.2 with Callback r => Some r | _ => None end) (pending s).

(** How often a block was released by the driver. *)
Definition is_release (b : nat) (e : event) : bool :=
  match e with
  | EvMemFreeHost (Some b') r => bool_decide (b' = b) && bool_decide (r = CUDA_SUCCESS)
  | _ => false
  end.
Definition releases (b : nat) (t : list event) : nat :=
  length (filter (fun e => is_release b e = true) t).

(** * Vocabulary of the statements

    The state a call leaves behind, written as a function of the state it
    starts from; the invariants and footprints the theorems speak of; the
    concrete states the theorems are evaluated at. *)

(** The next answer of the driver, and the state once it has been given. *)
Definition peek (s : State) : Z := hd CUDA_SUCCESS (oracle s).

Definition pop (s : State) : State := set_oracle (tl (oracle s)) s.

(** The state after [cuMemFreeHost p]. *)
Definition st_free (p : option nat) (s : State) : State :=
  set_host (if decide (peek s = CUDA_SUCCESS)
            then match p with Some b => delete b (host s) | None => host s end
            else host s)
           (log (EvMemFreeHost p (peek s)) (pop s)).

(** The pointer [cuMemAllocHost] stores, and the state after the call. *)
Definition alloc_ptr (s : State) : option nat :=
  if decide (peek s = CUDA_SUCCESS) then Some (next_block s) else None.

Definition st_alloc (size : Z) (s : State) : State :=
  log (EvMemAllocHost size (peek s) (alloc_ptr s))
      (set_host (if decide (peek s = CUDA_SUCCESS)
                 then <[next_block s := replicate (Z.to_nat size) x00]> (host s)
                 else host s)
                (set_next_block (if decide (peek s = CUDA_SUCCESS)
                                 then S (next_block s) else next_block s)
                                (pop s))).

(** The state after [malloc_area]. *)
Definition st_malloc (s : State) : State :=
  set_areas (<[next_area s := mkArea None None 0]> (areas s))
            (set_next_area (S (next_area s)) s).

(** The state after [store a sa]. *)
Definition st_store (a : nat) (sa : StagingAreaList) (s : State) : State :=
  set_areas (<[a := sa]> (areas s)) s.

(** What [get_first_free_staging_area] does once the area is known. *)
Definition st_head (list : option nat) (s : State) : State :=
  match head s with
  | None => set_head list s
  | Some _ => s
  end.

(** The driver answers CUDA_SUCCESS to its next [k] calls. *)
Definition driver_succeeds (k : nat) (s : State) : Prop :=
  Forall (fun r => r = CUDA_SUCCESS) (take k (oracle s)).

(** The first free area has a live buffer at least as long as its recorded
    length. *)
Definition front_backed (s : State) : Prop :=
  forall a, hd None (queue s) = Some a ->
  exists sa b l, areas s !! a = Some sa /\ staging_area sa = Some b /\
                 host s !! b = Some l /\ (area_length sa <= Z.of_nat (length l))%Z.

(** The events an acquisition can log. *)
Definition pool_event (e : event) : Prop :=
  match e with
  | EvDequeue _ | EvMemFreeHost _ _ | EvMemAllocHost _ _ _ => True
  | _ => False
  end.

(** What a call of [get_first_free_staging_area n] that returned [r] has done:
    the queue lost its front; streams, events and device are untouched; only
    pool events were logged; [r] is the former front or a new struct; [head]
    was set if it was [NULL]; and the area handed out has a live buffer of at
    least [n] bytes. *)
Record acquired (n : Z) (s : State) (r : option nat) (s' : State) : Prop := {
  acq_queue : queue s' = tl (queue s);
  acq_pending : pending s' = pending s;
  acq_events : events s' = events s;
  acq_next_event : next_event s' = next_event s;
  acq_device : device s' = device s;
  acq_trace : exists t, trace s' = trace s ++ t /\ Forall pool_event t;
  acq_next_area : next_area s <= next_area s';
  acq_origin : forall a, r = Some a ->
      hd None (queue s) = Some a /\ next_area s' = next_area s \/
      a = next_area s /\ next_area s' = S a /\ hd None (queue s) = None;
  acq_head : head s' = match head s with Some h => Some h | None => r end;
  acq_backed : forall a, r = Some a -> front_backed s -> (0 <= n)%Z ->
      exists sa b l, areas s' !! a = Some sa /\ staging_area sa = Some b /\
                     host s' !! b = Some l /\ (n <= Z.of_nat (length l))%Z
}.

(** Sequences of acquisitions and releases.  [held] is ghost state: the areas
    handed out and not yet released.  A release is matching when it gives back
    an area that is held; the client has no other releases. *)
Inductive pool_op :=
| Acquire (size : Z)
| Release (region : nat).

(** One step, and a run, of the pool under such a client. *)
Definition pool_step (o : pool_op) (sh : State * list nat) : option (State * list nat) :=
  match o with
  | Acquire n =>
      match get_first_free_staging_area n sh.1 with
      | Done (Some r) s' => Some (s', r :: sh.2)
      | Done None s' => Some (s', sh.2)
      | _ => None
      end
  | Release r =>
      if decide (r ∈ sh.2) then
        match set_to_unused 0 CUDA_SUCCESS (Some r) sh.1 with
        | Done _ s' => Some (s', filter (fun x => x <> r) sh.2)
        | _ => None
        end
      else None
  end.

Fixpoint pool_run (ops : list pool_op) (sh : State * list nat) : option (State * list nat) :=
  match ops with
  | [] => Some sh
  | o :: ops' =>
      match pool_step o sh with
      | Some sh' => pool_run ops' sh'
      | None => None
      end
  end.

(** Free and held areas are distinct structs that have been allocated. *)
Definition pool_inv (s : State) (held : list nat) : Prop :=
  NoDup (queue s ++ (Some <$> held)) /\
  forall x, x ∈ queue s ++ (Some <$> held) -> exists a, x = Some a /\ a < next_area s.

(** The state after [cuEventRecord e stream]. *)
Definition st_record (e : nat) (stream : Z) (s : State) : State :=
  log (EvEventRecord e stream) (set_events (<[e := stream]> (events s)) s).

(** The state after a call that queues [ops] on a stream when the driver
    answers CUDA_SUCCESS, and logs [e]. *)
Definition st_issue (r : Z) (ops : list (Z * stream_op)) (e : event) (s : State) : State :=
  set_pending (if decide (r = CUDA_SUCCESS) then pending s ++ ops else pending s)
              (log e (pop s)).

(** The work an accepted asynchronous copy queues. *)
Definition h2d_ops (stream dst : Z) (src : option nat) (n : Z) : list (Z * stream_op) :=
  match src with Some b => [(stream, MemcpyHtoD dst b n)] | None => [] end.

Definition d2h_ops (stream : Z) (dst : option nat) (off src n : Z) : list (Z * stream_op) :=
  match dst with Some b => [(stream, MemcpyDtoH b off src n)] | None => [] end.

(** The two host-to-device entry points, by mode. *)
Definition transferFromHostToDevice (blocking : bool) :=
  if blocking then transferFromHostToDeviceBlocking else transferFromHostToDeviceAsync.

(** The driver's answer to the asynchronous copy of a blocking read of [len]
    bytes: its next answer once the acquisition has had those it asked for. *)
Definition copy_status (len : Z) (s : State) : Z :=
  match get_first_free_staging_area (to_size_t len) s with
  | Done _ s1 => peek s1
  | _ => CUDA_SUCCESS
  end.

(** The events device progress can log: releases made by callbacks. *)
Definition enqueue_event (e : event) : Prop := exists x, e = EvEnqueue x.

(** The footprint of device progress: callbacks append to the free queue (and
    log it), copies rewrite the contents of live host blocks and of device
    memory; no block appears, disappears or changes size, and the rest of the
    state is not touched. *)
Record progressed (s s' : State) : Prop := {
  pr_head : head s' = head s;
  pr_areas : areas s' = areas s;
  pr_events : events s' = events s;
  pr_next_event : next_event s' = next_event s;
  pr_oracle : oracle s' = oracle s;
  pr_pending : pending s' = pending s;
  pr_trace : exists t, trace s' = trace s ++ t /\ Forall enqueue_event t;
  pr_queue : exists q, queue s' = queue s ++ q;
  pr_host : forall b l, host s !! b = Some l ->
            exists l', host s' !! b = Some l' /\ length l' = length l
}.

(** The state after the device has executed all the work of [stream]. *)
Definition st_complete (stream : Z) (s : State) : State :=
  set_pending (complete_stream stream (pending s) s).1
              (complete_stream stream (pending s) s).2.

(** The state after the wait of the blocking transfer: [cuEventQuery e] and,
    unless it reported completion, [cuEventSynchronize e].  The work of the
    stream is done when either call reported success, and not otherwise. *)
Definition st_wait (e : nat) (stream : Z) (s : State) : State :=
  let s6 := log (EvEventQuery e (peek s)) (pop s) in
  if decide (peek s = CUDA_SUCCESS) then st_complete stream s6
  else
    let s7 := log (EvEventSynchronize e (peek s6)) (pop s6) in
    if decide (peek s6 = CUDA_SUCCESS) then st_complete stream s7 else s7.

(** Whether the wait of a blocking transfer made the device finish the work
    of the stream: [s] is the state in which [cuEventQuery] is called. *)
Definition wait_ok (s : State) : bool :=
  bool_decide (peek s = CUDA_SUCCESS) || bool_decide (peek (pop s) = CUDA_SUCCESS).

(** The state of a blocking device-to-host transfer once the copy into the
    staging buffer [buf] has been issued between its two event records;
    [s1] is the state the acquisition left. *)
Definition st_d2h_issued (d len st : Z) (buf : option nat) (s1 : State) : State :=
  let e := next_event s1 in
  st_record (S e) st
    (st_issue (peek s1) (d2h_ops st buf 0 d (to_size_t len))
              (EvMemcpyDtoHAsync buf 0 d (to_size_t len) st (peek s1))
              (st_record e st (set_next_event (S (S e)) s1))).

(** A Java heap with two arrays of eight bytes, handles 100 and 101; the
    driver hands out blocks from 200 on; stream 7. *)
Definition demo_heap : gmap nat (list byte) :=
  {[ 100 := replicate 8 x01; 101 := replicate 8 x00 ]}.

(** The initial state over that heap, the driver answering [o]. *)
Definition demo (o : list Z) : State := initial demo_heap 200 o.



(** The initial state after the acquisition of four bytes, and after the
    copy of four bytes of array 100 into the staging buffer. *)
Definition demo_acquired : State :=
  default (demo []) (state_of (get_first_free_staging_area 4 (demo []))).

Definition demo_staged : State :=
  default demo_acquired
    (state_of (GetByteArrayRegion 100 0 4 (Some 200) demo_acquired)).

(** A four-byte write from array 100 and a four-byte read into it. *)
Definition write4 : op := HtoDBlocking 0 4 100 0 7 1.

Definition read4 : op := DtoHBlock 0 4 100 0 7 1.

(** The state the process is in after [ops], the driver answering [o]. *)
Definition after (ops : list op) (o : list Z) : State :=
  default (demo o) (state_of (run ops (demo o))).

(** One blocking read has been served; the driver will carry out the next
    call and refuse the one after it. *)
Definition one_area_refused : State :=
  after [read4] [0; 0; 0; 0; CUDA_ERROR_OUT_OF_MEMORY]%Z.

(** A write has been issued and is still queued on the stream; the driver
    will answer the query of the next read with CUDA_ERROR_NOT_READY. *)
Definition write_pending : State :=
  after [write4] [0; 0; 0; 0; 0; CUDA_ERROR_NOT_READY]%Z.

(** * The rest of the embedding

    The free queue as a linked list, the entry points that are not
    transfers, and the invariants that the later theorems speak of. *)

(** ** The free queue as the source has it: a linked list of nodes

    [queue] above is the sequence of elements of the list of [QueueNode]s.
    Here the list itself is modelled: the nodes live in a heap, [front] and
    [rear] point into it, and the three functions allocate, link, unlink and
    free nodes as the source does.  The theorems on [LinkedQueue] show that
    the sequence of elements behaves as [enqueue], [dequeue] and [free_queue]
    above say. *)
Module LinkedQueue.

(** [struct queue_list]. *)
Record QueueNode := mkNode {
  element : option nat;
  next : option nat
}.

Record t := mk {
  (* static QueueNode *front, *rear *)
  front : option nat;
  rear : option nat;
  (* malloc'ed nodes; node addresses are never reused *)
  nodes : gmap nat QueueNode;
  next_node : nat
}.

(** No call made yet: both pointers are [NULL]. *)
Definition empty : t := mk None None ∅ 0.

(** [enqueue(region)].  [None] is a fault: [rear->next] is written through
    a pointer that is [NULL] or dangling. *)
Definition enqueue (region : option nat) (q : t) : option t :=
  match front q with
  | None =>
      let n := next_node q in
      (* front = malloc; front->next = NULL; front->element = region;
         rear = front *)
      Some (mk (Some n) (Some n) (<[n := mkNode region None]> (nodes q)) (S n))
  | Some _ =>
      let newRear := next_node q in
      let m := <[newRear := mkNode region None]> (nodes q) in
      match rear q with
      | None => None
      | Some r =>
          match m !! r with
          | None => None
          | Some nd =>
              (* rear->next = newRear; rear = newRear *)
              Some (mk (front q) (Some newRear)
                       (<[r := mkNode (element nd) (Some newRear)]> m)
                       (S newRear))
          end
      end
  end.

(** [dequeue()].  [rear] is left as it is, also when the last node goes. *)
Definition dequeue (q : t) : option (option nat * t) :=
  match front q with
  | None => Some (None, q)
  | Some f =>
      match nodes q !! f with
      | None => None
      | Some nd =>
          Some (element nd,
                mk (next nd) (rear q) (delete f (nodes q)) (next_node q))
      end
  end.

(** [free_queue()]: the loop frees one node per iteration. *)
Fixpoint free_queue_loop (fuel : nat) (q : t) : option t :=
  match front q with
  | None => Some q
  | Some f =>
      match fuel with
      | O => None
      | S fuel' =>
          match nodes q !! f with
          | None => None
          | Some nd =>
              free_queue_loop fuel'
                (mk (next nd) (rear q) (delete f (nodes q)) (next_node q))
          end
      end
  end.

Definition free_queue (q : t) : option t :=
  match front q with
  | None => Some q
  | Some _ => free_queue_loop (S (size (nodes q))) q
  end.

(** The nodes from [p] to the end of the list, as addresses with their
    elements. *)
Fixpoint chain (m : gmap nat QueueNode) (p : option nat)
    (l : list (nat * option nat)) : Prop :=
  match l with
  | [] => p = None
  | (a, e) :: l' =>
      p = Some a /\ exists nx, m !! a = Some (mkNode e nx) /\ chain m nx l'
  end.

(** The list from [front] is [l]: its nodes are all the nodes there are,
    their addresses have been handed out by [malloc], and [rear] is the last
    of them. *)
Definition linked (q : t) (l : list (nat * option nat)) : Prop :=
  chain (nodes q) (front q) l /\
  NoDup l.*1 /\
  (forall a, a ∈ l.*1 <-> is_Some (nodes q !! a)) /\
  (forall a, a ∈ l.*1 -> a < next_node q) /\
  (l <> [] -> rear q = fst <$> last l).

(** [q] represents the sequence [es]: the nodes of the list carry [es]. *)
Definition represents (q : t) (es : list (option nat)) : Prop :=
  exists l, es = l.*2 /\ linked q l.

(** Enqueue all of [rs], then dequeue [n] times. *)
Fixpoint enqueue_all (rs : list (option nat)) (q : t) : option t :=
  match rs with
  | [] => Some q
  | r :: rs' =>
      match enqueue r q with
      | Some q' => enqueue_all rs' q'
      | None => None
      end
  end.

Fixpoint dequeue_n (n : nat) (q : t) : option (list (option nat) * t) :=
  match n with
  | O => Some ([], q)
  | S n' =>
      match dequeue q with
      | Some (r, q') =>
          match dequeue_n n' q' with
          | Some (rs, q'') => Some (r :: rs, q'')
          | None => None
          end
      | None => None
      end
  end.

End LinkedQueue.

(** A queue of two elements, built by [enqueue] from the empty queue. *)
Definition demo_queue : LinkedQueue.t :=
  default LinkedQueue.empty
    (LinkedQueue.enqueue_all [Some 5; Some 6] LinkedQueue.empty).

(** ** Soundness of the pool *)

(** Area [a] has a struct whose buffer is a live block the driver handed out,
    at least as long as the recorded length. *)
Definition area_ok (s : State) (a : nat) : Prop :=
  exists sa b l,
    areas s !! a = Some sa /\ staging_area sa = Some b /\
    host s !! b = Some l /\ (area_length sa <= Z.of_nat (length l))%Z /\
    b < next_block s.

(** The buffer of area [a], if it has one. *)
Definition buffer_of (s : State) (a : nat) : option nat :=
  sa ← areas s !! a; staging_area sa.

(** The free and the held areas are distinct allocated structs, each has its
    buffer, and no two of them share one. *)
Definition pool_sound (s : State) (held : list nat) : Prop :=
  pool_inv s held /\
  (forall a, Some a ∈ queue s ++ (Some <$> held) -> area_ok s a) /\
  (forall a a' b, Some a ∈ queue s ++ (Some <$> held) ->
                  Some a' ∈ queue s ++ (Some <$> held) ->
                  buffer_of s a = Some b -> buffer_of s a' = Some b -> a = a').

(** A driver call that reported a failure. *)
Definition refused (e : event) : Prop :=
  match e with
  | EvMemFreeHost _ r | EvMemAllocHost _ r _ => r <> CUDA_SUCCESS
  | _ => False
  end.

(** ** Teardown *)

(** The structs reached from [p] through [next], in order. *)
Fixpoint area_chain (m : gmap nat StagingAreaList) (p : option nat) (l : list nat)
  : Prop :=
  match l with
  | [] => p = None
  | a :: l' => p = Some a /\ exists sa, m !! a = Some sa /\ area_chain m (next sa) l'
  end.

(** The pointers passed to [cuMemFreeHost], in call order. *)
Definition freed_ptrs (t : list event) : list (option nat) :=
  omap (fun e => match e with EvMemFreeHost p _ => Some p | _ => None end) t.

(** ** Waiting for a stream *)

(** [cuStreamSynchronize(hStream)]: when the driver reports success, all the
    work of the stream has been executed.  The call is not among those the
    trace records. *)
Definition cuStreamSynchronize (stream : Z) : M Z :=
  let* r := ask in
  (if decide (r = CUDA_SUCCESS) then modify (st_complete stream) else ret tt) >>
  ret r.

(** [Java_uk_ac_manchester_tornado_drivers_ptx_PTXStream_cuStreamSynchronize]. *)
Definition PTXStream_cuStreamSynchronize (stream : Z) : M Z :=
  let* result := cuStreamSynchronize stream in
  ret result.

(** The areas that the callbacks among [ops] release, in order. *)
Definition callbacks (ops : list (Z * stream_op)) : list (option nat) :=
  omap (fun x => match x.2 with Callback r => Some r | _ => None end) ops.

(** The work queued on [stream], and the work queued on other streams. *)
Definition on_stream (stream : Z) (ops : list (Z * stream_op)) : list (Z * stream_op) :=
  filter (fun x => x.1 = stream) ops.

Definition off_stream (stream : Z) (ops : list (Z * stream_op)) : list (Z * stream_op) :=
  filter (fun x => x.1 <> stream) ops.

(** ** Invariants of runs *)

(** The areas the pool knows the whereabouts of: free, or held by a transfer
    in flight. *)
Definition tracked (s : State) : list (option nat) := queue s ++ in_flight s.


(** No struct has a successor. *)
Definition next_null (s : State) : Prop :=
  forall a sa, areas s !! a = Some sa -> next sa = None.



(** ** The stream wrapper

    A [CUstream] travels to Java and back as the bytes of the handle, in a
    byte array of [sizeof(CUstream)] bytes.  The native side of the copy is a
    local variable: its contents are passed in and handed back. *)

Definition sizeof_CUstream : Z := 8.

(** [env->NewByteArray(len)]: a new array of zeros, under a handle that is
    not in use. *)
Definition NewByteArray (len : Z) : M nat :=
  let* b := get next_block in
  modify (set_next_block (S b)) >>
  let* h := get host in
  modify (set_host (<[b := replicate (Z.to_nat len) x00]> h)) >>
  ret b.

(** The region functions on a local buffer.  As above, nothing is copied
    when the region does not fit the array. *)
Definition GetByteArrayRegion_local (array : nat) (start len : Z) (buf : list byte)
  : M (list byte) :=
  let* arr := java_array array in
  if decide (in_bounds start len arr) then
    if decide (len <= Z.of_nat (length buf))%Z
    then ret (write_at 0 (take (Z.to_nat len) (drop (Z.to_nat start) arr)) buf)
    else fault
  else ret buf.

Definition SetByteArrayRegion_local (array : nat) (start len : Z) (buf : list byte)
  : M unit :=
  let* arr := java_array array in
  if decide (in_bounds start len arr) then
    if decide (len <= Z.of_nat (length buf))%Z then
      let* h := get host in
      modify (set_host (<[array := write_at (Z.to_nat start) (take (Z.to_nat len) buf) arr]> h))
    else fault
  else ret tt.

(** [stream_from_array(env, stream_ptr, array)]; [stream] is what
    [*stream_ptr] holds before the call, the result what it holds after. *)
Definition stream_from_array (stream : list byte) (array : nat) : M (list byte) :=
  GetByteArrayRegion_local array 0 sizeof_CUstream stream.

(** [array_from_stream(env, stream)]. *)
Definition array_from_stream (stream : list byte) : M nat :=
  let* array := NewByteArray sizeof_CUstream in
  SetByteArrayRegion_local array 0 sizeof_CUstream stream >>
  ret array.

(** [Java_uk_ac_manchester_tornado_drivers_ptx_PTXStream_cuCreateStream].
    Both driver calls report a status that the code does not look at.
    [handle] is what [cuStreamCreateWithPriority] stores when it succeeds;
    [stack] is what the uninitialised local [stream] holds otherwise. *)
Definition cuCreateStream (stack handle : list byte) : M nat :=
  let* result := ask in
  let* result := ask in
  let stream := if decide (result = CUDA_SUCCESS) then handle else stack in
  array_from_stream stream.

(** ** Safety of the transfers that go through the pool *)




(** Host memory keeps its blocks and their sizes. *)
Definition host_kept (h h' : gmap nat (list byte)) : Prop :=
  forall b l, h !! b = Some l -> exists l', h' !! b = Some l' /\ length l' = length l.

(** * Reasoning about monadic code *)

Lemma bind_Done {A B} (m : M A) (k : A -> M B) s b s2 :
  bind m k s = Done b s2 ->
  exists a s1, m s = Done a s1 /\ k a s1 = Done b s2.
Proof.
  unfold bind. destruct (m s) as [a s1| |]; try discriminate.
  intros H. exists a, s1. auto.
Qed.

Lemma bind_eq {A B} (m : M A) (k : A -> M B) s a s1 :
  m s = Done a s1 -> bind m k s = k a s1.
Proof. unfold bind. intros ->. reflexivity. Qed.

Lemma bind_Fault {A B} (m : M A) (k : A -> M B) s s1 :
  m s = Fault s1 -> bind m k s = Fault s1.
Proof. unfold bind. intros ->. reflexivity. Qed.

Lemma ask_eq s : ask s = Done (peek s) (pop s).
Proof.
  destruct s as [h q ar na ho nb d p ev ne o t].
  destruct o; reflexivity.
Qed.

Lemma enqueue_eq region s :
  enqueue region s = Done tt (log (EvEnqueue region) (set_queue (queue s ++ [region]) s)).
Proof.
  unfold enqueue, bind, get. destruct (queue s) eqn:E; reflexivity.
Qed.

Lemma free_queue_loop_nil q : free_queue_loop q = [].
Proof. induction q; simpl; auto. Qed.

Lemma free_queue_eq s : free_queue s = Done tt (set_queue [] s).
Proof.
  unfold free_queue, bind, get, modify, ret.
  destruct s as [h q ar na ho nb d p ev ne o t]; simpl.
  destruct q; [reflexivity|]. unfold set_queue; simpl.
  now rewrite free_queue_loop_nil.
Qed.

Lemma dequeue_eq s :
  dequeue s = match queue s with
              | [] => Done None s
              | r :: q' => Done r (log (EvDequeue r) (set_queue q' s))
              end.
Proof. unfold dequeue, bind, get. destruct (queue s); reflexivity. Qed.

Lemma cuMemFreeHost_eq p s : cuMemFreeHost p s = Done (peek s) (st_free p s).
Proof.
  unfold cuMemFreeHost. rewrite (bind_eq _ _ _ _ _ (ask_eq s)).
  unfold st_free, bind, modify, ret, get.
  destruct s as [h q ar na ho nb d pe ev ne o t].
  destruct (decide _); [destruct p|]; reflexivity.
Qed.

Lemma cuMemAllocHost_eq size s :
  cuMemAllocHost size s = Done (peek s, alloc_ptr s) (st_alloc size s).
Proof.
  unfold cuMemAllocHost. rewrite (bind_eq _ _ _ _ _ (ask_eq s)).
  unfold st_alloc, alloc_ptr, bind, modify, ret, get.
  destruct s as [h q ar na ho nb d pe ev ne o t].
  destruct (decide _); reflexivity.
Qed.

Lemma malloc_area_eq s : malloc_area s = Done (next_area s) (st_malloc s).
Proof. reflexivity. Qed.

Lemma store_eq a sa s : store a sa s = Done tt (st_store a sa s).
Proof. reflexivity. Qed.

Lemma load_eq a sa s : areas s !! a = Some sa -> load (Some a) s = Done sa s.
Proof. intros H. unfold load, bind, get. rewrite H. reflexivity. Qed.

Lemma load_fault a s : areas s !! a = None -> load (Some a) s = Fault s.
Proof. intros H. unfold load, bind, get. rewrite H. reflexivity. Qed.

(** [check_or_init_staging_area], path by path. *)
Lemma check_create_ok size s :
  peek s = CUDA_SUCCESS ->
  check_or_init_staging_area size None s =
  Done (Some (next_area s))
       (st_store (next_area s) (mkArea None (Some (next_block s)) size)
                 (st_alloc size (st_malloc s))).
Proof.
  intros Hp. unfold check_or_init_staging_area.
  rewrite (bind_eq _ _ _ _ _ (malloc_area_eq s)).
  rewrite (bind_eq _ _ _ _ _ (cuMemAllocHost_eq size (st_malloc s))).
  cbn [fst snd]. change (peek (st_malloc s)) with (peek s).
  unfold alloc_ptr. change (peek (st_malloc s)) with (peek s).
  destruct (decide (peek s ≠ CUDA_SUCCESS)); [congruence|].
  destruct (decide (peek s = CUDA_SUCCESS)); [|congruence].
  reflexivity.
Qed.

Lemma check_create_fail size s :
  peek s <> CUDA_SUCCESS ->
  check_or_init_staging_area size None s = Done None (st_alloc size (st_malloc s)).
Proof.
  intros Hp. unfold check_or_init_staging_area.
  rewrite (bind_eq _ _ _ _ _ (malloc_area_eq s)).
  rewrite (bind_eq _ _ _ _ _ (cuMemAllocHost_eq size (st_malloc s))).
  cbn [fst snd]. change (peek (st_malloc s)) with (peek s).
  destruct (decide (peek s ≠ CUDA_SUCCESS)); [reflexivity|contradiction].
Qed.

Lemma check_reuse size a sa s :
  areas s !! a = Some sa -> ~ (area_length sa < size)%Z ->
  check_or_init_staging_area size (Some a) s = Done (Some a) s.
Proof.
  intros Ha Hn. unfold check_or_init_staging_area.
  rewrite (bind_eq _ _ _ _ _ (load_eq _ _ _ Ha)).
  destruct (decide (area_length sa < size)%Z); [contradiction|reflexivity].
Qed.

Lemma check_dangling size a s :
  areas s !! a = None ->
  check_or_init_staging_area size (Some a) s = Fault s.
Proof.
  intros Ha. unfold check_or_init_staging_area.
  apply bind_Fault, load_fault, Ha.
Qed.

Lemma check_grow_free_fail size a sa s :
  areas s !! a = Some sa -> (area_length sa < size)%Z ->
  peek s <> CUDA_SUCCESS ->
  check_or_init_staging_area size (Some a) s =
  Done None (st_free (staging_area sa) s).
Proof.
  intros Ha Hlt Hp. unfold check_or_init_staging_area.
  rewrite (bind_eq _ _ _ _ _ (load_eq _ _ _ Ha)).
  destruct (decide (area_length sa < size)%Z); [|contradiction].
  rewrite (bind_eq _ _ _ _ _ (cuMemFreeHost_eq _ s)).
  destruct (decide (peek s ≠ CUDA_SUCCESS)); [reflexivity|contradiction].
Qed.

Lemma check_grow_alloc_fail size a sa s :
  areas s !! a = Some sa -> (area_length sa < size)%Z ->
  peek s = CUDA_SUCCESS ->
  peek (pop s) <> CUDA_SUCCESS ->
  check_or_init_staging_area size (Some a) s =
  Done None (st_alloc size (st_free (staging_area sa) s)).
Proof.
  intros Ha Hlt Hp Hp2. unfold check_or_init_staging_area.
  rewrite (bind_eq _ _ _ _ _ (load_eq _ _ _ Ha)).
  destruct (decide (area_length sa < size)%Z); [|contradiction].
  rewrite (bind_eq _ _ _ _ _ (cuMemFreeHost_eq _ s)).
  destruct (decide (peek s ≠ CUDA_SUCCESS)); [congruence|].
  rewrite (bind_eq _ _ _ _ _ (cuMemAllocHost_eq size _)).
  cbn [fst snd]. change (peek (st_free (staging_area sa) s)) with (peek (pop s)).
  destruct (decide (peek (pop s) ≠ CUDA_SUCCESS)); [reflexivity|contradiction].
Qed.

Lemma check_grow_ok size a sa s :
  areas s !! a = Some sa -> (area_length sa < size)%Z ->
  peek s = CUDA_SUCCESS ->
  peek (pop s) = CUDA_SUCCESS ->
  check_or_init_staging_area size (Some a) s =
  Done (Some a)
       (st_store a (mkArea (next sa) (Some (next_block s)) size)
                 (st_alloc size (st_free (staging_area sa) s))).
Proof.
  intros Ha Hlt Hp Hp2. unfold check_or_init_staging_area.
  rewrite (bind_eq _ _ _ _ _ (load_eq _ _ _ Ha)).
  destruct (decide (area_length sa < size)%Z); [|contradiction].
  rewrite (bind_eq _ _ _ _ _ (cuMemFreeHost_eq _ s)).
  destruct (decide (peek s ≠ CUDA_SUCCESS)); [congruence|].
  rewrite (bind_eq _ _ _ _ _ (cuMemAllocHost_eq size _)).
  cbn [fst snd]. unfold alloc_ptr.
  change (peek (st_free (staging_area sa) s)) with (peek (pop s)).
  change (next_block (st_free (staging_area sa) s)) with (next_block s).
  destruct (decide (peek (pop s) ≠ CUDA_SUCCESS)); [congruence|].
  destruct (decide (peek (pop s) = CUDA_SUCCESS)); [|congruence].
  reflexivity.
Qed.

Lemma get_first_free_eq size s list s1 r s2 :
  dequeue s = Done list s1 ->
  check_or_init_staging_area size list s1 = Done r s2 ->
  get_first_free_staging_area size s = Done r (st_head r s2).
Proof.
  intros Hd Hc. unfold get_first_free_staging_area.
  rewrite (bind_eq _ _ _ _ _ Hd), (bind_eq _ _ _ _ _ Hc).
  unfold st_head, bind, get, modify, ret. destruct (head s2); reflexivity.
Qed.

Lemma get_first_free_fault size s list s1 s2 :
  dequeue s = Done list s1 ->
  check_or_init_staging_area size list s1 = Fault s2 ->
  get_first_free_staging_area size s = Fault s2.
Proof.
  intros Hd Hc. unfold get_first_free_staging_area.
  rewrite (bind_eq _ _ _ _ _ Hd). apply bind_Fault, Hc.
Qed.

(** * The claims *)

(** ** Releasing everything on an empty list *)

(** C10.  When [head] is [NULL], [free_staging_area_list] changes nothing,
    but what it returns is the value of a local that was never assigned: the
    model's [None].  The no-op half of the claim holds, the well-defined
    status does not. *)
Theorem free_staging_area_list_empty_returns_uninitialised (s : State) :
  free_staging_area_list (set_head None s) = Done None (set_head None s).
Proof. reflexivity. Qed.

(** ** Growing an area that is too small *)

Lemma driver_succeeds_S k s :
  driver_succeeds (S k) s -> peek s = CUDA_SUCCESS /\ driver_succeeds k (pop s).
Proof.
  unfold driver_succeeds, peek, pop.
  destruct s as [h q ar na ho nb d pe ev ne o t]; simpl.
  destruct o as [|r o]; simpl.
  - intros _. split; [reflexivity|]. rewrite take_nil. constructor.
  - intros H. inversion H; subst. auto.
Qed.

Arguments peek : simpl never.
Arguments alloc_ptr : simpl never.

Lemma peek_st_free p s : peek (st_free p s) = peek (pop s).
Proof. reflexivity. Qed.
Lemma peek_st_alloc n s : peek (st_alloc n s) = peek (pop s).
Proof. reflexivity. Qed.

Lemma releases_app b t1 t2 : releases b (t1 ++ t2) = releases b t1 + releases b t2.
Proof. unfold releases. now rewrite filter_app, length_app. Qed.

Lemma releases_free b r : releases b [EvMemFreeHost (Some b) r] =
                          if decide (r = CUDA_SUCCESS) then 1 else 0.
Proof.
  unfold releases.
  destruct (decide (r = CUDA_SUCCESS)) as [->|Hr].
  - rewrite filter_cons_True; [reflexivity|].
    simpl. rewrite !bool_decide_eq_true_2 by reflexivity. reflexivity.
  - rewrite filter_cons_False; [reflexivity|].
    simpl. rewrite bool_decide_eq_true_2 by reflexivity.
    rewrite bool_decide_eq_false_2 by assumption. discriminate.
Qed.

Lemma releases_other b e :
  is_release b e = false -> releases b [e] = 0.
Proof.
  intros H. unfold releases. rewrite filter_cons_False; [reflexivity|].
  rewrite H. discriminate.
Qed.

Lemma trace_st_head r s : trace (st_head r s) = trace s.
Proof. unfold st_head. destruct (head s); reflexivity. Qed.
Lemma areas_st_head r s : areas (st_head r s) = areas s.
Proof. unfold st_head. destruct (head s); reflexivity. Qed.
Lemma host_st_head r s : host (st_head r s) = host s.
Proof. unfold st_head. destruct (head s); reflexivity. Qed.
Lemma queue_st_head r s : queue (st_head r s) = queue s.
Proof. unfold st_head. destruct (head s); reflexivity. Qed.
Lemma pending_st_head r s : pending (st_head r s) = pending s.
Proof. unfold st_head. destruct (head s); reflexivity. Qed.
Lemma events_st_head r s : events (st_head r s) = events s.
Proof. unfold st_head. destruct (head s); reflexivity. Qed.
Lemma next_area_st_head r s : next_area (st_head r s) = next_area s.
Proof. unfold st_head. destruct (head s); reflexivity. Qed.
Lemma next_block_st_head r s : next_block (st_head r s) = next_block s.
Proof. unfold st_head. destruct (head s); reflexivity. Qed.
Lemma next_event_st_head r s : next_event (st_head r s) = next_event s.
Proof. unfold st_head. destruct (head s); reflexivity. Qed.
Lemma device_st_head r s : device (st_head r s) = device s.
Proof. unfold st_head. destruct (head s); reflexivity. Qed.
Lemma oracle_st_head r s : oracle (st_head r s) = oracle s.
Proof. unfold st_head. destruct (head s); reflexivity. Qed.

Ltac st_head_simpl :=
  rewrite ?trace_st_head, ?areas_st_head, ?host_st_head, ?queue_st_head,
    ?pending_st_head, ?events_st_head, ?next_area_st_head, ?next_block_st_head,
    ?next_event_st_head, ?device_st_head, ?oracle_st_head.

(** C6.  When the only free area [a] is shorter than the [n] bytes asked for
    and the driver carries out the two calls, [get_first_free_staging_area n]
    hands out that same area: the old buffer [b] has been released once, and
    before the new one was allocated; the new buffer is [n] bytes long and
    the recorded length is [n]. *)
Theorem growth_correct (n : Z) (s : State) (a b : nat) (sa : StagingAreaList) :
  queue s = [Some a] ->
  areas s !! a = Some sa ->
  staging_area sa = Some b ->
  (area_length sa < n)%Z ->
  (0 <= n)%Z ->
  driver_succeeds 2 s ->
  exists s' b' l,
    get_first_free_staging_area n s = Done (Some a) s' /\
    trace s' = trace s ++
      [EvDequeue (Some a);
       EvMemFreeHost (Some b) CUDA_SUCCESS;
       EvMemAllocHost n CUDA_SUCCESS (Some b')] /\
    releases b (trace s') = S (releases b (trace s)) /\
    areas s' !! a = Some (mkArea (next sa) (Some b') n) /\
    host s' !! b' = Some l /\
    (n <= Z.of_nat (length l))%Z /\
    queue s' = [].
Proof.
  intros Hq Ha Hb Hlt Hn Hd.
  apply driver_succeeds_S in Hd as [Hp1 Hd].
  apply driver_succeeds_S in Hd as [Hp2 _].
  pose proof (dequeue_eq s) as Hdq. rewrite Hq in Hdq.
  set (s1 := log (EvDequeue (Some a)) (set_queue [] s)) in *.
  assert (Hc := check_grow_ok n a sa s1 Ha Hlt Hp1 Hp2).
  pose proof (get_first_free_eq n s _ _ _ _ Hdq Hc) as Hg.
  eexists _, (next_block s), (replicate (Z.to_nat n) x00).
  split; [exact Hg|].
  assert (Ht : forall h0, trace (st_head h0 (st_store a (mkArea (next sa) (Some (next_block s1)) n)
                   (st_alloc n (st_free (staging_area sa) s1)))) =
               trace s ++ [EvDequeue (Some a);
                           EvMemFreeHost (Some b) CUDA_SUCCESS;
                           EvMemAllocHost n CUDA_SUCCESS (Some (next_block s))]).
  { intros h0. rewrite trace_st_head. simpl.
    rewrite Hb, peek_st_free. change (peek s1) with (peek s).
    unfold alloc_ptr. rewrite peek_st_free.
    change (peek (pop s1)) with (peek (pop s)). rewrite Hp1, Hp2.
    destruct (decide (CUDA_SUCCESS = CUDA_SUCCESS)); [|congruence].
    rewrite <- !app_assoc. reflexivity. }
  split; [apply Ht|].
  split.
  { rewrite Ht, releases_app.
    change [EvDequeue (Some a); EvMemFreeHost (Some b) CUDA_SUCCESS;
            EvMemAllocHost n CUDA_SUCCESS (Some (next_block s))]
      with ([EvDequeue (Some a)] ++ [EvMemFreeHost (Some b) CUDA_SUCCESS] ++
            [EvMemAllocHost n CUDA_SUCCESS (Some (next_block s))]).
    rewrite !releases_app, releases_free, !releases_other by reflexivity.
    destruct (decide (CUDA_SUCCESS = CUDA_SUCCESS)); [lia|congruence]. }
  split.
  { rewrite areas_st_head. apply lookup_insert_eq. }
  split.
  { rewrite host_st_head. simpl. rewrite peek_st_free.
    change (peek (pop s1)) with (peek (pop s)). rewrite Hp2. destruct (decide (CUDA_SUCCESS = CUDA_SUCCESS)); [|congruence].
    apply lookup_insert_eq. }
  split; [rewrite length_replicate; lia|].
  rewrite queue_st_head. reflexivity.
Qed.

(** ** What an acquisition does to the state *)

Lemma head_st_head r s :
  head (st_head r s) = match head s with Some h => Some h | None => r end.
Proof. unfold st_head. destruct (head s) eqn:E; [exact E|reflexivity]. Qed.

Ltac solve_acq_trace :=
  eexists; split;
  [ rewrite <- ?app_assoc; first [reflexivity | symmetry; apply app_nil_r]
  | repeat constructor ].

Lemma backed_fresh (n p : Z) (nb : nat) (h : gmap nat (list byte))
    (m : gmap nat StagingAreaList) (a : nat) (nx : option nat) :
  (0 <= n)%Z -> p = CUDA_SUCCESS ->
  exists sa b l,
    <[a := mkArea nx (Some nb) n]> m !! a = Some sa /\
    staging_area sa = Some b /\
    (if decide (p = CUDA_SUCCESS)
     then <[nb := replicate (Z.to_nat n) x00]> h
     else h) !! b = Some l /\
    (n <= Z.of_nat (length l))%Z.
Proof.
  intros Hn Hp. eexists _, _, _. split; [apply lookup_insert_eq|].
  split; [reflexivity|].
  destruct (decide (p = CUDA_SUCCESS)); [|contradiction].
  split; [apply lookup_insert_eq|]. rewrite length_replicate. lia.
Qed.

Lemma get_first_free_inv n s r s' :
  get_first_free_staging_area n s = Done r s' -> acquired n s r s'.
Proof.
  intros H. pose proof (dequeue_eq s) as Hdq.
  destruct (queue s) as [|list q'] eqn:Hq.
  - destruct (decide (peek s = CUDA_SUCCESS)) as [Hp|Hp].
    + rewrite (get_first_free_eq _ _ _ _ _ _ Hdq (check_create_ok n s Hp)) in H.
      injection H as <- <-.
      split; st_head_simpl; rewrite ?head_st_head; simpl; rewrite ?Hq; auto.
      * solve_acq_trace.
      * intros a [= <-]. auto.
      * intros a [= <-] _ Hn. apply backed_fresh; assumption.
    + rewrite (get_first_free_eq _ _ _ _ _ _ Hdq (check_create_fail n s Hp)) in H.
      injection H as <- <-.
      split; st_head_simpl; rewrite ?head_st_head; simpl; rewrite ?Hq; auto;
        try discriminate.
      solve_acq_trace.
  - set (s1 := log (EvDequeue list) (set_queue q' s)) in *.
    destruct list as [a|].
    + destruct (areas s !! a) as [sa|] eqn:Ha.
      2:{ rewrite (get_first_free_fault _ _ _ _ _ Hdq (check_dangling n a s1 Ha)) in H.
          discriminate. }
      destruct (decide (area_length sa < n)%Z) as [Hlt|Hge].
      * destruct (decide (peek s = CUDA_SUCCESS)) as [Hp|Hp].
        -- destruct (decide (peek (pop s) = CUDA_SUCCESS)) as [Hp2|Hp2].
           ++ rewrite (get_first_free_eq _ _ _ _ _ _ Hdq
                         (check_grow_ok n a sa s1 Ha Hlt Hp Hp2)) in H.
              injection H as <- <-.
              split; st_head_simpl; rewrite ?head_st_head; simpl; rewrite ?Hq; auto.
              ** solve_acq_trace.
              ** intros a' [= <-] Hb Hn. apply backed_fresh; assumption.
           ++ rewrite (get_first_free_eq _ _ _ _ _ _ Hdq
                         (check_grow_alloc_fail n a sa s1 Ha Hlt Hp Hp2)) in H.
              injection H as <- <-.
              split; st_head_simpl; rewrite ?head_st_head; simpl; rewrite ?Hq; auto;
                try discriminate.
              solve_acq_trace.
        -- rewrite (get_first_free_eq _ _ _ _ _ _ Hdq
                      (check_grow_free_fail n a sa s1 Ha Hlt Hp)) in H.
           injection H as <- <-.
           split; st_head_simpl; rewrite ?head_st_head; simpl; rewrite ?Hq; auto;
             try discriminate.
           solve_acq_trace.
      * rewrite (get_first_free_eq _ _ _ _ _ _ Hdq (check_reuse n a sa s1 Ha Hge)) in H.
        injection H as <- <-.
        split; st_head_simpl; rewrite ?head_st_head; simpl; rewrite ?Hq; auto.
        -- solve_acq_trace.
        -- intros a' [= <-] Hb Hn. destruct (Hb a) as (sa' & b & l & Ha' & Hs & Hh & Hl).
           { rewrite Hq. reflexivity. }
           rewrite Ha in Ha'. injection Ha' as <-.
           exists sa, b, l. repeat split; auto. lia.
    + destruct (decide (peek s = CUDA_SUCCESS)) as [Hp|Hp].
      * rewrite (get_first_free_eq _ _ _ _ _ _ Hdq (check_create_ok n s1 Hp)) in H.
        injection H as <- <-.
        split; st_head_simpl; rewrite ?head_st_head; simpl; rewrite ?Hq; auto.
        -- solve_acq_trace.
        -- intros a [= <-]. auto.
        -- intros a [= <-] _ Hn. apply backed_fresh; assumption.
      * rewrite (get_first_free_eq _ _ _ _ _ _ Hdq (check_create_fail n s1 Hp)) in H.
        injection H as <- <-.
        split; st_head_simpl; rewrite ?head_st_head; simpl; rewrite ?Hq; auto;
          try discriminate.
        solve_acq_trace.
Qed.

(** ** No double use *)

Lemma filter_ne_id (r : nat) (l : list nat) :
  r ∉ l -> filter (fun x => x <> r) l = l.
Proof.
  induction l as [|x l IH]; intros Hr; [reflexivity|].
  apply not_elem_of_cons in Hr as [Hne Hr].
  rewrite filter_cons_True by congruence. now rewrite IH.
Qed.

Lemma held_split (r : nat) (held : list nat) :
  NoDup held -> r ∈ held -> held ≡ₚ r :: filter (fun x => x <> r) held.
Proof.
  induction held as [|x held IH]; intros Hnd Hin.
  - inversion Hin.
  - apply NoDup_cons in Hnd as [Hx Hnd].
    destruct (decide (x = r)) as [->|Hne].
    + rewrite filter_cons_False by (intros H; apply H; reflexivity).
      rewrite filter_ne_id by assumption. reflexivity.
    + rewrite filter_cons_True by assumption.
      apply elem_of_cons in Hin as [->|Hin]; [contradiction|].
      rewrite (IH Hnd Hin) at 1. apply Permutation_swap.
Qed.

Lemma pool_step_inv o s held s' held' :
  pool_inv s held -> pool_step o (s, held) = Some (s', held') -> pool_inv s' held'.
Proof.
  unfold pool_inv. intros [Hnd Hb] Hstep. destruct o as [n|r]; simpl in Hstep.
  - destruct (get_first_free_staging_area n s) as [[a|] s1| |] eqn:Hg;
      try discriminate; injection Hstep as <- <-;
      apply get_first_free_inv in Hg;
      destruct Hg as [Hq' _ _ _ _ _ Hna' Horigin _ _]; rewrite Hq'.
    + destruct (Horigin a eq_refl) as [[Hhd Hna]|(-> & Hna & Hhd)].
      * destruct (queue s) as [|x q'] eqn:Hq; [discriminate|].
        simpl in Hhd. subst x. simpl. split.
        -- rewrite <- Permutation_middle. exact Hnd.
        -- intros x Hx. rewrite Hna. apply Hb.
           rewrite <- Permutation_middle in Hx. exact Hx.
      * destruct (queue s) as [|x q'] eqn:Hq.
        2:{ simpl in Hhd. subst x. destruct (Hb None) as (a & Ha & _);
              [left|discriminate]. }
        simpl in *. split.
        -- apply NoDup_cons. split; [|assumption].
           intros Hin. apply Hb in Hin as (a & [= <-] & Hlt). lia.
        -- intros x Hx. apply elem_of_cons in Hx as [->|Hx].
           ++ exists (next_area s). split; [reflexivity|lia].
           ++ apply Hb in Hx as (a & -> & Hlt). exists a. split; [reflexivity|lia].
    + destruct (queue s) as [|x q'] eqn:Hq; simpl in *.
      * split; [assumption|]. intros x Hx.
        apply Hb in Hx as (a & -> & Hlt). exists a. split; [reflexivity|lia].
      * apply NoDup_cons in Hnd as [_ Hnd]. split; [assumption|]. intros y Hy.
        destruct (Hb y) as (a & -> & Hlt); [right; assumption|].
        exists a. split; [reflexivity|lia].
  - destruct (decide (r ∈ held)) as [Hin|]; [|discriminate].
    unfold set_to_unused in Hstep. rewrite enqueue_eq in Hstep.
    injection Hstep as <- <-. simpl.
    assert (Hh : NoDup held).
    { apply NoDup_app in Hnd as (_ & _ & Hnd).
      eapply NoDup_fmap; [|exact Hnd]. intros ?? [=]. assumption. }
    assert (Hperm : (queue s ++ [Some r]) ++ (Some <$> filter (fun x => x <> r) held)
                    ≡ₚ queue s ++ (Some <$> held)).
    { rewrite <- app_assoc. apply Permutation_app_head. simpl.
      rewrite (held_split r held Hh Hin) at 2. reflexivity. }
    split.
    + rewrite Hperm. exact Hnd.
    + intros x Hx. rewrite Hperm in Hx. apply Hb, Hx.
Qed.

Lemma pool_run_inv ops s held s' held' :
  pool_inv s held -> pool_run ops (s, held) = Some (s', held') -> pool_inv s' held'.
Proof.
  revert s held. induction ops as [|o ops IH]; intros s held Hinv Hrun; simpl in Hrun.
  - injection Hrun as <- <-. assumption.
  - destruct (pool_step o (s, held)) as [[s1 held1]|] eqn:Hstep; [|discriminate].
    eapply IH; [|exact Hrun]. eapply pool_step_inv; eassumption.
Qed.

(** C8.  After any sequence of acquisitions and matching releases, no area is
    held twice, no held area is in the free queue, and the next acquisition
    hands out an area that is not held and that is no longer in the free
    queue. *)
Theorem no_double_use (ops : list pool_op) (s0 s : State) (held : list nat) :
  pool_inv s0 [] ->
  pool_run ops (s0, []) = Some (s, held) ->
  NoDup held /\
  (forall r, r ∈ held -> Some r ∉ queue s) /\
  (forall n r s', get_first_free_staging_area n s = Done (Some r) s' ->
                  (r ∉ held) /\ (Some r ∉ queue s')).
Proof.
  intros H0 Hrun.
  assert (Hinv := pool_run_inv _ _ _ _ _ H0 Hrun).
  assert (Hsplit : forall s1 h1, pool_inv s1 h1 ->
            NoDup h1 /\ forall r, r ∈ h1 -> Some r ∉ queue s1).
  { intros s1 h1 [Hnd _]. apply NoDup_app in Hnd as (_ & Hdisj & Hnd). split.
    - eapply NoDup_fmap; [|exact Hnd]. intros ?? [=]. assumption.
    - intros r Hr Hq. apply (Hdisj _ Hq). apply list_elem_of_fmap_2, Hr. }
  destruct (Hsplit _ _ Hinv) as [Hnd Hdisj].
  split; [assumption|]. split; [assumption|].
  intros n r s' Hg.
  assert (Hstep : pool_step (Acquire n) (s, held) = Some (s', r :: held)).
  { simpl. rewrite Hg. reflexivity. }
  apply (pool_step_inv _ _ _ _ _ Hinv) in Hstep.
  destruct (Hsplit _ _ Hstep) as [Hnd' Hdisj'].
  apply NoDup_cons in Hnd' as [Hnotin _]. split; [assumption|].
  apply Hdisj'. left.
Qed.

(** ** Equations for the environment *)

Lemma record_events_create_eq s :
  record_events_create s =
  Done (next_event s, S (next_event s)) (set_next_event (S (S (next_event s))) s).
Proof. reflexivity. Qed.

Lemma cuEventRecord_eq e stream s : cuEventRecord e stream s = Done tt (st_record e stream s).
Proof. reflexivity. Qed.

Lemma cuMemcpyHtoDAsync_eq dst src n stream s :
  cuMemcpyHtoDAsync dst src n stream s =
  Done (peek s)
       (st_issue (peek s) (h2d_ops stream dst src n)
                 (EvMemcpyHtoDAsync dst src n stream (peek s)) s).
Proof.
  unfold cuMemcpyHtoDAsync. rewrite (bind_eq _ _ _ _ _ (ask_eq s)).
  unfold st_issue, h2d_ops, issue, bind, modify, ret, get.
  destruct s as [h q ar na ho nb d pe ev ne o t].
  destruct (decide _); [destruct src|]; simpl; rewrite ?app_nil_r; reflexivity.
Qed.

Lemma cuMemcpyDtoHAsync_eq dst off src n stream s :
  cuMemcpyDtoHAsync dst off src n stream s =
  Done (peek s)
       (st_issue (peek s) (d2h_ops stream dst off src n)
                 (EvMemcpyDtoHAsync dst off src n stream (peek s)) s).
Proof.
  unfold cuMemcpyDtoHAsync. rewrite (bind_eq _ _ _ _ _ (ask_eq s)).
  unfold st_issue, d2h_ops, issue, bind, modify, ret, get.
  destruct s as [h q ar na ho nb d pe ev ne o t].
  destruct (decide _); [destruct dst|]; simpl; rewrite ?app_nil_r; reflexivity.
Qed.

Lemma cuStreamAddCallback_eq stream userData s :
  cuStreamAddCallback stream userData s =
  Done (peek s)
       (st_issue (peek s) [(stream, Callback userData)]
                 (EvStreamAddCallback stream userData (peek s)) s).
Proof.
  unfold cuStreamAddCallback. rewrite (bind_eq _ _ _ _ _ (ask_eq s)).
  unfold st_issue, issue, bind, modify, ret, get.
  destruct s as [h q ar na ho nb d pe ev ne o t].
  destruct (decide _); reflexivity.
Qed.

Lemma load_inv list sa s s' :
  load list s = Done sa s' ->
  s' = s /\ exists a, list = Some a /\ areas s !! a = Some sa.
Proof.
  unfold load. destruct list as [a|]; [|discriminate].
  unfold bind, get, ret, fault. destruct (areas s !! a) eqn:E; [|discriminate].
  intros [= <- <-]. eauto.
Qed.

Lemma set_host_id s : set_host (host s) s = s.
Proof. destruct s; reflexivity. Qed.

(** The region functions of JNI touch host memory and nothing else. *)
Lemma GetByteArrayRegion_inv array start len buf s s' :
  GetByteArrayRegion array start len buf s = Done tt s' ->
  exists h', s' = set_host h' (log (EvGetByteArrayRegion array start len buf) s).
Proof.
  unfold GetByteArrayRegion, java_array, native_buffer, bind, modify, get, ret, fault.
  set (s1 := log _ s).
  destruct (host s1 !! array) as [arr|]; [|discriminate].
  destruct (decide (in_bounds start len arr)).
  - destruct buf as [b|]; [|discriminate].
    destruct (host s1 !! b) as [l|]; [|discriminate].
    destruct (decide _); [|discriminate].
    intros [= <-]. eexists. reflexivity.
  - intros [= <-]. exists (host s1). symmetry. apply set_host_id.
Qed.

(** ** Freeing the destination of a non-blocking device-to-host transfer *)

Lemma bind_ret {A B} (a : A) (k : A -> M B) s : bind (ret a) k s = k a s.
Proof. reflexivity. Qed.

(** C7.  The non-blocking device-to-host transfer always returns, and leaves
    [head], the free queue and the struct heap alone, as claimed.  But its
    last driver call is [cuMemFreeHost] on the caller's array, made while the
    copy into that array is still queued on the stream; when the driver
    reports success for it, the storage of the array is gone when the call
    returns. *)
Theorem device_to_host_async_frees_destination
    (d len : Z) (array : nat) (off st : Z) (s : State) :
  exists ev s',
    transferFromDeviceToHostAsync d len array off st s = Done ev s' /\
    head s' = head s /\ queue s' = queue s /\ areas s' = areas s /\
    trace s' = trace s ++
      [EvEventRecord ev.1 st;
       EvMemcpyDtoHAsync (Some array) off d (to_size_t len) st (peek s);
       EvEventRecord ev.2 st;
       EvMemFreeHost (Some array) (peek (pop s))] /\
    (peek s = CUDA_SUCCESS ->
     pending s' = pending s ++ [(st, MemcpyDtoH array off d (to_size_t len))]) /\
    (peek (pop s) = CUDA_SUCCESS -> host s' !! array = None).
Proof.
  unfold transferFromDeviceToHostAsync, GetPrimitiveArrayCritical,
    ReleasePrimitiveArrayCritical, wrapper_from_events,
    record_event_begin, record_event_end.
  rewrite bind_ret.
  rewrite (bind_eq _ _ _ _ _ (record_events_create_eq _)). cbn [fst snd].
  rewrite (bind_eq _ _ _ _ _ (cuEventRecord_eq _ _ _)).
  rewrite (bind_eq _ _ _ _ _ (cuMemcpyDtoHAsync_eq _ _ _ _ _ _)).
  rewrite (bind_eq _ _ _ _ _ (cuEventRecord_eq _ _ _)).
  rewrite (bind_eq _ _ _ _ _ (cuMemFreeHost_eq _ _)).
  rewrite bind_ret.
  eexists _, _. split; [reflexivity|].
  split; [reflexivity|]. split; [reflexivity|]. split; [reflexivity|].
  split; [simpl; rewrite <- !app_assoc; reflexivity|].
  split.
  - intros Hp. simpl.
    change (peek (st_record _ _ _)) with (peek s).
    destruct (decide (peek s = CUDA_SUCCESS)); [reflexivity|contradiction].
  - intros Hp. simpl.
    match goal with |- context [decide (peek ?x = _)] =>
      change (peek x) with (peek (pop s)) end.
    destruct (decide (peek (pop s) = CUDA_SUCCESS)); [|contradiction].
    apply lookup_delete_eq.
Qed.

(** ** The two host-to-device entry points *)

Lemma transferFromHostToDeviceAsync_eq :
  transferFromHostToDeviceAsync = transferFromHostToDeviceBlocking.
Proof. reflexivity. Qed.

Ltac bind_inv H a s1 H1 :=
  apply bind_Done in H as (a & s1 & H1 & H).

(** ** What the device does while the host waits *)

Lemma progressed_refl s : progressed s s.
Proof.
  split; try reflexivity.
  - exists []. split; [symmetry; apply app_nil_r|constructor].
  - exists []. symmetry; apply app_nil_r.
  - eauto.
Qed.

Lemma progressed_trans s1 s2 s3 : progressed s1 s2 -> progressed s2 s3 -> progressed s1 s3.
Proof.
  intros [] []. split; try congruence.
  - destruct pr_trace0 as (t1 & E1 & F1), pr_trace1 as (t2 & E2 & F2).
    exists (t1 ++ t2). split; [rewrite E2, E1, app_assoc; reflexivity|].
    apply Forall_app; auto.
  - destruct pr_queue0 as (q1 & E1), pr_queue1 as (q2 & E2).
    exists (q1 ++ q2). rewrite E2, E1, app_assoc. reflexivity.
  - intros b l Hl. apply pr_host0 in Hl as (l1 & Hl1 & E1).
    apply pr_host1 in Hl1 as (l2 & Hl2 & E2). exists l2. split; [assumption|congruence].
Qed.

Lemma length_dev_read d src n : length (dev_read d src n) = Z.to_nat n.
Proof. unfold dev_read. rewrite length_fmap. apply length_seqZ. Qed.

Lemma length_write_at off data l :
  off + length data <= length l -> length (write_at off data l) = length l.
Proof.
  intros H. unfold write_at. rewrite !length_app, length_take, length_drop. lia.
Qed.

Lemma complete_op_progressed stream op s : progressed s (complete_op stream op s).
Proof.
  destruct op as [b off src n|dst b n|userData]; simpl.
  - destruct (host s !! b) as [l|] eqn:Hb; [|apply progressed_refl].
    destruct (decide _) as [(H1 & H2 & H3)|]; [|apply progressed_refl].
    split; try reflexivity.
    + exists []. split; [symmetry; apply app_nil_r|constructor].
    + exists []. symmetry; apply app_nil_r.
    + intros b' l' Hl'. simpl. destruct (decide (b = b')) as [<-|Hne].
      * rewrite lookup_insert_eq. eexists. split; [reflexivity|].
        rewrite Hb in Hl'. injection Hl' as <-.
        apply length_write_at. rewrite length_dev_read. lia.
      * rewrite lookup_insert_ne by assumption. eauto.
  - destruct (host s !! b) as [l|]; [|apply progressed_refl].
    destruct (decide _); [|apply progressed_refl].
    split; try reflexivity.
    + exists []. split; [symmetry; apply app_nil_r|constructor].
    + exists []. symmetry; apply app_nil_r.
    + eauto.
  - unfold set_to_unused. rewrite enqueue_eq.
    split; try reflexivity.
    + exists [EvEnqueue userData]. split; [reflexivity|].
      repeat constructor. exists userData. reflexivity.
    + exists [userData]. reflexivity.
    + eauto.
Qed.

Lemma complete_stream_progressed stream ops s :
  progressed s (complete_stream stream ops s).2.
Proof.
  revert s. induction ops as [|[st op] ops IH]; intros s; simpl.
  - apply progressed_refl.
  - destruct (decide (st = stream)).
    + eapply progressed_trans; [apply complete_op_progressed|apply IH].
    + simpl. apply IH.
Qed.

Lemma complete_stream_rest stream ops s x :
  x ∈ (complete_stream stream ops s).1 -> x.1 <> stream.
Proof.
  revert s. induction ops as [|[st op] ops IH]; intros s; simpl.
  - intros H. inversion H.
  - destruct (decide (st = stream)); [apply IH|].
    simpl. intros H. apply elem_of_cons in H as [->|H]; [assumption|].
    eapply IH, H.
Qed.

Lemma complete_stream_snoc stream ops op s :
  complete_stream stream (ops ++ [(stream, op)]) s =
  ((complete_stream stream ops s).1,
   complete_op stream op (complete_stream stream ops s).2).
Proof.
  revert s. induction ops as [|[st o] ops IH]; intros s; simpl.
  - destruct (decide (stream = stream)); [reflexivity|contradiction].
  - destruct (decide (st = stream)); [apply IH|].
    rewrite IH. reflexivity.
Qed.

(** A device-to-host copy into a live block that is long enough leaves the
    device data at the front of the block. *)
Lemma complete_d2h stream b src n s l :
  host s !! b = Some l -> (0 <= n <= Z.of_nat (length l))%Z ->
  let s' := complete_op stream (MemcpyDtoH b 0 src n) s in
  device s' = device s /\
  exists l', host s' !! b = Some l' /\ length l' = length l /\
             take (Z.to_nat n) l' = dev_read (device s) src n.
Proof.
  intros Hb Hn. simpl. rewrite Hb.
  destruct (decide _) as [|Hno]; [|lia].
  split; [reflexivity|]. simpl. rewrite lookup_insert_eq.
  eexists. split; [reflexivity|]. split.
  - apply length_write_at. rewrite length_dev_read. lia.
  - unfold write_at. simpl.
    rewrite take_app_length' by (symmetry; apply length_dev_read). reflexivity.
Qed.

Lemma complete_event_eq e stream s :
  events s !! e = Some stream -> complete_event e s = Done tt (st_complete stream s).
Proof.
  intros H. unfold complete_event, bind, get. rewrite H. reflexivity.
Qed.

Lemma cuEventSynchronize_eq e stream s :
  events s !! e = Some stream ->
  cuEventSynchronize e s =
  Done (peek s)
       (if decide (peek s = CUDA_SUCCESS)
        then st_complete stream (log (EvEventSynchronize e (peek s)) (pop s))
        else log (EvEventSynchronize e (peek s)) (pop s)).
Proof.
  intros H. unfold cuEventSynchronize. rewrite (bind_eq _ _ _ _ _ (ask_eq s)).
  unfold bind at 1. unfold modify at 1.
  destruct (decide (peek s = CUDA_SUCCESS)).
  - rewrite (bind_eq _ _ _ _ _
               (complete_event_eq e stream (log (EvEventSynchronize e (peek s)) (pop s)) H)).
    reflexivity.
  - reflexivity.
Qed.

Lemma cuEventQuery_eq e stream s :
  events s !! e = Some stream ->
  cuEventQuery e s =
  Done (peek s)
       (if decide (peek s = CUDA_SUCCESS)
        then st_complete stream (log (EvEventQuery e (peek s)) (pop s))
        else log (EvEventQuery e (peek s)) (pop s)).
Proof.
  intros H. unfold cuEventQuery. rewrite (bind_eq _ _ _ _ _ (ask_eq s)).
  unfold bind at 1. unfold modify at 1.
  destruct (decide (peek s = CUDA_SUCCESS)).
  - rewrite (bind_eq _ _ _ _ _
               (complete_event_eq e stream (log (EvEventQuery e (peek s)) (pop s)) H)).
    reflexivity.
  - reflexivity.
Qed.

Lemma SetByteArrayRegion_inv array start len buf s s' :
  SetByteArrayRegion array start len buf s = Done tt s' ->
  exists arr, host s !! array = Some arr /\
    (~ in_bounds start len arr /\
     s' = log (EvSetByteArrayRegion array start len buf) s
     \/
     in_bounds start len arr /\
     exists b l, buf = Some b /\ host s !! b = Some l /\
       (len <= Z.of_nat (length l))%Z /\
       s' = set_host (<[array := write_at (Z.to_nat start) (take (Z.to_nat len) l) arr]> (host s))
                     (log (EvSetByteArrayRegion array start len buf) s)).
Proof.
  unfold SetByteArrayRegion, java_array, native_buffer, bind, modify, get, ret, fault.
  set (s1 := log _ s).
  destruct (host s1 !! array) as [arr|] eqn:Harr; [|discriminate].
  destruct (decide (in_bounds start len arr)) as [Hin|Hout].
  - destruct buf as [b|]; [|discriminate].
    destruct (host s1 !! b) as [l|] eqn:Hb; [|discriminate].
    destruct (decide _); [|discriminate].
    intros [= <-]. exists arr. split; [exact Harr|].
    right. split; [assumption|]. exists b, l. auto.
  - intros [= <-]. exists arr. split; [exact Harr|]. left. auto.
Qed.

Lemma read_back_write_at (start n : nat) (data arr : list byte) :
  length data = n -> start + n <= length arr ->
  take n (drop start (write_at start data arr)) = data.
Proof.
  intros Hd Hn. unfold write_at.
  rewrite drop_app_length' by (rewrite length_take; lia).
  rewrite take_app_length' by auto. reflexivity.
Qed.

(** The wait of the blocking transfer: the query and, unless it reported
    completion, the synchronisation, whose status is dropped. *)
Lemma wait_eq {B} e stream (k : M B) s :
  events s !! e = Some stream ->
  (let* q := cuEventQuery e in
   (if decide (q ≠ CUDA_SUCCESS) then cuEventSynchronize e >> ret tt else ret tt) >> k) s =
  k (st_wait e stream s).
Proof.
  intros He. rewrite (bind_eq _ _ _ _ _ (cuEventQuery_eq e stream s He)).
  unfold st_wait. cbv zeta.
  destruct (decide (peek s = CUDA_SUCCESS)) as [Hp|Hp].
  - destruct (decide (peek s ≠ CUDA_SUCCESS)); [contradiction|]. reflexivity.
  - destruct (decide (peek s ≠ CUDA_SUCCESS)); [|contradiction].
    set (s6 := log (EvEventQuery e (peek s)) (pop s)).
    assert (He6 : events s6 !! e = Some stream) by exact He.
    assert (Hs : (cuEventSynchronize e >> ret tt) s6 =
                 Done tt (if decide (peek s6 = CUDA_SUCCESS)
                          then st_complete stream (log (EvEventSynchronize e (peek s6)) (pop s6))
                          else log (EvEventSynchronize e (peek s6)) (pop s6))).
    { rewrite (bind_eq _ _ _ _ _ (cuEventSynchronize_eq e stream s6 He6)). reflexivity. }
    rewrite (bind_eq _ _ _ _ _ Hs). reflexivity.
Qed.

Lemma st_complete_progressed stream s :
  let s' := st_complete stream s in
  head s' = head s /\ areas s' = areas s /\
  (exists t, trace s' = trace s ++ t /\ Forall enqueue_event t) /\
  (exists q, queue s' = queue s ++ q) /\
  (forall b l, host s !! b = Some l ->
     exists l', host s' !! b = Some l' /\ length l' = length l) /\
  (forall x, x ∈ pending s' -> x.1 <> stream).
Proof.
  simpl. destruct (complete_stream_progressed stream (pending s) s).
  unfold st_complete. simpl. repeat split; auto.
  intros x. apply complete_stream_rest.
Qed.

(** * Concrete runs *)

(** ** The list of allocated areas *)

(** C1.  Two host-to-device transfers are issued before the device has run
    the callback of the first.  The second finds the free queue empty and
    creates area 1; since [head] is no longer [NULL] the area is not linked
    into the list.  Both areas are in flight, and later both are in the free
    queue, but the list that starts at [head] holds area 0 only. *)
Theorem second_area_not_registered :
  exists s1 s2,
    run [write4; write4] (demo []) = Done tt s1 /\
    in_flight s1 = [Some 0; Some 1] /\
    registry s1 = Some [0] /\
    run [DeviceStep 7; DeviceStep 7; DeviceStep 7; DeviceStep 7] s1 = Done tt s2 /\
    queue s2 = [Some 0; Some 1] /\
    registry s2 = Some [0].
Proof.
  eexists _, _.
  split; [vm_compute; reflexivity|].
  split; [vm_compute; reflexivity|].
  split; [vm_compute; reflexivity|].
  split; [vm_compute; reflexivity|].
  split; vm_compute; reflexivity.
Qed.

(** C2.  The same two transfers complete and the stream is destroyed.  The
    free queue and the list are empty afterwards, and the buffer of area 0 was
    released once; but area 1 was never in the list, so its struct is still
    allocated and its buffer, block 201, is still live and was never passed to
    [cuMemFreeHost]. *)
Theorem destroy_leaks_unregistered_area :
  exists r s,
    cuDestroyStream 7
      (after [write4; write4; DeviceStep 7; DeviceStep 7; DeviceStep 7; DeviceStep 7] [])
      = Done r s /\
    queue s = [] /\ head s = None /\ registry s = Some [] /\
    releases 200 (trace s) = 1 /\
    areas s !! 1 = Some (mkArea None (Some 201) 4) /\
    host s !! 201 = Some (replicate 4 x01) /\
    releases 201 (trace s) = 0.
Proof.
  eexists _, _.
  split; [vm_compute; reflexivity|].
  repeat split; vm_compute; reflexivity.
Qed.

(** ** A failed acquisition *)

(** C5.  One blocking read has created area 0 (four bytes, block 200) and
    put it back in the free queue.  The next acquisition asks for eight
    bytes; the driver frees block 200 and then refuses the allocation.
    [get_first_free_staging_area] returns [NULL], as claimed, and the area is
    not in the free queue.  But the area stays in the list of allocated areas
    with its old length and a pointer to the block that was just freed, so a
    later [cuDestroyStream] frees block 200 a second time; and the transfer
    that asked for the area does not abort: it goes on to read
    [staging_list->staging_area] through the [NULL] pointer. *)
Theorem failed_growth_corrupts_pool :
  exists s2 s3 r s4,
    get_first_free_staging_area 8 one_area_refused = Done None s2 /\
    queue s2 = [] /\
    registry s2 = Some [0] /\
    areas s2 !! 0 = Some (mkArea None (Some 200) 4) /\
    host s2 !! 200 = None /\
    transferFromDeviceToHostBlock 0 8 100 0 7 1 one_area_refused = Fault s3 /\
    cuDestroyStream 7 s2 = Done r s4 /\
    releases 200 (trace s4) = 2.
Proof.
  eexists _, _, _, _.
  split; [vm_compute; reflexivity|].
  split; [vm_compute; reflexivity|].
  split; [vm_compute; reflexivity|].
  split; [vm_compute; reflexivity|].
  split; [vm_compute; reflexivity|].
  split; [vm_compute; reflexivity|].
  split; vm_compute; reflexivity.
Qed.

(** ** The status of [cuDestroyStream] *)

(** The loop of [free_staging_area_list] frees one struct per iteration, so
    the fuel it is given always suffices: the function returns or faults. *)
Lemma free_staging_area_list_loop_fuel fuel result s :
  size (areas s) < fuel ->
  free_staging_area_list_loop fuel result s <> OutOfFuel.
Proof.
  revert result s. induction fuel as [|fuel IH]; intros result s Hsz; [lia|].
  cbn [free_staging_area_list_loop]. unfold bind at 1, get at 1.
  destruct (head s) as [a|] eqn:Hh; [|discriminate].
  destruct (areas s !! a) as [sa|] eqn:Ha.
  - rewrite (bind_eq _ _ _ _ _ (load_eq a sa s Ha)).
    rewrite (bind_eq _ _ _ _ _ (cuMemFreeHost_eq _ _)).
    unfold bind at 1, modify at 1. unfold bind at 1, free_area at 1.
    unfold bind at 1, get at 1, modify at 1.
    apply IH. cbn [areas set_areas set_head st_free set_host log].
    change (areas (pop s)) with (areas s).
    rewrite map_size_delete_Some by eauto.
    assert (size (areas s) <> 0).
    { intros Hz. apply map_size_empty_iff in Hz. rewrite Hz, lookup_empty in Ha.
      discriminate. }
    lia.
  - rewrite (bind_Fault _ _ _ _ (load_fault a s Ha)). discriminate.
Qed.

Lemma free_staging_area_list_returns s : free_staging_area_list s <> OutOfFuel.
Proof.
  unfold free_staging_area_list, bind at 1, get at 1.
  apply free_staging_area_list_loop_fuel. lia.
Qed.

Lemma cuStreamDestroy_eq stream s :
  cuStreamDestroy stream s = Done (peek s) (log (EvStreamDestroy stream (peek s)) (pop s)).
Proof.
  unfold cuStreamDestroy. rewrite (bind_eq _ _ _ _ _ (ask_eq s)). reflexivity.
Qed.

(** With one area in the list, the value returned is the bitwise AND of the
    status of [cuStreamDestroy] and the status of [cuMemFreeHost]. *)
Lemma cuDestroyStream_status stream s a sa :
  head s = Some a -> areas s !! a = Some sa -> next sa = None ->
  value_of (cuDestroyStream stream s) = Some (Some (Z.land (peek s) (peek (pop s)))).
Proof.
  intros Hh Ha Hn. unfold cuDestroyStream.
  rewrite (bind_eq _ _ _ _ _ (cuStreamDestroy_eq stream s)).
  rewrite (bind_eq _ _ _ _ _ (free_queue_eq _)).
  set (s2 := set_queue [] _).
  assert (Hf : exists s3, free_staging_area_list s2 = Done (Some (peek (pop s))) s3).
  { unfold free_staging_area_list, bind at 1, get at 1.
    cbn [free_staging_area_list_loop].
    unfold bind at 1, get at 1. change (head s2) with (head s). rewrite Hh.
    rewrite (bind_eq _ _ _ _ _ (load_eq a sa s2 Ha)).
    rewrite (bind_eq _ _ _ _ _ (cuMemFreeHost_eq _ _)).
    unfold bind at 1, modify at 1. unfold bind at 1, free_area at 1.
    unfold bind at 1, get at 1, modify at 1.
    destruct (size (areas s2)); cbn [free_staging_area_list_loop];
      unfold bind at 1, get at 1; cbn [head set_head set_areas]; rewrite Hn;
      eexists; reflexivity. }
  destruct Hf as (s3 & Hf). rewrite (bind_eq _ _ _ _ _ Hf). reflexivity.
Qed.

(** C9.  [cuStreamDestroy] fails with CUDA_ERROR_INVALID_HANDLE and the one
    staging buffer is freed without error: the status returned is
    CUDA_SUCCESS.  The same when both calls fail, with the codes 1 and 2.  And
    when no area was ever allocated, the failure of [cuStreamDestroy] is
    combined with an uninitialised value. *)
Theorem destroy_status_masks_failure :
  value_of (cuDestroyStream 7 (after [read4] [0; 0; 0; CUDA_ERROR_INVALID_HANDLE; CUDA_SUCCESS]%Z))
    = Some (Some CUDA_SUCCESS) /\
  value_of (cuDestroyStream 7 (after [read4] [0; 0; 0; CUDA_ERROR_INVALID_VALUE;
                                               CUDA_ERROR_OUT_OF_MEMORY]%Z))
    = Some (Some CUDA_SUCCESS) /\
  value_of (cuDestroyStream 7 (demo [CUDA_ERROR_INVALID_HANDLE])) = Some None.
Proof. repeat split; vm_compute; reflexivity. Qed.

(** ** The element size in the blocking read *)


(** * The theorems at concrete inputs *)

Lemma growth_correct_witness :
  exists s' b' l,
    get_first_free_staging_area 8 (after [read4] []) = Done (Some 0) s' /\
    trace s' = trace (after [read4] []) ++
      [EvDequeue (Some 0);
       EvMemFreeHost (Some 200) CUDA_SUCCESS;
       EvMemAllocHost 8 CUDA_SUCCESS (Some b')] /\
    releases 200 (trace s') = S (releases 200 (trace (after [read4] []))) /\
    areas s' !! 0 = Some (mkArea None (Some b') 8) /\
    host s' !! b' = Some l /\
    (8 <= Z.of_nat (length l))%Z /\
    queue s' = [].
Proof.
  apply (growth_correct 8 (after [read4] []) 0 200 (mkArea None (Some 200) 4)).
  - vm_compute. reflexivity.
  - vm_compute. reflexivity.
  - reflexivity.
  - simpl. lia.
  - lia.
  - unfold driver_succeeds. vm_compute. constructor.
Defined.

Lemma no_double_use_witness :
  exists s held,
    pool_run [Acquire 4; Acquire 4; Release 0; Acquire 8] (demo [], []) = Some (s, held) /\
    NoDup held /\
    (forall r, r ∈ held -> Some r ∉ queue s) /\
    (forall n r s', get_first_free_staging_area n s = Done (Some r) s' ->
                    (r ∉ held) /\ (Some r ∉ queue s')).
Proof.
  eexists _, _. split; [vm_compute; reflexivity|].
  apply (no_double_use [Acquire 4; Acquire 4; Release 0; Acquire 8] (demo [])).
  - split; simpl; [constructor|]. intros x Hx. inversion Hx.
  - vm_compute. reflexivity.
Defined.

(** * Soundness of the pool *)

(** What an acquisition does to structs and buffers: it touches no struct
    but the one it hands out or creates, and no block but the buffer of the
    area at the front of the queue and the block it allocates. *)
Ltac fresh_area_concl :=
  intros ? [= <-]; eexists; split; [apply lookup_insert_eq|]; simpl;
  split; [lia|]; left; eexists; split; [reflexivity|];
  split; [apply lookup_insert_eq|]; rewrite length_replicate;
  split; [lia|reflexivity].

Lemma get_first_free_footprint n s r s' :
  get_first_free_staging_area n s = Done r s' ->
  next_block s <= next_block s' /\
  (forall a', a' < next_area s -> hd None (queue s) <> Some a' ->
              areas s' !! a' = areas s !! a') /\
  (forall b', b' < next_block s ->
              (forall a, hd None (queue s) = Some a -> buffer_of s a <> Some b') ->
              host s' !! b' = host s !! b') /\
  (forall a, r = Some a ->
     exists sa, areas s' !! a = Some sa /\ (n <= area_length sa)%Z /\
       ((exists l, staging_area sa = Some (next_block s) /\
                   host s' !! next_block s = Some l /\
                   (area_length sa <= Z.of_nat (length l))%Z /\
                   next_block s' = S (next_block s))
        \/ (hd None (queue s) = Some a /\ areas s !! a = Some sa /\
            host s' = host s /\ next_block s' = next_block s))).
Proof.
  intros H. pose proof (dequeue_eq s) as Hdq.
  assert (Hfresh : forall (m : gmap nat StagingAreaList) x y a',
            a' < next_area s ->
            <[next_area s := x]> (<[next_area s := y]> m) !! a' = m !! a').
  { intros m x y a' Hlt. rewrite !lookup_insert_ne by lia. reflexivity. }
  destruct (queue s) as [|list q'] eqn:Hq.
  - destruct (decide (peek s = CUDA_SUCCESS)) as [Hp|Hp].
    + rewrite (get_first_free_eq _ _ _ _ _ _ Hdq (check_create_ok n s Hp)) in H.
      injection H as <- <-. st_head_simpl. simpl.
      change (peek (st_malloc s)) with (peek s).
      destruct (decide (peek s = CUDA_SUCCESS)); [|contradiction].
      split; [lia|]. split; [intros; apply Hfresh; assumption|].
      split; [intros b' Hb _; apply lookup_insert_ne; lia|].
      fresh_area_concl.
    + rewrite (get_first_free_eq _ _ _ _ _ _ Hdq (check_create_fail n s Hp)) in H.
      injection H as <- <-. st_head_simpl. simpl.
      change (peek (st_malloc s)) with (peek s).
      destruct (decide (peek s = CUDA_SUCCESS)); [contradiction|].
      split; [lia|]. split; [intros; apply lookup_insert_ne; lia|].
      split; [reflexivity|]. discriminate.
  - set (s1 := log (EvDequeue list) (set_queue q' s)) in *.
    destruct list as [a|].
    + destruct (areas s !! a) as [sa|] eqn:Ha.
      2:{ rewrite (get_first_free_fault _ _ _ _ _ Hdq (check_dangling n a s1 Ha)) in H.
          discriminate. }
      assert (Hother : forall a', Some a <> Some a' ->
                <[a := mkArea (next sa) (Some (next_block s)) n]> (areas s) !! a'
                = areas s !! a').
      { intros a' Hne. apply lookup_insert_ne. congruence. }
      assert (Hbuf : forall b', (forall a0, Some a = Some a0 -> buffer_of s a0 <> Some b') ->
                match staging_area sa with
                | Some b => delete b (host s)
                | None => host s
                end !! b' = host s !! b').
      { intros b' Hb. destruct (staging_area sa) as [b|] eqn:Hsb; [|reflexivity].
        apply lookup_delete_ne. intros ->. apply (Hb a eq_refl).
        unfold buffer_of. rewrite Ha. exact Hsb. }
      destruct (decide (area_length sa < n)%Z) as [Hlt|Hge].
      * destruct (decide (peek s = CUDA_SUCCESS)) as [Hp|Hp].
        -- destruct (decide (peek (pop s) = CUDA_SUCCESS)) as [Hp2|Hp2].
           ++ rewrite (get_first_free_eq _ _ _ _ _ _ Hdq
                         (check_grow_ok n a sa s1 Ha Hlt Hp Hp2)) in H.
              injection H as <- <-. st_head_simpl. simpl.
              rewrite peek_st_free. change (peek (pop s1)) with (peek (pop s)).
              change (peek s1) with (peek s).
              destruct (decide (peek (pop s) = CUDA_SUCCESS)); [|contradiction].
              destruct (decide (peek s = CUDA_SUCCESS)); [|contradiction].
              split; [lia|]. split; [intros a' _; apply Hother|].
              split.
              { intros b' Hlt' Hb. rewrite lookup_insert_ne by lia. apply Hbuf, Hb. }
              fresh_area_concl.
           ++ rewrite (get_first_free_eq _ _ _ _ _ _ Hdq
                         (check_grow_alloc_fail n a sa s1 Ha Hlt Hp Hp2)) in H.
              injection H as <- <-. st_head_simpl. simpl.
              rewrite peek_st_free. change (peek (pop s1)) with (peek (pop s)).
              change (peek s1) with (peek s).
              destruct (decide (peek (pop s) = CUDA_SUCCESS)); [contradiction|].
              destruct (decide (peek s = CUDA_SUCCESS)); [|contradiction].
              split; [lia|]. split; [reflexivity|].
              split; [intros b' _ Hb; apply Hbuf, Hb|]. discriminate.
        -- rewrite (get_first_free_eq _ _ _ _ _ _ Hdq
                      (check_grow_free_fail n a sa s1 Ha Hlt Hp)) in H.
           injection H as <- <-. st_head_simpl. simpl.
           change (peek s1) with (peek s).
           destruct (decide (peek s = CUDA_SUCCESS)); [contradiction|].
           split; [lia|]. split; [reflexivity|]. split; [reflexivity|]. discriminate.
      * rewrite (get_first_free_eq _ _ _ _ _ _ Hdq (check_reuse n a sa s1 Ha Hge)) in H.
        injection H as <- <-. st_head_simpl. simpl.
        split; [lia|]. split; [reflexivity|]. split; [reflexivity|].
        intros a0 [= <-]. exists sa. split; [assumption|]. split; [lia|].
        right. auto.
    + destruct (decide (peek s = CUDA_SUCCESS)) as [Hp|Hp].
      * rewrite (get_first_free_eq _ _ _ _ _ _ Hdq (check_create_ok n s1 Hp)) in H.
        injection H as <- <-. st_head_simpl. simpl.
        change (peek (st_malloc s1)) with (peek s).
        destruct (decide (peek s = CUDA_SUCCESS)); [|contradiction].
        split; [lia|]. split; [intros; apply Hfresh; assumption|].
        split; [intros b' Hb _; apply lookup_insert_ne; lia|].
        fresh_area_concl.
      * rewrite (get_first_free_eq _ _ _ _ _ _ Hdq (check_create_fail n s1 Hp)) in H.
        injection H as <- <-. st_head_simpl. simpl.
        change (peek (st_malloc s1)) with (peek s).
        destruct (decide (peek s = CUDA_SUCCESS)); [contradiction|].
        split; [lia|]. split; [intros; apply lookup_insert_ne; lia|].
        split; [reflexivity|]. discriminate.
Qed.

Lemma area_ok_frame s s' a :
  areas s' !! a = areas s !! a ->
  (forall b, buffer_of s a = Some b -> host s' !! b = host s !! b) ->
  next_block s <= next_block s' ->
  area_ok s a -> area_ok s' a.
Proof.
  intros Ha Hh Hn (sa & b & l & H1 & H2 & H3 & H4 & H5).
  exists sa, b, l. rewrite Ha, Hh; [|unfold buffer_of; rewrite H1; exact H2].
  repeat split; auto. lia.
Qed.

Lemma buffer_of_lt s a b : area_ok s a -> buffer_of s a = Some b -> b < next_block s.
Proof.
  intros (sa & b' & l & H1 & H2 & _ & _ & H5). unfold buffer_of. rewrite H1. simpl.
  rewrite H2. intros [= <-]. assumption.
Qed.

Lemma pool_step_sound o s held s' held' :
  pool_sound s held -> pool_step o (s, held) = Some (s', held') -> pool_sound s' held'.
Proof.
  intros (Hinv & Hok & Hdist) Hstep.
  split; [eapply pool_step_inv; eassumption|].
  pose proof Hinv as [Hnd Hb].
  destruct o as [n|r]; simpl in Hstep.
  - destruct (get_first_free_staging_area n s) as [r s1| |] eqn:Hg; try discriminate.
    pose proof (get_first_free_footprint _ _ _ _ Hg) as (Hnb & Har & Hho & Hnew).
    pose proof (get_first_free_inv _ _ _ _ Hg) as [Hq' _ _ _ _ _ _ Horigin _ _].
    (* the areas that stay free or held are as they were *)
    assert (Hrest : forall x, Some x ∈ tl (queue s) ++ (Some <$> held) ->
              Some x ∈ queue s ++ (Some <$> held) /\
              areas s1 !! x = areas s !! x /\
              (forall b, buffer_of s x = Some b -> host s1 !! b = host s !! b)).
    { intros x Hx.
      assert (Hin : Some x ∈ queue s ++ (Some <$> held)).
      { destruct (queue s); [assumption|]. simpl in *. right. assumption. }
      assert (Hfront : hd None (queue s) <> Some x).
      { destruct (queue s) as [|y q']; [discriminate|]. simpl in *.
        intros ->. apply NoDup_cons in Hnd as [Hnot _]. contradiction. }
      split; [assumption|].
      destruct (Hb _ Hin) as (x' & [= <-] & Hlt).
      split; [apply Har; assumption|].
      intros b Hbuf. apply Hho.
      - eapply buffer_of_lt; [apply Hok, Hin|exact Hbuf].
      - intros a Hhd Hbufa. apply Hfront. rewrite Hhd. f_equal.
        apply (Hdist a x b); try assumption.
        destruct (queue s) as [|y q']; [discriminate|]. simpl in Hhd. subst y. left. }
    assert (Hbuf_rest : forall x, Some x ∈ tl (queue s) ++ (Some <$> held) ->
              buffer_of s1 x = buffer_of s x).
    { intros x Hx. unfold buffer_of. destruct (Hrest x Hx) as (_ & -> & _). reflexivity. }
    assert (Hok_rest : forall x, Some x ∈ tl (queue s) ++ (Some <$> held) -> area_ok s1 x).
    { intros x Hx. destruct (Hrest x Hx) as (Hin & Ha & Hh).
      eapply area_ok_frame; eauto. }
    destruct r as [r|]; injection Hstep as <- <-; rewrite Hq'.
    + (* an area was handed out *)
      destruct (Hnew r eq_refl) as (sa & Hsa & _ & Hcase).
      assert (Hmem : forall x, Some x ∈ tl (queue s) ++ (Some <$> r :: held) ->
                x = r \/ Some x ∈ tl (queue s) ++ (Some <$> held)).
      { intros x. rewrite fmap_cons, !elem_of_app, elem_of_cons.
        intros [H|[[= ->]|H]]; auto. }
      assert (Hr_ok : area_ok s1 r /\
                forall b, buffer_of s1 r = Some b ->
                  next_block s <= b \/
                  Some r ∈ queue s ++ (Some <$> held) /\ buffer_of s r = Some b).
      { destruct Hcase as [(l & Hst & Hl & Hlen & Hnb')|(Hhd & Hsa0 & Hhost & Hnb')].
        - split.
          + exists sa, (next_block s), l. repeat split; auto. lia.
          + intros b. unfold buffer_of. rewrite Hsa. simpl. rewrite Hst.
            intros [= <-]. left. lia.
        - assert (Hin : Some r ∈ queue s ++ (Some <$> held)).
          { destruct (queue s) as [|y q']; [discriminate|]. simpl in Hhd. subst y. left. }
          split.
          + apply (area_ok_frame s); [congruence|intros; rewrite Hhost; reflexivity|lia|].
            apply Hok, Hin.
          + intros b Hbuf. right. split; [assumption|].
            unfold buffer_of in *. rewrite Hsa in Hbuf. rewrite Hsa0. exact Hbuf. }
      destruct Hr_ok as [Hr_ok Hr_buf].
      split.
      * intros x Hx. apply Hmem in Hx as [->|Hx]; auto.
      * intros x y b Hx Hy Hbx Hby.
        apply Hmem in Hx as [->|Hx]; apply Hmem in Hy as [->|Hy]; try reflexivity.
        -- rewrite Hbuf_rest in Hby by assumption.
           destruct (Hrest y Hy) as (Hiny & _).
           destruct (Hr_buf b Hbx) as [Hge|[Hinr Hbr]].
           ++ pose proof (buffer_of_lt s y b (Hok y Hiny) Hby). lia.
           ++ apply (Hdist r y b); assumption.
        -- rewrite Hbuf_rest in Hbx by assumption.
           destruct (Hrest x Hx) as (Hinx & _).
           destruct (Hr_buf b Hby) as [Hge|[Hinr Hbr]].
           ++ pose proof (buffer_of_lt s x b (Hok x Hinx) Hbx). lia.
           ++ apply (Hdist x r b); assumption.
        -- rewrite Hbuf_rest in Hbx, Hby by assumption.
           apply (Hdist x y b); try assumption; apply Hrest; assumption.
    + (* the driver refused *)
      split.
      * intros x Hx. apply Hok_rest, Hx.
      * intros x y b Hx Hy Hbx Hby.
        rewrite Hbuf_rest in Hbx, Hby by assumption.
        apply (Hdist x y b); try assumption; apply Hrest; assumption.
  - destruct (decide (r ∈ held)) as [Hin|]; [|discriminate].
    unfold set_to_unused in Hstep. rewrite enqueue_eq in Hstep.
    injection Hstep as <- <-.
    assert (Hh : NoDup held).
    { apply NoDup_app in Hnd as (_ & _ & Hnd).
      eapply NoDup_fmap; [|exact Hnd]. intros ?? [=]. assumption. }
    assert (Hperm : (queue s ++ [Some r]) ++ (Some <$> filter (fun x => x <> r) held)
                    ≡ₚ queue s ++ (Some <$> held)).
    { rewrite <- app_assoc. apply Permutation_app_head. simpl.
      rewrite (held_split r held Hh Hin) at 2. reflexivity. }
    cbn [queue log set_queue]. split.
    + intros x Hx. rewrite Hperm in Hx. apply Hok in Hx. exact Hx.
    + intros x y b Hx Hy. rewrite Hperm in Hx, Hy. apply Hdist; assumption.
Qed.

Lemma pool_run_sound ops s held s' held' :
  pool_sound s held -> pool_run ops (s, held) = Some (s', held') -> pool_sound s' held'.
Proof.
  revert s held. induction ops as [|o ops IH]; intros s held Hs Hrun; simpl in Hrun.
  - injection Hrun as <- <-. assumption.
  - destruct (pool_step o (s, held)) as [[s1 held1]|] eqn:Hstep; [|discriminate].
    eapply IH; [|exact Hrun]. eapply pool_step_sound; eassumption.
Qed.

Lemma pool_sound_initial jheap nb o : pool_sound (initial jheap nb o) [].
Proof.
  split; [split; [constructor|intros x Hx; inversion Hx]|].
  split; [intros a Ha; inversion Ha|intros a a' b Ha; inversion Ha].
Qed.

(** X5.  Whatever the driver answers, a sequence of acquisitions and
    matching releases keeps the pool sound: every free or held area has a
    live buffer at least as long as its recorded length, and no two of them
    share a buffer. *)
Theorem pool_stays_sound (ops : list pool_op) (s0 s : State) (held : list nat) :
  pool_sound s0 [] ->
  pool_run ops (s0, []) = Some (s, held) ->
  (forall a, a ∈ held \/ Some a ∈ queue s -> area_ok s a) /\
  (forall a a' b, a ∈ held \/ Some a ∈ queue s ->
                  a' ∈ held \/ Some a' ∈ queue s ->
                  buffer_of s a = Some b -> buffer_of s a' = Some b -> a = a').
Proof.
  intros H0 Hrun. destruct (pool_run_sound _ _ _ _ _ H0 Hrun) as (_ & Hok & Hdist).
  assert (Hin : forall a, a ∈ held \/ Some a ∈ queue s ->
                          Some a ∈ queue s ++ (Some <$> held)).
  { intros a [Ha|Ha]; apply elem_of_app; [right|left; assumption].
    apply list_elem_of_fmap_2, Ha. }
  split.
  - intros a Ha. apply Hok, Hin, Ha.
  - intros a a' b Ha Ha'. apply Hdist; apply Hin; assumption.
Qed.

(** X6.  After any such sequence, the area an acquisition of [n] bytes hands
    out has a recorded length of at least [n] and a live buffer at least as
    long as that: a transfer of [n] bytes fits the staging buffer. *)
Theorem handed_out_buffer_fits
    (ops : list pool_op) (s0 s : State) (held : list nat)
    (n : Z) (r : nat) (s' : State) :
  pool_sound s0 [] ->
  pool_run ops (s0, []) = Some (s, held) ->
  get_first_free_staging_area n s = Done (Some r) s' ->
  exists sa b l,
    areas s' !! r = Some sa /\ staging_area sa = Some b /\ host s' !! b = Some l /\
    (n <= area_length sa <= Z.of_nat (length l))%Z.
Proof.
  intros H0 Hrun Hg.
  pose proof (pool_run_sound _ _ _ _ _ H0 Hrun) as Hs.
  assert (Hstep : pool_step (Acquire n) (s, held) = Some (s', r :: held)).
  { simpl. rewrite Hg. reflexivity. }
  destruct (pool_step_sound _ _ _ _ _ Hs Hstep) as (_ & Hok & _).
  destruct (Hok r) as (sa & b & l & Hsa & Hb & Hl & Hlen & _).
  { apply elem_of_app. right. rewrite fmap_cons. left. }
  destruct (get_first_free_footprint _ _ _ _ Hg) as (_ & _ & _ & Hnew).
  destruct (Hnew r eq_refl) as (sa' & Hsa' & Hn & _).
  rewrite Hsa in Hsa'. injection Hsa' as <-.
  exists sa, b, l. repeat split; auto.
Qed.

(** X7.  With a driver that carries out its next two calls, and a front
    area (if any) whose struct has not been freed, an acquisition never
    returns [NULL]. *)
Theorem acquisition_succeeds (n : Z) (s : State) :
  driver_succeeds 2 s ->
  (forall a, hd None (queue s) = Some a -> is_Some (areas s !! a)) ->
  exists a s', get_first_free_staging_area n s = Done (Some a) s'.
Proof.
  intros Hd Hfront.
  apply driver_succeeds_S in Hd as [Hp1 Hd].
  apply driver_succeeds_S in Hd as [Hp2 _].
  pose proof (dequeue_eq s) as Hdq.
  destruct (queue s) as [|list q'] eqn:Hq.
  - eexists _, _.
    apply (get_first_free_eq _ _ _ _ _ _ Hdq (check_create_ok n s Hp1)).
  - set (s1 := log (EvDequeue list) (set_queue q' s)) in *.
    destruct list as [a|].
    + destruct (Hfront a eq_refl) as [sa Ha].
      destruct (decide (area_length sa < n)%Z) as [Hlt|Hge].
      * eexists _, _.
        apply (get_first_free_eq _ _ _ _ _ _ Hdq (check_grow_ok n a sa s1 Ha Hlt Hp1 Hp2)).
      * eexists _, _.
        apply (get_first_free_eq _ _ _ _ _ _ Hdq (check_reuse n a sa s1 Ha Hge)).
    + eexists _, _.
      apply (get_first_free_eq _ _ _ _ _ _ Hdq (check_create_ok n s1 Hp1)).
Qed.

(** The last thing a failed acquisition logged is the refusal. *)
Lemma get_first_free_None_trace (n : Z) (s s' : State) :
  get_first_free_staging_area n s = Done None s' ->
  exists t e, trace s' = trace s ++ t ++ [e] /\ refused e.
Proof.
  intros H.
  pose proof (dequeue_eq s) as Hdq.
  destruct (queue s) as [|list q'] eqn:Hq.
  - destruct (decide (peek s = CUDA_SUCCESS)) as [Hp|Hp].
    + rewrite (get_first_free_eq _ _ _ _ _ _ Hdq (check_create_ok n s Hp)) in H.
      discriminate.
    + rewrite (get_first_free_eq _ _ _ _ _ _ Hdq (check_create_fail n s Hp)) in H.
      injection H as <-. st_head_simpl. exists [], (EvMemAllocHost n (peek s) (alloc_ptr (st_malloc s))).
      split; [reflexivity|exact Hp].
  - set (s1 := log (EvDequeue list) (set_queue q' s)) in *.
    destruct list as [a|].
    + destruct (areas s !! a) as [sa|] eqn:Ha.
      2:{ rewrite (get_first_free_fault _ _ _ _ _ Hdq (check_dangling n a s1 Ha)) in H.
          discriminate. }
      destruct (decide (area_length sa < n)%Z) as [Hlt|Hge].
      * destruct (decide (peek s = CUDA_SUCCESS)) as [Hp|Hp].
        -- destruct (decide (peek (pop s) = CUDA_SUCCESS)) as [Hp2|Hp2].
           ++ rewrite (get_first_free_eq _ _ _ _ _ _ Hdq
                         (check_grow_ok n a sa s1 Ha Hlt Hp Hp2)) in H.
              discriminate.
           ++ rewrite (get_first_free_eq _ _ _ _ _ _ Hdq
                         (check_grow_alloc_fail n a sa s1 Ha Hlt Hp Hp2)) in H.
              injection H as <-. st_head_simpl.
              eexists [_; _], _. split; [simpl; rewrite <- !app_assoc; reflexivity|].
              exact Hp2.
        -- rewrite (get_first_free_eq _ _ _ _ _ _ Hdq
                      (check_grow_free_fail n a sa s1 Ha Hlt Hp)) in H.
           injection H as <-. st_head_simpl.
           eexists [_], _. split; [simpl; rewrite <- !app_assoc; reflexivity|].
           exact Hp.
      * rewrite (get_first_free_eq _ _ _ _ _ _ Hdq (check_reuse n a sa s1 Ha Hge)) in H.
        discriminate.
    + destruct (decide (peek s = CUDA_SUCCESS)) as [Hp|Hp].
      * rewrite (get_first_free_eq _ _ _ _ _ _ Hdq (check_create_ok n s1 Hp)) in H.
        discriminate.
      * rewrite (get_first_free_eq _ _ _ _ _ _ Hdq (check_create_fail n s1 Hp)) in H.
        injection H as <-. st_head_simpl.
        eexists [_], _. split; [simpl; rewrite <- !app_assoc; reflexivity|].
        exact Hp.
Qed.

(** X8.  An acquisition returns [NULL] only right after a driver call that
    reported a failure: that call is the last thing it logged.  The area it
    took from the queue is not put back. *)
Theorem acquisition_fails_only_on_refusal (n : Z) (s s' : State) :
  get_first_free_staging_area n s = Done None s' ->
  queue s' = tl (queue s) /\
  exists t e, trace s' = trace s ++ t ++ [e] /\ refused e.
Proof.
  intros H. split.
  - apply (acq_queue _ _ _ _ (get_first_free_inv _ _ _ _ H)).
  - eapply get_first_free_None_trace, H.
Qed.

(** X9.  An area at the front of the queue that is long enough is handed
    out as it is: no driver call is made, nothing is logged but the dequeue,
    and the area keeps its buffer and its length, also when that is more than
    was asked for. *)
Theorem acquisition_reuses (n : Z) (s : State) (a : nat) (sa : StagingAreaList) :
  hd None (queue s) = Some a ->
  areas s !! a = Some sa ->
  (n <= area_length sa)%Z ->
  exists s',
    get_first_free_staging_area n s = Done (Some a) s' /\
    trace s' = trace s ++ [EvDequeue (Some a)] /\
    oracle s' = oracle s /\ areas s' = areas s /\ host s' = host s /\
    queue s' = tl (queue s).
Proof.
  intros Hhd Ha Hn. pose proof (dequeue_eq s) as Hdq.
  destruct (queue s) as [|x q'] eqn:Hq; [discriminate|]. simpl in Hhd. subst x.
  eexists. split.
  - eapply get_first_free_eq; [exact Hdq|].
    apply (check_reuse n a sa); [exact Ha|lia].
  - st_head_simpl. repeat split.
Qed.

(** * Teardown *)

Lemma registry_from_chain fuel m p l :
  registry_from fuel m p = Some l -> area_chain m p l.
Proof.
  revert p l. induction fuel as [|fuel IH]; intros p l H; simpl in H.
  - destruct p; [discriminate|]. injection H as <-. reflexivity.
  - destruct p as [a|]; [|injection H as <-; reflexivity].
    destruct (m !! a) as [sa|] eqn:Ha; [|discriminate].
    destruct (registry_from fuel m (next sa)) as [l'|] eqn:Hr; [|discriminate].
    simpl in H. injection H as <-. simpl. split; [reflexivity|].
    exists sa. split; [assumption|]. apply IH, Hr.
Qed.

Lemma area_chain_delete m p l a :
  area_chain m p l -> a ∉ l -> area_chain (delete a m) p l.
Proof.
  revert p. induction l as [|b l IH]; intros p Hc Hn; simpl in *; [assumption|].
  apply not_elem_of_cons in Hn as [Hne Hn].
  destruct Hc as (-> & sa & Hb & Hc). split; [reflexivity|].
  exists sa. split; [|apply IH; assumption].
  rewrite lookup_delete_ne by congruence. assumption.
Qed.

Lemma area_chain_live m p l a : area_chain m p l -> a ∈ l -> is_Some (m !! a).
Proof.
  revert p. induction l as [|b l IH]; intros p Hc Hin; [inversion Hin|].
  simpl in Hc. destruct Hc as (-> & sa & Hb & Hc).
  apply elem_of_cons in Hin as [->|Hin]; eauto.
Qed.

Lemma freed_ptrs_app t1 t2 : freed_ptrs (t1 ++ t2) = freed_ptrs t1 ++ freed_ptrs t2.
Proof. unfold freed_ptrs. apply omap_app. Qed.

(** The loop of [free_staging_area_list] on a list without repetition: it
    returns, having passed the buffer of each struct to [cuMemFreeHost] and
    freed the struct, in list order. *)
Lemma free_staging_area_list_loop_chain l : forall fuel result s,
  area_chain (areas s) (head s) l -> NoDup l -> length l <= fuel ->
  exists res s',
    free_staging_area_list_loop fuel result s = Done res s' /\
    head s' = None /\ queue s' = queue s /\
    (forall x, areas s' !! x = if decide (x ∈ l) then None else areas s !! x) /\
    freed_ptrs (trace s') = freed_ptrs (trace s) ++ (buffer_of s <$> l) /\
    (l = [] -> res = result) /\ (l <> [] -> is_Some res).
Proof.
  induction l as [|a l IH]; intros fuel result s Hc Hnd Hlen.
  - simpl in Hc. exists result, s.
    assert (Hrun : free_staging_area_list_loop fuel result s = Done result s).
    { destruct fuel; cbn [free_staging_area_list_loop];
        unfold bind at 1, get at 1; rewrite Hc; reflexivity. }
    split; [exact Hrun|]. split; [assumption|]. split; [reflexivity|].
    split; [intros x; reflexivity|]. split; [simpl; rewrite app_nil_r; reflexivity|].
    split; [reflexivity|contradiction].
  - simpl in Hc. destruct Hc as (Hh & sa & Ha & Hc).
    apply NoDup_cons in Hnd as [Hal Hnd].
    destruct fuel as [|fuel]; [simpl in Hlen; lia|]. simpl in Hlen.
    cbn [free_staging_area_list_loop]. unfold bind at 1, get at 1. rewrite Hh.
    rewrite (bind_eq _ _ _ _ _ (load_eq a sa s Ha)).
    rewrite (bind_eq _ _ _ _ _ (cuMemFreeHost_eq _ _)).
    unfold bind at 1, modify at 1. unfold bind at 1, free_area at 1.
    unfold bind at 1, get at 1, modify at 1.
    match goal with |- context [free_staging_area_list_loop fuel ?r ?x] =>
      set (s2 := x) end.
    destruct (IH fuel (Some (peek s)) s2) as (res & s' & Hrun & H1 & H2 & H3 & H4 & _ & _).
    { subst s2. cbn [areas head set_areas set_head]. 
      change (areas (st_free (staging_area sa) s)) with (areas s).
      apply area_chain_delete; assumption. }
    { assumption. }
    { lia. }
    exists res, s'. split; [exact Hrun|]. split; [assumption|].
    split; [rewrite H2; reflexivity|].
    split.
    { intros x. rewrite H3. subst s2. cbn [areas set_areas set_head].
      change (areas (st_free (staging_area sa) s)) with (areas s).
      destruct (decide (x ∈ l)) as [Hin|Hnin];
        destruct (decide (x ∈ a :: l)) as [Hin'|Hnin']; try reflexivity.
      - exfalso. apply Hnin'. right. assumption.
      - apply elem_of_cons in Hin' as [->|?]; [apply lookup_delete_eq|contradiction].
      - apply lookup_delete_ne. intros ->. apply Hnin'. left. }
    split.
    { rewrite H4. subst s2. cbn [trace set_areas set_head st_free set_host log].
      change (trace (pop s)) with (trace s).
      rewrite freed_ptrs_app. simpl. rewrite <- app_assoc. f_equal. simpl.
      f_equal.
      - unfold buffer_of. rewrite Ha. reflexivity.
      - apply list_fmap_ext. intros i x Hx. unfold buffer_of. simpl.
        change (areas (st_free (staging_area sa) s)) with (areas s).
        rewrite lookup_delete_ne; [reflexivity|].
        intros ->. apply Hal. eapply list_elem_of_lookup_2, Hx. }
    split; [discriminate|]. intros _.
    destruct l as [|b l].
    + destruct (IH fuel (Some (peek s)) s2) as (res' & s'' & Hrun' & _ & _ & _ & _ & Hres & _).
      { subst s2. cbn [areas head set_areas set_head].
        change (areas (st_free (staging_area sa) s)) with (areas s).
        apply area_chain_delete; assumption. }
      { assumption. } { simpl. lia. }
      rewrite Hrun in Hrun'. injection Hrun' as -> ->. rewrite Hres by reflexivity. eauto.
    + destruct (IH fuel (Some (peek s)) s2) as (res' & s'' & Hrun' & _ & _ & _ & _ & _ & Hres).
      { subst s2. cbn [areas head set_areas set_head].
        change (areas (st_free (staging_area sa) s)) with (areas s).
        apply area_chain_delete; assumption. }
      { assumption. } { lia. }
      rewrite Hrun in Hrun'. injection Hrun' as -> ->. apply Hres. discriminate.
Qed.

Lemma area_chain_length_le_size (m : gmap nat StagingAreaList) p l :
  NoDup l -> area_chain m p l -> length l <= size m.
Proof.
  intros Hnd Hc.
  rewrite <- (size_list_to_set (C := gset nat) l) by assumption.
  rewrite <- size_dom. apply subseteq_size.
  intros x Hx. apply elem_of_list_to_set in Hx.
  apply elem_of_dom. eapply area_chain_live; eassumption.
Qed.

(** [free_staging_area_list] on a list that ends and has no repetition. *)
Lemma free_staging_area_list_chain (s : State) (l : list nat) :
  area_chain (areas s) (head s) l ->
  NoDup l ->
  exists res s',
    free_staging_area_list s = Done res s' /\
    head s' = None /\ queue s' = queue s /\
    (forall x, areas s' !! x = if decide (x ∈ l) then None else areas s !! x) /\
    freed_ptrs (trace s') = freed_ptrs (trace s) ++ (buffer_of s <$> l) /\
    (is_Some res <-> l <> []).
Proof.
  intros Hc Hnd.
  destruct (free_staging_area_list_loop_chain l (S (size (areas s))) None s)
    as (res & s' & Hrun & H1 & H2 & H3 & H4 & H5 & H6).
  { exact Hc. } { exact Hnd. }
  { pose proof (area_chain_length_le_size (areas s) (head s) l Hnd Hc). lia. }
  exists res, s'. split.
  { unfold free_staging_area_list, bind at 1, get at 1. exact Hrun. }
  split; [exact H1|]. split; [exact H2|]. split; [exact H3|]. split; [exact H4|].
  destruct l as [|a l].
  - rewrite H5 by reflexivity. split; [intros [x Hx]; discriminate|contradiction].
  - split; [discriminate|]. intros _. apply H6. discriminate.
Qed.

(** X10.  When the list that starts at [head] ends and has no repetition,
    [cuDestroyStream] returns; the free queue and the list are empty
    afterwards; every struct of the list has been freed; and the buffers of
    its structs, and nothing else, were passed to [cuMemFreeHost], once each
    and in list order.  The status returned is defined exactly when the
    list was not empty. *)
Theorem destroy_frees_the_list (stream : Z) (s : State) (l : list nat) :
  registry s = Some l ->
  NoDup l ->
  exists r s',
    cuDestroyStream stream s = Done r s' /\
    queue s' = [] /\ head s' = None /\
    (forall a, a ∈ l -> areas s' !! a = None) /\
    freed_ptrs (trace s') = freed_ptrs (trace s) ++ (buffer_of s <$> l) /\
    (is_Some r <-> l <> []).
Proof.
  intros Hreg Hnd. apply registry_from_chain in Hreg.
  unfold cuDestroyStream.
  rewrite (bind_eq _ _ _ _ _ (cuStreamDestroy_eq stream s)).
  rewrite (bind_eq _ _ _ _ _ (free_queue_eq _)).
  set (s2 := set_queue [] _).
  destruct (free_staging_area_list_chain s2 l Hreg Hnd)
    as (res & s' & Hf & H1 & H2 & H3 & H4 & H5).
  rewrite (bind_eq _ _ _ _ _ Hf).
  eexists _, s'. split; [reflexivity|].
  split; [rewrite H2; reflexivity|]. split; [assumption|].
  split.
  { intros a Ha. rewrite H3. destruct (decide (a ∈ l)); [reflexivity|contradiction]. }
  split.
  { rewrite H4. subst s2. cbn [trace set_queue log]. change (trace (pop s)) with (trace s).
    rewrite freed_ptrs_app. simpl. rewrite app_nil_r. reflexivity. }
  rewrite <- H5. destruct res; split; intros [x Hx]; try discriminate; eauto.
Qed.


(** * A failed acquisition in a transfer *)

(** X11.  When the acquisition returns [NULL], the blocking device-to-host
    transfer and both host-to-device transfers go on to dereference it: each
    faults, before any copy was issued. *)
Theorem failed_acquisition_faults
    (d len : Z) (array : nat) (off st ty : Z) (s s1 : State) :
  get_first_free_staging_area (to_size_t len) s = Done None s1 ->
  transferFromDeviceToHostBlock d len array off st ty s =
    Fault (st_record (next_event s1) st (set_next_event (S (S (next_event s1))) s1)) /\
  forall blocking, transferFromHostToDevice blocking d len array off st ty s = Fault s1.
Proof.
  intros Hacq. split.
  - unfold transferFromDeviceToHostBlock.
    rewrite (bind_eq _ _ _ _ _ Hacq).
    rewrite (bind_eq _ _ _ _ _ (record_events_create_eq _)).
    unfold record_event_begin. cbn [fst snd].
    rewrite (bind_eq _ _ _ _ _ (cuEventRecord_eq _ _ _)).
    reflexivity.
  - intros blocking.
    assert (H : transferFromHostToDeviceBlocking d len array off st ty s = Fault s1).
    { unfold transferFromHostToDeviceBlocking.
      rewrite (bind_eq _ _ _ _ _ Hacq). reflexivity. }
    destruct blocking; exact H.
Qed.

(** * Waiting for a stream *)

Lemma complete_op_queue stream op s :
  queue (complete_op stream op s) = queue s ++ callbacks [(stream, op)] /\
  next_area (complete_op stream op s) = next_area s.
Proof.
  destruct op as [b off src n|dst b n|userData]; simpl.
  - destruct (host s !! b); [destruct (decide _)|]; rewrite app_nil_r; auto.
  - destruct (host s !! b); [destruct (decide _)|]; rewrite app_nil_r; auto.
  - unfold set_to_unused. rewrite enqueue_eq. auto.
Qed.

Lemma callbacks_app ops1 ops2 : callbacks (ops1 ++ ops2) = callbacks ops1 ++ callbacks ops2.
Proof. apply omap_app. Qed.

Lemma complete_stream_spec stream ops : forall s,
  (complete_stream stream ops s).1 = off_stream stream ops /\
  queue (complete_stream stream ops s).2 = queue s ++ callbacks (on_stream stream ops) /\
  next_area (complete_stream stream ops s).2 = next_area s.
Proof.
  unfold off_stream, on_stream.
  induction ops as [|[st op] ops IH]; intros s; simpl.
  - rewrite app_nil_r. auto.
  - rewrite !filter_cons. simpl. destruct (decide (st = stream)) as [->|Hne].
    + destruct (decide (stream <> stream)); [contradiction|].
      destruct (IH (complete_op stream op s)) as (H1 & H2 & H3).
      destruct (complete_op_queue stream op s) as [Hq Hn].
      rewrite H1, H2, H3, Hq, Hn, <- app_assoc.
      change ((stream, op) :: filter (fun x => x.1 = stream) ops)
        with ([(stream, op)] ++ filter (fun x => x.1 = stream) ops).
      rewrite callbacks_app. auto.
    + destruct (decide (st <> stream)); [|contradiction].
      destruct (IH s) as (H1 & H2 & H3). simpl. rewrite H1, H2, H3. auto.
Qed.

Lemma cuStreamSynchronize_eq stream s :
  cuStreamSynchronize stream s =
  Done (peek s) (if decide (peek s = CUDA_SUCCESS) then st_complete stream (pop s) else pop s).
Proof.
  unfold cuStreamSynchronize. rewrite (bind_eq _ _ _ _ _ (ask_eq s)).
  destruct (decide (peek s = CUDA_SUCCESS)); reflexivity.
Qed.

(** X12.  [cuStreamSynchronize]: when the driver reports success, every area
    whose callback was queued on the stream is back in the free queue, behind
    those already there, once each and in the order of registration; nothing
    is left queued on the stream and the work of other streams is still
    queued.  When the driver reports a failure nothing has moved.  Either way
    the driver's status is what is returned. *)
Theorem synchronize_releases_in_flight (stream : Z) (s : State) :
  exists s',
    PTXStream_cuStreamSynchronize stream s = Done (peek s) s' /\
    head s' = head s /\ areas s' = areas s /\
    if decide (peek s = CUDA_SUCCESS)
    then queue s' = queue s ++ callbacks (on_stream stream (pending s)) /\
         pending s' = off_stream stream (pending s)
    else queue s' = queue s /\ pending s' = pending s.
Proof.
  unfold PTXStream_cuStreamSynchronize.
  rewrite (bind_eq _ _ _ _ _ (cuStreamSynchronize_eq stream s)).
  eexists. split; [reflexivity|].
  destruct (decide (peek s = CUDA_SUCCESS)) as [Hp|Hp].
  - destruct (st_complete_progressed stream (pop s)) as (Hh & Ha & _).
    destruct (complete_stream_spec stream (pending (pop s)) (pop s)) as (H1 & H2 & _).
    split; [exact Hh|]. split; [exact Ha|].
    split; [exact H2|exact H1].
  - auto.
Qed.

(** * Host to device: the release is left to the stream callback *)

(** The area an acquisition hands out is a live struct. *)
Lemma acquired_live n s region s1 :
  get_first_free_staging_area n s = Done (Some region) s1 ->
  exists sa, areas s1 !! region = Some sa /\ buffer_of s1 region = staging_area sa.
Proof.
  intros Hacq.
  destruct (get_first_free_footprint _ _ _ _ Hacq) as (_ & _ & _ & Hlive).
  destruct (Hlive region eq_refl) as (sa & Hsa & _).
  exists sa. split; [exact Hsa|]. unfold buffer_of. rewrite Hsa. reflexivity.
Qed.

(** The area an acquisition hands out has left the free queue. *)
Lemma acquired_not_free n s region s1 :
  get_first_free_staging_area n s = Done (Some region) s1 ->
  NoDup (queue s) -> None ∉ queue s -> Some region ∉ queue s1.
Proof.
  intros Hacq Hnd Hnone. apply get_first_free_inv in Hacq.
  destruct Hacq as [Hq _ _ _ _ _ _ Horigin _ _]. rewrite Hq.
  destruct (queue s) as [|x q]; [apply not_elem_of_nil|]. simpl.
  destruct (Horigin region eq_refl) as [[Hhd _]|(_ & _ & Hhd)]; simpl in Hhd; subst x.
  - apply NoDup_cons in Hnd as [Hnot _]. exact Hnot.
  - exfalso. apply Hnone. left.
Qed.

(** C4.  A host-to-device transfer, in either mode.  [region] is the area
    the acquisition hands out and [s1] the state it leaves, and the JNI copy
    of the array region into the buffer of that area returns.  Then the
    transfer returns, without a fault, the pair of its two events.  From the
    acquisition on it has logged that copy, the two event records around the
    asynchronous copy out of the same buffer, and the registration of the
    callback for the area acquired, and nothing else: nothing was enqueued
    and nothing was waited for.  The free queue only lost its front, and the
    area is not in it when the call returns.  The copy and, behind it, the
    callback that releases the area are queued on the stream; it is the
    device, completing the work of the stream in order, that puts the area
    at the rear of the free queue. *)
Theorem host_to_device_release_deferred
    (blocking : bool) (d len : Z) (array : nat) (off st ty : Z)
    (s s1 s3 : State) (region : nat) :
  get_first_free_staging_area (to_size_t len) s = Done (Some region) s1 ->
  GetByteArrayRegion array (to_jsize (off ÷ ty)) (to_jsize (len ÷ ty))
                     (buffer_of s1 region) s1 = Done tt s3 ->
  exists s',
    transferFromHostToDevice blocking d len array off st ty s =
      Done (next_event s, S (next_event s)) s' /\
    (exists t, trace s1 = trace s ++ t /\ Forall pool_event t) /\
    trace s' = trace s1 ++
      [EvGetByteArrayRegion array (to_jsize (off ÷ ty)) (to_jsize (len ÷ ty))
                            (buffer_of s1 region);
       EvEventRecord (next_event s) st;
       EvMemcpyHtoDAsync d (buffer_of s1 region) (to_size_t len) st (peek s1);
       EvEventRecord (S (next_event s)) st;
       EvStreamAddCallback st (Some region) (peek (pop s1))] /\
    queue s' = tl (queue s) /\
    (NoDup (queue s) -> None ∉ queue s -> Some region ∉ queue s') /\
    pending s' = pending s ++
      (if decide (peek s1 = CUDA_SUCCESS)
       then h2d_ops st d (buffer_of s1 region) (to_size_t len) else []) ++
      (if decide (peek (pop s1) = CUDA_SUCCESS)
       then [(st, Callback (Some region))] else []) /\
    (peek (pop s1) = CUDA_SUCCESS ->
     queue (st_complete st s') =
     tl (queue s) ++ callbacks (on_stream st (pending s)) ++ [Some region]).
Proof.
  intros Hacq Hget.
  destruct (acquired_live _ _ _ _ Hacq) as (sa & Hsa & Hbuf). rewrite Hbuf in *.
  pose proof (acquired_not_free _ _ _ _ Hacq) as Hfree.
  pose proof (get_first_free_inv _ _ _ _ Hacq) as [Hq Hp _ Hne _ Ht _ _ _ _].
  assert (Hrun : transferFromHostToDevice blocking d len array off st ty s =
                 (let* ev := record_events_create in
                  record_event_begin ev.1 st >>
                  let* sa := load (Some region) in
                  let* result := cuMemcpyHtoDAsync d (staging_area sa) (to_size_t len) st in
                  record_event_end ev.2 st >>
                  let* result := cuStreamAddCallback st (Some region) in
                  wrapper_from_events ev.1 ev.2) s3).
  { destruct blocking; unfold transferFromHostToDevice, transferFromHostToDeviceAsync,
      transferFromHostToDeviceBlocking;
      rewrite (bind_eq _ _ _ _ _ Hacq), (bind_eq _ _ _ _ _ (load_eq region sa s1 Hsa)),
        (bind_eq _ _ _ _ _ Hget); reflexivity. }
  rewrite Hrun. clear Hrun.
  apply GetByteArrayRegion_inv in Hget as (h3 & ->).
  rewrite (bind_eq _ _ _ _ _ (record_events_create_eq _)).
  unfold record_event_begin, record_event_end. cbn [fst snd].
  rewrite (bind_eq _ _ _ _ _ (cuEventRecord_eq _ _ _)).
  match goal with |- context [bind (load (Some region)) _ ?x] =>
    rewrite (bind_eq _ _ _ _ _ (load_eq region sa x Hsa)) end.
  rewrite (bind_eq _ _ _ _ _ (cuMemcpyHtoDAsync_eq _ _ _ _ _)).
  rewrite (bind_eq _ _ _ _ _ (cuEventRecord_eq _ _ _)).
  rewrite (bind_eq _ _ _ _ _ (cuStreamAddCallback_eq _ _ _)).
  unfold wrapper_from_events, ret. cbn [next_event set_host log]. rewrite Hne.
  eexists. split; [reflexivity|].
  match goal with |- context [queue ?x = tl _] => set (sF := x) end.
  assert (HqF : queue sF = queue s1) by reflexivity.
  assert (HtF : trace sF = trace s1 ++
      [EvGetByteArrayRegion array (to_jsize (off ÷ ty)) (to_jsize (len ÷ ty)) (staging_area sa);
       EvEventRecord (next_event s) st;
       EvMemcpyHtoDAsync d (staging_area sa) (to_size_t len) st (peek s1);
       EvEventRecord (S (next_event s)) st;
       EvStreamAddCallback st (Some region) (peek (pop s1))])
    by (cbn; rewrite <- !app_assoc; reflexivity).
  assert (HpF : pending sF = pending s ++
      (if decide (peek s1 = CUDA_SUCCESS)
       then h2d_ops st d (staging_area sa) (to_size_t len) else []) ++
      (if decide (peek (pop s1) = CUDA_SUCCESS)
       then [(st, Callback (Some region))] else [])).
  { unfold sF, st_issue. simpl.
    match goal with |- context [decide (peek ?x = _)] =>
      change (peek x) with (peek s1) end.
    match goal with |- context [decide (peek (st_record ?a ?b ?x) = _)] =>
      change (peek (st_record a b x)) with (peek (pop s1)) end.
    rewrite Hp.
    destruct (decide (peek s1 = CUDA_SUCCESS));
      destruct (decide (peek (pop s1) = CUDA_SUCCESS));
      rewrite <- ?app_assoc, ?app_nil_r; reflexivity. }
  clearbody sF.
  split; [exact Ht|]. split; [exact HtF|]. split; [congruence|].
  split; [rewrite HqF; exact Hfree|]. split; [exact HpF|].
  intros Hok. unfold st_complete. cbn [queue set_pending].
  destruct (complete_stream_spec st (pending sF) sF) as (_ & Hcq & _).
  rewrite Hcq, HqF, Hq, HpF. f_equal.
  destruct (decide (peek (pop s1) = CUDA_SUCCESS)); [|contradiction].
  unfold on_stream. rewrite !filter_app, !callbacks_app. f_equal.
  assert (Hops : callbacks (filter (fun x => x.1 = st)
            (if decide (peek s1 = CUDA_SUCCESS)
             then h2d_ops st d (staging_area sa) (to_size_t len) else [])) = []).
  { destruct (decide _); [|reflexivity]. unfold h2d_ops.
    destruct (staging_area sa); [|reflexivity].
    rewrite filter_cons. simpl. destruct (decide (st = st)); reflexivity. }
  rewrite Hops. rewrite filter_cons. simpl.
  destruct (decide (st = st)); [reflexivity|contradiction].
Qed.

(** * What the environment leaves alone *)

Lemma host_kept_refl h : host_kept h h.
Proof. intros b l H. eauto. Qed.

Lemma host_kept_trans h1 h2 h3 : host_kept h1 h2 -> host_kept h2 h3 -> host_kept h1 h3.
Proof.
  intros H12 H23 b l H. apply H12 in H as (l1 & H1 & E1).
  apply H23 in H1 as (l2 & H2 & E2). exists l2. split; [exact H2|congruence].
Qed.

Lemma host_kept_insert h b l l' :
  h !! b = Some l -> length l' = length l -> host_kept h (<[b := l']> h).
Proof.
  intros Hb Hlen b0 l0 H0. destruct (decide (b0 = b)) as [->|Hne].
  - rewrite lookup_insert_eq. rewrite Hb in H0. injection H0 as <-. eauto.
  - rewrite lookup_insert_ne by congruence. eauto.
Qed.

Lemma GetByteArrayRegion_cases array start len buf s s' :
  GetByteArrayRegion array start len buf s = Done tt s' ->
  exists arr, host s !! array = Some arr /\
    (~ in_bounds start len arr /\
     s' = log (EvGetByteArrayRegion array start len buf) s
     \/
     in_bounds start len arr /\
     exists b l, buf = Some b /\ host s !! b = Some l /\
       (len <= Z.of_nat (length l))%Z /\
       s' = set_host (<[b := write_at 0 (take (Z.to_nat len) (drop (Z.to_nat start) arr)) l]> (host s))
                     (log (EvGetByteArrayRegion array start len buf) s)).
Proof.
  unfold GetByteArrayRegion, java_array, native_buffer, bind, modify, get, ret, fault.
  set (s1 := log _ s).
  destruct (host s1 !! array) as [arr|] eqn:Harr; [|discriminate].
  destruct (decide (in_bounds start len arr)) as [Hin|Hout].
  - destruct buf as [b|]; [|discriminate].
    destruct (host s1 !! b) as [l|] eqn:Hb; [|discriminate].
    destruct (decide _); [|discriminate].
    intros [= <-]. exists arr. split; [exact Harr|].
    right. split; [assumption|]. exists b, l. auto.
  - intros [= <-]. exists arr. split; [exact Harr|]. left. auto.
Qed.

Lemma length_region (start len : Z) (arr : list byte) :
  in_bounds start len arr ->
  length (take (Z.to_nat len) (drop (Z.to_nat start) arr)) = Z.to_nat len.
Proof. intros (H1 & H2 & H3). rewrite length_take, length_drop. lia. Qed.

Lemma GetByteArrayRegion_kept array start len buf s s' :
  GetByteArrayRegion array start len buf s = Done tt s' ->
  host_kept (host s) (host s') /\ next_block s' = next_block s.
Proof.
  intros H. apply GetByteArrayRegion_cases in H
    as (arr & Harr & [[_ ->]|(Hin & b & l & _ & Hb & Hlen & ->)]).
  - split; [apply host_kept_refl|reflexivity].
  - split; [|reflexivity]. cbn [host set_host].
    apply (host_kept_insert _ b l); [exact Hb|].
    apply length_write_at. rewrite length_region by exact Hin.
    destruct Hin as (_ & Hn & _). lia.
Qed.

Lemma SetByteArrayRegion_kept array start len buf s s' :
  SetByteArrayRegion array start len buf s = Done tt s' ->
  host_kept (host s) (host s') /\ next_block s' = next_block s.
Proof.
  intros H. apply SetByteArrayRegion_inv in H
    as (arr & Harr & [[_ ->]|(Hin & b & l & _ & Hb & Hlen & ->)]).
  - split; [apply host_kept_refl|reflexivity].
  - split; [|reflexivity]. cbn [host set_host log].
    apply (host_kept_insert _ array arr); [exact Harr|].
    apply length_write_at. rewrite length_take.
    destruct Hin as (H1 & H2 & H3). lia.
Qed.

Lemma complete_op_kept stream op s :
  host_kept (host s) (host (complete_op stream op s)) /\
  next_block (complete_op stream op s) = next_block s.
Proof.
  split; [exact (pr_host _ _ (complete_op_progressed stream op s))|].
  destruct op as [b off src n|dst b n|userData]; simpl.
  - destruct (host s !! b); [destruct (decide _)|]; reflexivity.
  - destruct (host s !! b); [destruct (decide _)|]; reflexivity.
  - unfold set_to_unused. rewrite enqueue_eq. reflexivity.
Qed.

Lemma complete_stream_kept stream ops : forall s,
  host_kept (host s) (host (complete_stream stream ops s).2) /\
  next_block (complete_stream stream ops s).2 = next_block s.
Proof.
  induction ops as [|[st op] ops IH]; intros s; cbn [complete_stream].
  - split; [apply host_kept_refl|reflexivity].
  - destruct (decide (st = stream)); cbn [fst snd]; [|apply IH].
    destruct (complete_op_kept st op s) as [H1 H2].
    destruct (IH (complete_op st op s)) as [H3 H4].
    split; [eapply host_kept_trans; eassumption|congruence].
Qed.


(** * Invariants of runs *)

Lemma callbacks_split stream ops :
  callbacks (on_stream stream ops) ++ callbacks (off_stream stream ops) ≡ₚ callbacks ops.
Proof.
  unfold on_stream, off_stream. induction ops as [|[st op] ops IH]; [reflexivity|].
  rewrite !filter_cons. simpl.
  destruct (decide (st = stream)) as [->|Hne].
  - destruct (decide (stream <> stream)); [contradiction|].
    unfold callbacks in *. simpl. destruct op; simpl; rewrite IH; reflexivity.
  - destruct (decide (st <> stream)); [|contradiction].
    unfold callbacks in *. simpl. destruct op; simpl; try exact IH.
    rewrite <- Permutation_middle, IH. reflexivity.
Qed.

Lemma st_complete_tracked stream s :
  tracked (st_complete stream s) ≡ₚ tracked s /\
  next_area (st_complete stream s) = next_area s /\
  head (st_complete stream s) = head s /\
  areas (st_complete stream s) = areas s.
Proof.
  destruct (complete_stream_spec stream (pending s) s) as (H1 & H2 & H3).
  destruct (st_complete_progressed stream s) as (Hh & Ha & _).
  split; [|auto].
  unfold tracked, in_flight, st_complete. cbn [queue pending set_pending].
  rewrite H1, H2, <- app_assoc.
  apply Permutation_app_head. apply callbacks_split.
Qed.

Lemma callbacks_cons x ops : callbacks (x :: ops) = callbacks [x] ++ callbacks ops.
Proof. apply (callbacks_app [x] ops). Qed.

Lemma complete_first_tracked stream ops : forall s,
  queue (complete_first stream ops s).2 ++ callbacks (complete_first stream ops s).1
    ≡ₚ queue s ++ callbacks ops /\
  next_area (complete_first stream ops s).2 = next_area s /\
  head (complete_first stream ops s).2 = head s /\
  areas (complete_first stream ops s).2 = areas s.
Proof.
  induction ops as [|[st op] ops IH]; intros s; cbn [complete_first].
  - auto.
  - destruct (decide (st = stream)) as [->|Hne]; cbn [fst snd].
    + destruct (complete_op_queue stream op s) as [Hq Hn].
      destruct (complete_op_progressed stream op s) as [Hh Ha _ _ _ _ _ _ _].
      rewrite Hq. split; [|auto].
      rewrite <- app_assoc, (callbacks_cons _ ops). reflexivity.
    + destruct (IH s) as (H1 & H2 & H3 & H4). split; [|auto].
      rewrite (callbacks_cons _ ops), (callbacks_cons _ (complete_first stream ops s).1).
      rewrite (Permutation_app_comm (callbacks [(st, op)])), app_assoc, H1.
      rewrite <- app_assoc. apply Permutation_app_head, Permutation_app_comm.
Qed.


(** The acquisition never writes a successor into a struct. *)
Lemma get_first_free_next n s r s' :
  next_null s -> get_first_free_staging_area n s = Done r s' -> next_null s'.
Proof.
  intros Hnn H. pose proof (dequeue_eq s) as Hdq.
  assert (Hins : forall (m : gmap nat StagingAreaList) k v,
            (forall a sa, m !! a = Some sa -> next sa = None) -> next v = None ->
            forall a sa, <[k := v]> m !! a = Some sa -> next sa = None).
  { intros m k v Hm Hv a sa. destruct (decide (a = k)) as [->|Hne].
    - rewrite lookup_insert_eq. intros [= <-]. exact Hv.
    - rewrite lookup_insert_ne by congruence. apply Hm. }
  unfold next_null in *.
  destruct (queue s) as [|list q'] eqn:Hq.
  - destruct (decide (peek s = CUDA_SUCCESS)) as [Hp|Hp].
    + rewrite (get_first_free_eq _ _ _ _ _ _ Hdq (check_create_ok n s Hp)) in H.
      injection H as <- <-. rewrite areas_st_head. simpl.
      apply Hins; [|reflexivity]. apply Hins; [exact Hnn|reflexivity].
    + rewrite (get_first_free_eq _ _ _ _ _ _ Hdq (check_create_fail n s Hp)) in H.
      injection H as <- <-. rewrite areas_st_head. simpl.
      apply Hins; [exact Hnn|reflexivity].
  - set (s1 := log (EvDequeue list) (set_queue q' s)) in *.
    destruct list as [a|].
    + destruct (areas s !! a) as [sa|] eqn:Ha.
      2:{ rewrite (get_first_free_fault _ _ _ _ _ Hdq (check_dangling n a s1 Ha)) in H.
          discriminate. }
      destruct (decide (area_length sa < n)%Z) as [Hlt|Hge].
      * destruct (decide (peek s = CUDA_SUCCESS)) as [Hp|Hp].
        -- destruct (decide (peek (pop s) = CUDA_SUCCESS)) as [Hp2|Hp2].
           ++ rewrite (get_first_free_eq _ _ _ _ _ _ Hdq
                         (check_grow_ok n a sa s1 Ha Hlt Hp Hp2)) in H.
              injection H as <- <-. rewrite areas_st_head. simpl.
              apply Hins; [exact Hnn|]. simpl. eapply Hnn, Ha.
           ++ rewrite (get_first_free_eq _ _ _ _ _ _ Hdq
                         (check_grow_alloc_fail n a sa s1 Ha Hlt Hp Hp2)) in H.
              injection H as <- <-. rewrite areas_st_head. exact Hnn.
        -- rewrite (get_first_free_eq _ _ _ _ _ _ Hdq
                      (check_grow_free_fail n a sa s1 Ha Hlt Hp)) in H.
           injection H as <- <-. rewrite areas_st_head. exact Hnn.
      * rewrite (get_first_free_eq _ _ _ _ _ _ Hdq (check_reuse n a sa s1 Ha Hge)) in H.
        injection H as <- <-. rewrite areas_st_head. exact Hnn.
    + destruct (decide (peek s = CUDA_SUCCESS)) as [Hp|Hp].
      * rewrite (get_first_free_eq _ _ _ _ _ _ Hdq (check_create_ok n s1 Hp)) in H.
        injection H as <- <-. rewrite areas_st_head. simpl.
        apply Hins; [|reflexivity]. apply Hins; [exact Hnn|reflexivity].
      * rewrite (get_first_free_eq _ _ _ _ _ _ Hdq (check_create_fail n s1 Hp)) in H.
        injection H as <- <-. rewrite areas_st_head. simpl.
        apply Hins; [exact Hnn|reflexivity].
Qed.

(** What each entry point does to the pool. *)
Lemma h2d_step d len array off st ty s ev s' :
  transferFromHostToDeviceBlocking d len array off st ty s = Done ev s' ->
  exists region s1,
    get_first_free_staging_area (to_size_t len) s = Done (Some region) s1 /\
    head s' = head s1 /\ areas s' = areas s1 /\ next_area s' = next_area s1 /\
    queue s' = queue s1 /\
    (in_flight s' = in_flight s1 ++ [Some region] \/ in_flight s' = in_flight s1) /\
    next_block s' = next_block s1 /\ host_kept (host s1) (host s').
Proof.
  intros H'. unfold transferFromHostToDeviceBlocking in H'.
  bind_inv H' staging_list s1 Hacq.
  bind_inv H' sa s2 Hload. apply load_inv in Hload as (-> & region & -> & Hsa).
  bind_inv H' u s3 Hget. destruct u.
  pose proof (GetByteArrayRegion_kept _ _ _ _ _ _ Hget) as [Hk _].
  apply GetByteArrayRegion_inv in Hget as (h3 & ->).
  rewrite (bind_eq _ _ _ _ _ (record_events_create_eq _)) in H'.
  unfold record_event_begin, record_event_end in H'. cbn [fst snd] in H'.
  rewrite (bind_eq _ _ _ _ _ (cuEventRecord_eq _ _ _)) in H'.
  bind_inv H' sa' s4 Hload. apply load_inv in Hload as (-> & region' & Hr' & Hsa').
  injection Hr' as <-. simpl in Hsa'. rewrite Hsa in Hsa'. injection Hsa' as <-.
  rewrite (bind_eq _ _ _ _ _ (cuMemcpyHtoDAsync_eq _ _ _ _ _)) in H'.
  rewrite (bind_eq _ _ _ _ _ (cuEventRecord_eq _ _ _)) in H'.
  rewrite (bind_eq _ _ _ _ _ (cuStreamAddCallback_eq _ _ _)) in H'.
  unfold wrapper_from_events, ret in H'. injection H' as <- <-.
  exists region, s1. split; [exact Hacq|].
  split; [reflexivity|]. split; [reflexivity|]. split; [reflexivity|].
  split; [reflexivity|]. split; [|split; [reflexivity|exact Hk]].
  unfold in_flight, st_issue, h2d_ops. simpl.
  repeat match goal with |- context [decide ?P] => destruct (decide P) end;
    destruct (staging_area sa);
    rewrite ?omap_app, ?app_nil_r; simpl; rewrite ?app_nil_r; auto.
Qed.

(** What the wait leaves alone. *)
Lemma st_wait_frame e stream s :
  head (st_wait e stream s) = head s /\
  areas (st_wait e stream s) = areas s /\
  next_area (st_wait e stream s) = next_area s /\
  next_block (st_wait e stream s) = next_block s /\
  tracked (st_wait e stream s) ≡ₚ tracked s /\
  host_kept (host s) (host (st_wait e stream s)).
Proof.
  unfold st_wait. cbv zeta.
  set (s6 := log (EvEventQuery e (peek s)) (pop s)).
  set (s7 := log (EvEventSynchronize e (peek s6)) (pop s6)).
  assert (Hdone : forall sX, head sX = head s -> areas sX = areas s ->
            next_area sX = next_area s -> next_block sX = next_block s ->
            tracked sX = tracked s -> host sX = host s ->
            head (st_complete stream sX) = head s /\
            areas (st_complete stream sX) = areas s /\
            next_area (st_complete stream sX) = next_area s /\
            next_block (st_complete stream sX) = next_block s /\
            tracked (st_complete stream sX) ≡ₚ tracked s /\
            host_kept (host s) (host (st_complete stream sX))).
  { intros sX H1 H2 H3 H4 H5 H6.
    destruct (st_complete_tracked stream sX) as (Htr & Hna & Hh & Har).
    destruct (complete_stream_kept stream (pending sX) sX) as [Hk Hnb].
    rewrite <- H1, <- H2, <- H3, <- H4, <- H5, <- H6. auto 10. }
  destruct (decide (peek s = CUDA_SUCCESS)); [apply Hdone; reflexivity|].
  destruct (decide (peek s6 = CUDA_SUCCESS)); [apply Hdone; reflexivity|].
  repeat split; try reflexivity. apply host_kept_refl.
Qed.

(** A blocking device-to-host transfer, once the area is known: the rest of
    the call runs in the state the wait leaves. *)
Lemma d2h_block_eq d len array off st ty s region s1 sa :
  get_first_free_staging_area (to_size_t len) s = Done (Some region) s1 ->
  areas s1 !! region = Some sa ->
  transferFromDeviceToHostBlock d len array off st ty s =
  (SetByteArrayRegion array (to_jsize (off ÷ ty)) (to_jsize (len ÷ ty)) (staging_area sa) >>
   set_to_unused st (peek s1) (Some region) >>
   wrapper_from_events (next_event s1) (S (next_event s1)))
    (st_wait (S (next_event s1)) st (st_d2h_issued d len st (staging_area sa) s1)).
Proof.
  intros Hacq Hsa. unfold transferFromDeviceToHostBlock.
  rewrite (bind_eq _ _ _ _ _ Hacq).
  rewrite (bind_eq _ _ _ _ _ (record_events_create_eq _)).
  unfold record_event_begin, record_event_end. cbn [fst snd].
  rewrite (bind_eq _ _ _ _ _ (cuEventRecord_eq _ _ _)).
  match goal with |- context [bind (load (Some region)) _ ?x] =>
    rewrite (bind_eq _ _ _ _ _ (load_eq region sa x Hsa)) end.
  rewrite (bind_eq _ _ _ _ _ (cuMemcpyDtoHAsync_eq _ _ _ _ _ _)).
  rewrite (bind_eq _ _ _ _ _ (cuEventRecord_eq _ _ _)).
  fold (st_d2h_issued d len st (staging_area sa) s1).
  set (s5 := st_d2h_issued d len st (staging_area sa) s1).
  assert (Hev : events s5 !! S (next_event s1) = Some st) by apply lookup_insert_eq.
  rewrite (wait_eq _ st _ s5 Hev).
  destruct (st_wait_frame (S (next_event s1)) st s5) as (_ & Ha & _).
  assert (Hsa' : areas (st_wait (S (next_event s1)) st s5) !! region = Some sa).
  { rewrite Ha. exact Hsa. }
  rewrite (bind_eq _ _ _ _ _ (load_eq region sa _ Hsa')).
  reflexivity.
Qed.

(** A blocking device-to-host transfer that returned, taken apart. *)
Lemma d2h_block_inv d len array off st ty s ev s' :
  transferFromDeviceToHostBlock d len array off st ty s = Done ev s' ->
  exists region s1 sa s9,
    get_first_free_staging_area (to_size_t len) s = Done (Some region) s1 /\
    areas s1 !! region = Some sa /\
    ev = (next_event s1, S (next_event s1)) /\
    SetByteArrayRegion array (to_jsize (off ÷ ty)) (to_jsize (len ÷ ty)) (staging_area sa)
      (st_wait (S (next_event s1)) st (st_d2h_issued d len st (staging_area sa) s1)) =
      Done tt s9 /\
    s' = log (EvEnqueue (Some region)) (set_queue (queue s9 ++ [Some region]) s9).
Proof.
  intros H. pose proof H as H0. unfold transferFromDeviceToHostBlock in H.
  bind_inv H staging_list s1 Hacq.
  rewrite (bind_eq _ _ _ _ _ (record_events_create_eq _)) in H.
  unfold record_event_begin in H. cbn [fst snd] in H.
  rewrite (bind_eq _ _ _ _ _ (cuEventRecord_eq _ _ _)) in H.
  bind_inv H sa s2 Hload. apply load_inv in Hload as (-> & region & -> & Hsa).
  clear H. change (areas s1 !! region = Some sa) in Hsa.
  rewrite (d2h_block_eq _ _ _ _ _ _ _ _ _ _ Hacq Hsa) in H0.
  bind_inv H0 u s9 Hset. destruct u.
  unfold set_to_unused in H0. rewrite (bind_eq _ _ _ _ _ (enqueue_eq _ _)) in H0.
  unfold wrapper_from_events, ret in H0. injection H0 as <- <-.
  exists region, s1, sa, s9. auto.
Qed.

Lemma st_d2h_issued_frame d len st buf s1 :
  head (st_d2h_issued d len st buf s1) = head s1 /\
  areas (st_d2h_issued d len st buf s1) = areas s1 /\
  next_area (st_d2h_issued d len st buf s1) = next_area s1 /\
  next_block (st_d2h_issued d len st buf s1) = next_block s1 /\
  tracked (st_d2h_issued d len st buf s1) = tracked s1 /\
  host (st_d2h_issued d len st buf s1) = host s1.
Proof.
  repeat split. unfold tracked, in_flight, st_d2h_issued, st_issue, d2h_ops. simpl.
  destruct (decide _); [|reflexivity].
  destruct buf; rewrite ?omap_app, ?app_nil_r; simpl; rewrite ?app_nil_r; reflexivity.
Qed.

Lemma d2h_block_step d len array off st ty s ev s' :
  transferFromDeviceToHostBlock d len array off st ty s = Done ev s' ->
  exists region s1,
    get_first_free_staging_area (to_size_t len) s = Done (Some region) s1 /\
    head s' = head s1 /\ areas s' = areas s1 /\ next_area s' = next_area s1 /\
    tracked s' ≡ₚ Some region :: tracked s1 /\
    next_block s' = next_block s1 /\ host_kept (host s1) (host s').
Proof.
  intros H. apply d2h_block_inv in H as (region & s1 & sa & s9 & Hacq & Hsa & _ & Hset & ->).
  set (s5 := st_d2h_issued d len st (staging_area sa) s1) in *.
  set (sW := st_wait (S (next_event s1)) st s5) in *.
  destruct (st_d2h_issued_frame d len st (staging_area sa) s1)
    as (Hh5 & Ha5 & Hn5 & Hb5 & Ht5 & Hho5). fold s5 in Hh5, Ha5, Hn5, Hb5, Ht5, Hho5.
  destruct (st_wait_frame (S (next_event s1)) st s5) as (HhW & HaW & HnW & HbW & HtW & HkW).
  fold sW in HhW, HaW, HnW, HbW, HtW, HkW.
  assert (H9 : head s9 = head sW /\ areas s9 = areas sW /\ next_area s9 = next_area sW /\
               queue s9 = queue sW /\ pending s9 = pending sW).
  { apply SetByteArrayRegion_inv in Hset as (arr & _ & [[_ ->]|(_ & b & l & _ & _ & _ & ->)]);
      simpl; auto. }
  destruct H9 as (Hh9 & Ha9 & Hn9 & Hq9 & Hp9).
  destruct (SetByteArrayRegion_kept _ _ _ _ _ _ Hset) as [Hk9 Hnb9].
  exists region, s1. split; [exact Hacq|].
  cbn [head areas next_area next_block host log set_queue].
  split; [congruence|]. split; [congruence|]. split; [congruence|].
  split; [|split].
  - unfold tracked at 1, in_flight. cbn [queue pending log set_queue].
    rewrite Hq9, Hp9, <- app_assoc.
    rewrite <- Ht5, <- HtW. unfold tracked, in_flight.
    symmetry. apply Permutation_middle.
  - congruence.
  - eapply host_kept_trans; [|exact Hk9]. rewrite <- Hho5. exact HkW.
Qed.

Lemma d2h_async_step d len array off st s :
  exists ev s',
    transferFromDeviceToHostAsync d len array off st s = Done ev s' /\
    head s' = head s /\ areas s' = areas s /\ next_area s' = next_area s /\
    queue s' = queue s /\ in_flight s' = in_flight s.
Proof.
  unfold transferFromDeviceToHostAsync, GetPrimitiveArrayCritical,
    ReleasePrimitiveArrayCritical, wrapper_from_events,
    record_event_begin, record_event_end.
  rewrite bind_ret.
  rewrite (bind_eq _ _ _ _ _ (record_events_create_eq _)). cbn [fst snd].
  rewrite (bind_eq _ _ _ _ _ (cuEventRecord_eq _ _ _)).
  rewrite (bind_eq _ _ _ _ _ (cuMemcpyDtoHAsync_eq _ _ _ _ _ _)).
  rewrite (bind_eq _ _ _ _ _ (cuEventRecord_eq _ _ _)).
  rewrite (bind_eq _ _ _ _ _ (cuMemFreeHost_eq _ _)).
  rewrite bind_ret.
  eexists _, _. split; [reflexivity|].
  split; [reflexivity|]. split; [reflexivity|]. split; [reflexivity|].
  split; [reflexivity|].
  unfold in_flight, st_issue, d2h_ops. simpl.
  destruct (decide _); rewrite ?omap_app, ?app_nil_r; simpl; rewrite ?app_nil_r; auto.
Qed.

(** The loop of [free_staging_area_list] touches neither the free queue nor
    the streams, and allocates nothing. *)
Lemma free_staging_area_list_loop_frame fuel : forall result s r s',
  free_staging_area_list_loop fuel result s = Done r s' ->
  queue s' = queue s /\ pending s' = pending s /\ next_area s' = next_area s /\
  forall a sa, areas s' !! a = Some sa -> areas s !! a = Some sa.
Proof.
  induction fuel as [|fuel IH]; intros result s r s' H;
    cbn [free_staging_area_list_loop] in H; unfold bind at 1, get at 1 in H.
  - destruct (head s); [discriminate|]. injection H as <- <-. auto.
  - destruct (head s) as [a|] eqn:Hh; [|injection H as <- <-; auto].
    destruct (areas s !! a) as [sa|] eqn:Ha.
    2:{ rewrite (bind_Fault _ _ _ _ (load_fault a s Ha)) in H. discriminate. }
    rewrite (bind_eq _ _ _ _ _ (load_eq a sa s Ha)) in H.
    rewrite (bind_eq _ _ _ _ _ (cuMemFreeHost_eq _ _)) in H.
    unfold bind at 1, modify at 1 in H. unfold bind at 1, free_area at 1 in H.
    unfold bind at 1, get at 1, modify at 1 in H.
    apply IH in H as (H1 & H2 & H3 & H4).
    split; [exact H1|]. split; [exact H2|]. split; [exact H3|].
    intros x sx Hx. apply H4 in Hx. cbn [areas set_areas set_head] in Hx.
    change (areas (st_free (staging_area sa) s)) with (areas s) in Hx.
    apply lookup_delete_Some in Hx as [_ Hx]. exact Hx.
Qed.

Lemma destroy_step stream s r s' :
  cuDestroyStream stream s = Done r s' ->
  queue s' = [] /\ pending s' = pending s /\ next_area s' = next_area s /\
  forall a sa, areas s' !! a = Some sa -> areas s !! a = Some sa.
Proof.
  intros H. unfold cuDestroyStream in H.
  rewrite (bind_eq _ _ _ _ _ (cuStreamDestroy_eq stream s)) in H.
  rewrite (bind_eq _ _ _ _ _ (free_queue_eq _)) in H.
  bind_inv H res s3 Hf. unfold ret in H. injection H as _ <-.
  unfold free_staging_area_list, bind at 1, get at 1 in Hf.
  apply free_staging_area_list_loop_frame in Hf. exact Hf.
Qed.



Lemma step_next_null o s s' :
  next_null s -> step o s = Done tt s' -> next_null s'.
Proof.
  intros Hinv H. destruct o; simpl in H.
  - bind_inv H ev s1 Ht. unfold ret in H. injection H as <-.
    apply d2h_block_step in Ht as (region & s0 & Hacq & _ & Ha & _).
    unfold next_null. rewrite Ha. eapply get_first_free_next; eassumption.
  - bind_inv H ev s1 Ht. unfold ret in H. injection H as <-.
    destruct (d2h_async_step device_ptr length array host_offset stream s)
      as (ev' & s1' & Ht' & _ & Ha & _).
    rewrite Ht in Ht'. injection Ht' as _ <-.
    unfold next_null. rewrite Ha. exact Hinv.
  - bind_inv H ev s1 Ht. unfold ret in H. injection H as <-.
    apply h2d_step in Ht as (region & s0 & Hacq & _ & Ha & _).
    unfold next_null. rewrite Ha. eapply get_first_free_next; eassumption.
  - bind_inv H ev s1 Ht. unfold ret in H. injection H as <-.
    rewrite transferFromHostToDeviceAsync_eq in Ht.
    apply h2d_step in Ht as (region & s0 & Hacq & _ & Ha & _).
    unfold next_null. rewrite Ha. eapply get_first_free_next; eassumption.
  - unfold device_step in H. injection H as <-.
    destruct (complete_first_tracked stream (pending s) s) as (_ & _ & _ & Ha).
    unfold next_null. cbn [areas set_pending]. rewrite Ha. exact Hinv.
  - bind_inv H r s1 Ht. unfold ret in H. injection H as <-.
    apply destroy_step in Ht as (_ & _ & _ & Ha).
    intros a sa Hs. eapply Hinv, Ha, Hs.
Qed.

Lemma run_invariant (P : State -> Prop) :
  (forall o s s', P s -> step o s = Done tt s' -> P s') ->
  forall ops s s', P s -> run ops s = Done tt s' -> P s'.
Proof.
  intros Hstep. induction ops as [|o ops IH]; intros s s' HP H; simpl in H.
  - unfold ret in H. injection H as <-. exact HP.
  - bind_inv H u s1 H1. destruct u. eapply IH; [|exact H]. eapply Hstep; eassumption.
Qed.





(** X14.  In no run does a struct get a successor: the list of allocated
    areas that teardown walks has at most one element, however many areas
    were created. *)
Theorem registry_at_most_one
    (ops : list op) (jheap : gmap nat (list byte)) (nb : nat) (o : list Z) (s : State)
    (l : list nat) :
  run ops (initial jheap nb o) = Done tt s ->
  registry s = Some l ->
  length l <= 1.
Proof.
  intros H Hreg.
  assert (Hnn : next_null s).
  { apply (run_invariant next_null step_next_null ops (initial jheap nb o) s); [|exact H].
    intros a sa Ha. simpl in Ha. rewrite lookup_empty in Ha. discriminate. }
  apply registry_from_chain in Hreg.
  destruct l as [|a [|b l]]; simpl; try lia.
  simpl in Hreg. destruct Hreg as (_ & sa & Ha & Hb & _).
  rewrite (Hnn a sa Ha) in Hb. discriminate.
Qed.

(** * The data path of a host-to-device transfer *)

Lemma complete_stream_app stream ops1 ops2 : forall s,
  complete_stream stream (ops1 ++ ops2) s =
  ((complete_stream stream ops1 s).1 ++
     (complete_stream stream ops2 (complete_stream stream ops1 s).2).1,
   (complete_stream stream ops2 (complete_stream stream ops1 s).2).2).
Proof.
  induction ops1 as [|[st op] ops1 IH]; intros s; cbn [complete_stream app fst snd].
  - destruct (complete_stream stream ops2 s); reflexivity.
  - destruct (decide (st = stream)); [apply IH|].
    rewrite IH. reflexivity.
Qed.

(** Work that does not copy into block [b] leaves it as it is. *)
Lemma complete_stream_host_other stream ops b : forall s,
  (forall b' o src n, (stream, MemcpyDtoH b' o src n) ∈ ops -> b' <> b) ->
  host (complete_stream stream ops s).2 !! b = host s !! b.
Proof.
  induction ops as [|[st op] ops IH]; intros s Hno; cbn [complete_stream]; [reflexivity|].
  destruct (decide (st = stream)) as [->|Hne]; cbn [fst snd].
  - rewrite IH by (intros; eapply Hno; right; eassumption).
    destruct op as [b' o src n|dst b' n|userData]; simpl.
    + destruct (host s !! b') eqn:E; [|reflexivity].
      destruct (decide _); [|reflexivity]. simpl.
      apply lookup_insert_ne. eapply Hno. left.
    + destruct (host s !! b'); [destruct (decide _)|]; reflexivity.
    + unfold set_to_unused. rewrite enqueue_eq. reflexivity.
  - apply IH. intros. eapply Hno. right. eassumption.
Qed.

Lemma dev_read_write (dv : Z -> byte) (d n : Z) (data : list byte) :
  length data = Z.to_nat n -> (0 <= n)%Z ->
  dev_read (dev_write dv d data) d n = data.
Proof.
  intros Hlen Hn. unfold dev_read, dev_write.
  apply list_eq. intros i. rewrite list_lookup_fmap.
  destruct (decide (i < Z.to_nat n)) as [Hi|Hi].
  - rewrite lookup_seqZ_lt by lia. simpl.
    destruct (decide _) as [_|Hno]; [|lia].
    replace (Z.to_nat (d + (0 + Z.of_nat i) - d)) with i by lia.
    destruct (data !! i) eqn:E.
    + f_equal. apply nth_lookup_Some, E.
    + apply lookup_ge_None in E. lia.
  - rewrite lookup_seqZ_ge by lia. simpl. symmetry. apply lookup_ge_None. lia.
Qed.

Lemma take_write_at_0 (n : nat) (data l : list byte) :
  length data = n -> take n (write_at 0 data l) = data.
Proof.
  intros Hd. unfold write_at. rewrite take_0. simpl.
  rewrite take_app_length' by (symmetry; exact Hd). reflexivity.
Qed.

(** What a host-to-device transfer that returned has left behind. *)
Lemma h2d_result d len array off st ty s ev s1 :
  transferFromHostToDeviceBlocking d len array off st ty s = Done ev s1 ->
  exists region sa0 sa s3,
    get_first_free_staging_area (to_size_t len) s = Done (Some region) sa0 /\
    areas sa0 !! region = Some sa /\
    GetByteArrayRegion array (to_jsize (off ÷ ty)) (to_jsize (len ÷ ty))
                       (staging_area sa) sa0 = Done tt s3 /\
    host s1 = host s3 /\ device s1 = device sa0 /\
    pending s1 = pending sa0 ++
      (if decide (peek sa0 = CUDA_SUCCESS)
       then h2d_ops st d (staging_area sa) (to_size_t len) else []) ++
      (if decide (peek (pop sa0) = CUDA_SUCCESS)
       then [(st, Callback (Some region))] else []).
Proof.
  intros H'. unfold transferFromHostToDeviceBlocking in H'.
  bind_inv H' staging_list sa0 Hacq.
  bind_inv H' sa s2 Hload. apply load_inv in Hload as (-> & region & -> & Hsa).
  bind_inv H' u s3 Hget. destruct u. pose proof Hget as Hget0.
  apply GetByteArrayRegion_inv in Hget as (h3 & ->).
  rewrite (bind_eq _ _ _ _ _ (record_events_create_eq _)) in H'.
  unfold record_event_begin, record_event_end in H'. cbn [fst snd] in H'.
  rewrite (bind_eq _ _ _ _ _ (cuEventRecord_eq _ _ _)) in H'.
  bind_inv H' sa' s4 Hload. apply load_inv in Hload as (-> & region' & Hr' & Hsa').
  injection Hr' as <-. simpl in Hsa'. rewrite Hsa in Hsa'. injection Hsa' as <-.
  rewrite (bind_eq _ _ _ _ _ (cuMemcpyHtoDAsync_eq _ _ _ _ _)) in H'.
  rewrite (bind_eq _ _ _ _ _ (cuEventRecord_eq _ _ _)) in H'.
  rewrite (bind_eq _ _ _ _ _ (cuStreamAddCallback_eq _ _ _)) in H'.
  unfold wrapper_from_events, ret in H'. injection H' as <- <-.
  eexists region, sa0, sa, _. split; [exact Hacq|]. split; [exact Hsa|].
  split; [exact Hget0|]. split; [reflexivity|]. split; [reflexivity|].
  unfold st_issue. simpl.
  match goal with |- context [decide (peek ?x = _)] =>
    change (peek x) with (peek sa0) end.
  match goal with |- context [decide (peek (st_record ?a ?b ?x) = _)] =>
    change (peek (st_record a b x)) with (peek (pop sa0)) end.
  destruct (decide (peek sa0 = CUDA_SUCCESS));
    destruct (decide (peek (pop sa0) = CUDA_SUCCESS));
    rewrite <- ?app_assoc, ?app_nil_r; reflexivity.
Qed.

(** X15.  A host-to-device transfer of [len] bytes from a byte array,
    followed by a successful [cuStreamSynchronize] on its stream, has put the
    bytes of the array region on the device at the destination address.  The
    premises: the request fits a [jsize]; the driver accepted the copy; the
    source is an array that fits the region and is not one of the pool's
    pinned buffers; and no device-to-host copy still queued on the stream
    writes into a pinned buffer of the pool. *)
Theorem host_to_device_data
    (blocking : bool) (d len : Z) (array : nat) (off st : Z)
    (s s1 s2 : State) (ev : nat * nat) (arr : list byte) :
  (0 <= len < 2 ^ 31)%Z ->
  transferFromHostToDevice blocking d len array off st 1 s = Done ev s1 ->
  copy_status len s = CUDA_SUCCESS ->
  host s !! array = Some arr ->
  array < next_block s ->
  (forall a, buffer_of s a <> Some array) ->
  in_bounds (to_jsize off) len arr ->
  (forall b o src n, (st, MemcpyDtoH b o src n) ∈ pending s ->
     b < next_block s /\ forall a, buffer_of s a <> Some b) ->
  PTXStream_cuStreamSynchronize st s1 = Done CUDA_SUCCESS s2 ->
  dev_read (device s2) d len =
  take (Z.to_nat len) (drop (Z.to_nat (to_jsize off)) arr).
Proof.
  intros Hlen H Hcs Harr Hlt Hnb Hin Hpend Hsync.
  assert (H' : transferFromHostToDeviceBlocking d len array off st 1 s = Done ev s1)
    by (destruct blocking; exact H).
  clear H.
  assert (Hsz : to_size_t len = len).
  { unfold to_size_t. apply Z.mod_small. lia. }
  assert (Hjs : to_jsize (len ÷ 1) = len).
  { rewrite Z.quot_1_r. unfold to_jsize.
    rewrite Z.mod_small by lia. lia. }
  apply h2d_result in H'
    as (region & sa0 & sa & s3 & Hacq & Hsa & Hget & Hh1 & Hd1 & Hp1).
  rewrite Hsz in Hacq, Hp1. rewrite Hjs, Z.quot_1_r in Hget.
  unfold copy_status in Hcs. rewrite Hsz, Hacq in Hcs.
  pose proof (get_first_free_footprint _ _ _ _ Hacq) as (Hnb1 & _ & Hhost1 & Hnew).
  pose proof (get_first_free_inv _ _ _ _ Hacq) as [_ Hp0 _ _ _ _ _ _ _ _].
  destruct (Hnew region eq_refl) as (sa' & Hsa' & _ & Hbuf).
  rewrite Hsa in Hsa'. injection Hsa' as <-.
  (* the array is as it was *)
  assert (Harr1 : host sa0 !! array = Some arr).
  { rewrite Hhost1; [exact Harr|exact Hlt|]. intros a _. apply Hnb. }
  apply GetByteArrayRegion_cases in Hget
    as (arr0 & Harr0 & [[Hout _]|(_ & b1 & l & Hb1 & Hl & Hll & ->)]).
  { rewrite Harr1 in Harr0. injection Harr0 as <-. contradiction. }
  rewrite Harr1 in Harr0. injection Harr0 as <-.
  cbn [host set_host] in Hh1.
  (* the staging buffer is not the target of a queued copy *)
  assert (Hfree : forall b' o src n, (st, MemcpyDtoH b' o src n) ∈ pending s -> b' <> b1).
  { intros b' o src n Hx. apply Hpend in Hx as [Hx1 Hx2].
    destruct Hbuf as [(l0 & Hs0 & _)|(Hhd & Hsa0 & _)].
    - rewrite Hb1 in Hs0. injection Hs0 as ->. lia.
    - intros ->. apply (Hx2 region). unfold buffer_of. rewrite Hsa0. exact Hb1. }
  set (data := take (Z.to_nat len) (drop (Z.to_nat (to_jsize off)) arr)) in *.
  assert (Hdata : length data = Z.to_nat len).
  { subst data. rewrite length_take, length_drop.
    destruct Hin as (H1 & H2 & H3). lia. }
  destruct (decide (peek sa0 = CUDA_SUCCESS)) as [_|Hno]; [|contradiction].
  rewrite Hb1, Hp0 in Hp1. cbn [h2d_ops] in Hp1.
  set (C := if decide (peek (pop sa0) = CUDA_SUCCESS)
            then [(st, Callback (Some region))] else []) in Hp1.
  assert (HC : C = [] \/ exists r, C = [(st, Callback r)]).
  { subst C. destruct (decide _); eauto. }
  clearbody C.
  (* the synchronisation *)
  unfold PTXStream_cuStreamSynchronize in Hsync.
  rewrite (bind_eq _ _ _ _ _ (cuStreamSynchronize_eq _ _)) in Hsync.
  unfold ret in Hsync.
  assert (Hok : peek s1 = CUDA_SUCCESS) by congruence.
  destruct (decide (peek s1 = CUDA_SUCCESS)) as [_|Hno]; [|contradiction].
  assert (Hs2 : s2 = st_complete st (pop s1)) by congruence.
  clear Hsync. subst s2.
  change (device (st_complete st (pop s1)))
    with (device (complete_stream st (pending s1) (pop s1)).2).
  rewrite Hp1, !complete_stream_app. cbn [fst snd].
  set (Y1 := (complete_stream st (pending s) (pop s1)).2).
  assert (Hh1' : host Y1 !! b1 = Some (write_at 0 data l)).
  { subst Y1. rewrite complete_stream_host_other by exact Hfree.
    change (host (pop s1)) with (host s1). rewrite Hh1. apply lookup_insert_eq. }
  assert (Hop : device (complete_stream st [(st, MemcpyHtoD d b1 len)] Y1).2 =
                dev_write (device Y1) d data).
  { cbn [complete_stream]. destruct (decide (st = st)); [|contradiction].
    cbn [fst snd complete_op]. rewrite Hh1'.
    destruct (decide _) as [_|Hno].
    - cbn [device set_device]. rewrite take_write_at_0 by exact Hdata. reflexivity.
    - exfalso. apply Hno. split; [lia|].
      rewrite length_write_at; [lia|]. simpl. lia. }
  set (Y2 := (complete_stream st [(st, MemcpyHtoD d b1 len)] Y1).2) in *.
  assert (HdC : device (complete_stream st C Y2).2 = device Y2).
  { destruct HC as [->|(r & ->)]; [reflexivity|].
    cbn [complete_stream]. destruct (decide (st = st)); [|contradiction].
    cbn [fst snd complete_op]. unfold set_to_unused. rewrite enqueue_eq. reflexivity. }
  rewrite HdC, Hop. apply dev_read_write; [exact Hdata|lia].
Qed.

(** * Device to host, blocking: wait, copy out, release *)

Lemma complete_stream_trace stream ops : forall s,
  trace (complete_stream stream ops s).2 =
  trace s ++ (EvEnqueue <$> callbacks (on_stream stream ops)).
Proof.
  unfold on_stream.
  induction ops as [|[st op] ops IH]; intros s; cbn [complete_stream].
  - simpl. rewrite app_nil_r. reflexivity.
  - rewrite filter_cons. cbn [fst]. destruct (decide (st = stream)) as [->|Hne]; cbn [fst snd].
    + rewrite IH, callbacks_cons, fmap_app, app_assoc. f_equal.
      destruct op as [b off src n|dst b n|userData]; simpl.
      * destruct (host s !! b); [destruct (decide _)|]; rewrite app_nil_r; reflexivity.
      * destruct (host s !! b); [destruct (decide _)|]; rewrite app_nil_r; reflexivity.
      * unfold set_to_unused. rewrite enqueue_eq. reflexivity.
    + apply IH.
Qed.

(** What the wait does: nothing but the two log entries when neither call
    reported success; otherwise all the work of the stream. *)
Lemma st_wait_spec e stream s :
  let cbs := if wait_ok s then callbacks (on_stream stream (pending s)) else [] in
  trace (st_wait e stream s) =
    trace s ++ [EvEventQuery e (peek s)] ++
    (if decide (peek s = CUDA_SUCCESS) then []
     else [EvEventSynchronize e (peek (pop s))]) ++ (EvEnqueue <$> cbs) /\
  queue (st_wait e stream s) = queue s ++ cbs /\
  pending (st_wait e stream s) =
    (if wait_ok s then off_stream stream (pending s) else pending s).
Proof.
  unfold st_wait, wait_ok. cbv zeta.
  set (s6 := log (EvEventQuery e (peek s)) (pop s)).
  set (s7 := log (EvEventSynchronize e (peek s6)) (pop s6)).
  assert (Hdone : forall sX, pending sX = pending s ->
            trace (st_complete stream sX) =
              trace sX ++ (EvEnqueue <$> callbacks (on_stream stream (pending s))) /\
            queue (st_complete stream sX) =
              queue sX ++ callbacks (on_stream stream (pending s)) /\
            pending (st_complete stream sX) = off_stream stream (pending s)).
  { intros sX HpX. unfold st_complete. cbn [trace queue pending set_pending].
    destruct (complete_stream_spec stream (pending sX) sX) as (H1 & H2 & _).
    rewrite complete_stream_trace, H1, H2, HpX. auto. }
  change (peek s6) with (peek (pop s)).
  destruct (decide (peek s = CUDA_SUCCESS)) as [Hq|Hq].
  - rewrite (bool_decide_eq_true_2 _ Hq). cbn [orb].
    destruct (Hdone s6 eq_refl) as (H1 & H2 & H3). rewrite H1, H2, H3.
    split; [|auto]. subst s6. cbn [trace log pop set_oracle]. rewrite <- !app_assoc. reflexivity.
  - rewrite (bool_decide_eq_false_2 _ Hq). cbn [orb].
    destruct (decide (peek (pop s) = CUDA_SUCCESS)) as [Hs|Hs].
    + rewrite (bool_decide_eq_true_2 _ Hs).
      destruct (Hdone s7 eq_refl) as (H1 & H2 & H3). rewrite H1, H2, H3.
      split; [|auto]. subst s7 s6. cbn [trace log pop set_oracle].
      rewrite <- !app_assoc. reflexivity.
    + rewrite (bool_decide_eq_false_2 _ Hs).
      subst s7 s6. cbn [trace queue pending log pop set_oracle].
      rewrite <- !app_assoc, !app_nil_r. auto.
Qed.

(** After a wait that succeeded, an accepted copy into a live staging buffer
    has put there the bytes the device then holds. *)
Lemma st_wait_data e stream b src n s l :
  wait_ok s = true ->
  (exists p, pending s = p ++ [(stream, MemcpyDtoH b 0 src n)]) ->
  host s !! b = Some l -> (0 <= n <= Z.of_nat (length l))%Z ->
  exists l', host (st_wait e stream s) !! b = Some l' /\
             take (Z.to_nat n) l' = dev_read (device (st_wait e stream s)) src n.
Proof.
  intros Hw (p & Hp) Hb Hn.
  assert (Hdone : forall sX, pending sX = pending s -> host sX = host s ->
            exists l', host (st_complete stream sX) !! b = Some l' /\
              take (Z.to_nat n) l' = dev_read (device (st_complete stream sX)) src n).
  { intros sX HpX HhX. unfold st_complete. cbn [host device set_pending].
    rewrite HpX, Hp, complete_stream_snoc. cbn [fst snd].
    set (sY := (complete_stream stream p sX).2).
    destruct (complete_stream_progressed stream p sX) as [_ _ _ _ _ _ _ _ HhY].
    fold sY in HhY.
    destruct (HhY b l) as (l1 & Hl1 & Hlen1); [rewrite HhX; exact Hb|].
    destruct (complete_d2h stream b src n sY l1 Hl1) as (HdY & l2 & Hl2 & _ & Hdata);
      [lia|].
    exists l2. split; [exact Hl2|]. rewrite HdY. exact Hdata. }
  unfold wait_ok in Hw. unfold st_wait. cbv zeta.
  destruct (decide (peek s = CUDA_SUCCESS)) as [Hq|Hq]; [apply Hdone; reflexivity|].
  rewrite (bool_decide_eq_false_2 _ Hq) in Hw. cbn [orb] in Hw.
  apply bool_decide_eq_true_1 in Hw.
  change (peek (log (EvEventQuery e (peek s)) (pop s))) with (peek (pop s)).
  destruct (decide (peek (pop s) = CUDA_SUCCESS)); [|contradiction].
  apply Hdone; reflexivity.
Qed.

(** X19.  A blocking device-to-host transfer that returns has acquired an
    area and, from then on, made these calls and no others, in this order:
    the asynchronous copy into the buffer of that area between the two event
    records; the query of the end event and, unless the query reported
    completion, the synchronisation on it; the callbacks of earlier transfers
    on the stream, which the wait lets run; the copy of the same buffer into
    the Java array; and last the release of the area acquired, which ends up
    at the rear of the free queue.  When the query or the synchronisation
    reported success, no work is left on the stream.  For a byte array, a
    request that fits a [jsize] and the array, a driver that accepted the
    copy, a wait that succeeded and a front area that had its buffer, the
    region of the array holds the [len] bytes the device has at the source
    address. *)
Theorem blocking_device_to_host_order
    (d len : Z) (array : nat) (off st ty : Z)
    (s : State) (ev : nat * nat) (s' : State) :
  transferFromDeviceToHostBlock d len array off st ty s = Done ev s' ->
  exists region s1 cbs,
    get_first_free_staging_area (to_size_t len) s = Done (Some region) s1 /\
    ev = (next_event s, S (next_event s)) /\
    cbs = (if wait_ok (pop s1) then callbacks (on_stream st (pending s)) else []) /\
    trace s' = trace s1 ++
      [EvEventRecord (next_event s) st;
       EvMemcpyDtoHAsync (buffer_of s1 region) 0 d (to_size_t len) st (peek s1);
       EvEventRecord (S (next_event s)) st;
       EvEventQuery (S (next_event s)) (peek (pop s1))] ++
      (if decide (peek (pop s1) = CUDA_SUCCESS) then []
       else [EvEventSynchronize (S (next_event s)) (peek (pop (pop s1)))]) ++
      (EvEnqueue <$> cbs) ++
      [EvSetByteArrayRegion array (to_jsize (off ÷ ty)) (to_jsize (len ÷ ty))
                            (buffer_of s1 region);
       EvEnqueue (Some region)] /\
    queue s' = tl (queue s) ++ cbs ++ [Some region] /\
    (wait_ok (pop s1) = true -> forall x, x ∈ pending s' -> x.1 <> st) /\
    (ty = 1%Z -> (0 <= len < 2 ^ 31)%Z -> (0 <= off < 2 ^ 31)%Z ->
     front_backed s -> peek s1 = CUDA_SUCCESS -> wait_ok (pop s1) = true ->
     forall arr, host s' !! array = Some arr ->
       (off + len <= Z.of_nat (length arr))%Z ->
       take (Z.to_nat len) (drop (Z.to_nat off) arr) = dev_read (device s') d len).
Proof.
  intros H.
  apply d2h_block_inv in H as (region & s1 & sa & s9 & Hacq & Hsa & -> & Hset & ->).
  assert (Hbuf : buffer_of s1 region = staging_area sa)
    by (unfold buffer_of; rewrite Hsa; reflexivity).
  pose proof (get_first_free_inv _ _ _ _ Hacq) as [Hq1 Hp1 _ Hne1 _ _ _ _ _ Hbacked].
  set (s5 := st_d2h_issued d len st (staging_area sa) s1) in *.
  assert (H5 : trace s5 = trace s1 ++
             [EvEventRecord (next_event s1) st;
              EvMemcpyDtoHAsync (staging_area sa) 0 d (to_size_t len) st (peek s1);
              EvEventRecord (S (next_event s1)) st] /\
           queue s5 = queue s1 /\
           pending s5 = pending s1 ++
             (if decide (peek s1 = CUDA_SUCCESS)
              then d2h_ops st (staging_area sa) 0 d (to_size_t len) else []) /\
           host s5 = host s1 /\ device s5 = device s1).
  { unfold s5, st_d2h_issued, st_issue. cbn.
    change (peek (st_record (next_event s1) st (set_next_event (S (S (next_event s1))) s1)))
      with (peek s1).
    rewrite <- !app_assoc.
    destruct (decide (peek s1 = CUDA_SUCCESS)); rewrite ?app_nil_r; auto. }
  destruct H5 as (Ht5 & Hq5 & Hp5 & Hh5 & Hd5).
  assert (Hpk : peek s5 = peek (pop s1) /\ peek (pop s5) = peek (pop (pop s1)))
    by (split; reflexivity).
  destruct Hpk as [Hpk1 Hpk2].
  assert (Hw5 : wait_ok s5 = wait_ok (pop s1)) by reflexivity.
  set (sW := st_wait (S (next_event s1)) st s5) in *.
  destruct (st_wait_spec (S (next_event s1)) st s5) as (HtW & HqW & HpW).
  fold sW in HtW, HqW, HpW. cbv zeta in HtW, HqW.
  pose proof (st_wait_data (S (next_event s1)) st) as HdataW.
  specialize (fun b l => HdataW b d (to_size_t len) s5 l). fold sW in HdataW.
  (* callbacks of the stream's work: the copy just issued adds none *)
  assert (Hcb : callbacks (on_stream st (pending s5)) = callbacks (on_stream st (pending s))).
  { rewrite Hp5, Hp1. unfold on_stream. rewrite filter_app, callbacks_app.
    destruct (decide _); [|apply app_nil_r]. unfold d2h_ops.
    destruct (staging_area sa); [|apply app_nil_r].
    rewrite filter_cons. cbn [fst]. destruct (decide (st = st)); apply app_nil_r. }
  rewrite Hcb, Hw5, Hpk1, Hpk2 in HtW. rewrite Hcb, Hw5 in HqW. rewrite Hw5 in HpW, HdataW.
  set (cbs := if wait_ok (pop s1) then callbacks (on_stream st (pending s)) else []) in *.
  clearbody sW.
  assert (H9 : trace s9 = trace sW ++
            [EvSetByteArrayRegion array (to_jsize (off ÷ ty)) (to_jsize (len ÷ ty))
               (staging_area sa)]
          /\ pending s9 = pending sW /\ queue s9 = queue sW /\ device s9 = device sW).
  { apply SetByteArrayRegion_inv in Hset as (arr & _ & [[_ ->]|(_ & b & l & _ & _ & _ & ->)]);
      simpl; auto. }
  destruct H9 as (Ht9 & Hp9 & Hq9 & Hd9).
  exists region, s1, cbs. rewrite Hbuf, <- Hne1.
  split; [exact Hacq|]. split; [reflexivity|]. split; [reflexivity|].
  split.
  { cbn [trace log set_queue]. rewrite Ht9, HtW, Ht5. rewrite <- !app_assoc. reflexivity. }
  split.
  { cbn [queue log set_queue]. rewrite Hq9, HqW, Hq5, Hq1, <- app_assoc. reflexivity. }
  split.
  { intros Hw x Hx. cbn [pending log set_queue] in Hx. rewrite Hp9, HpW, Hw in Hx.
    unfold off_stream in Hx. apply list_elem_of_filter in Hx as [Hx _]. exact Hx. }
  intros -> Hlen Hoff Hfb Hcopy Hw arr Harr Hfit.
  cbn [host device log set_queue] in Harr |- *. rewrite Hd9.
  assert (Hsz : to_size_t len = len) by (unfold to_size_t; apply Z.mod_small; lia).
  assert (Hjl : to_jsize (len ÷ 1) = len).
  { rewrite Z.quot_1_r. unfold to_jsize. rewrite Z.mod_small by lia. lia. }
  assert (Hjo : to_jsize (off ÷ 1) = off).
  { rewrite Z.quot_1_r. unfold to_jsize. rewrite Z.mod_small by lia. lia. }
  rewrite Hsz in *. rewrite Hjl, Hjo in Hset.
  destruct (Hbacked region eq_refl Hfb) as (sa0 & b & l & Hsa0 & Hb & Hl & Hll); [lia|].
  rewrite Hsa in Hsa0. injection Hsa0 as <-.
  destruct (HdataW b l) as (l2 & Hl2 & Hdata).
  { exact Hw. }
  { exists (pending s1). rewrite Hp5, Hb.
    destruct (decide (peek s1 = CUDA_SUCCESS)); [reflexivity|contradiction]. }
  { rewrite Hh5. exact Hl. }
  { lia. }
  apply SetByteArrayRegion_inv in Hset
    as (arr0 & Harr0 & [[Hout ->]|(Hin0 & b' & l' & Hbuf' & Hb' & Hlen' & ->)]).
  - cbn [host log] in Harr. rewrite Harr0 in Harr. injection Harr as <-.
    exfalso. apply Hout. unfold in_bounds. lia.
  - rewrite Hb in Hbuf'. injection Hbuf' as <-.
    cbn [host set_host log] in Harr. rewrite lookup_insert_eq in Harr. injection Harr as <-.
    rewrite Hl2 in Hb'. injection Hb' as <-.
    destruct Hin0 as (Hs0 & Hn0 & Hfit0).
    rewrite <- Hdata. apply read_back_write_at.
    + rewrite length_take. lia.
    + lia.
Qed.

(** * The stream wrapper *)

Lemma array_from_stream_eq stream s :
  length stream = 8 ->
  array_from_stream stream s =
  Done (next_block s)
       (set_host (<[next_block s := stream]> (host s)) (set_next_block (S (next_block s)) s)).
Proof.
  intros Hlen. unfold array_from_stream, NewByteArray, SetByteArrayRegion_local,
    java_array, sizeof_CUstream, bind, get, modify, ret.
  cbn [host set_host set_next_block]. rewrite lookup_insert_eq.
  destruct (decide (in_bounds 0 8 (replicate (Z.to_nat 8) x00))) as [_|Hno].
  2:{ exfalso. apply Hno. unfold in_bounds. rewrite length_replicate, Z2Nat.id; lia. }
  destruct (decide (8 <= Z.of_nat (length stream))%Z) as [_|Hno]; [|lia].
  cbn [host set_host set_next_block]. rewrite insert_insert_eq.
  assert (Hw : write_at (Z.to_nat 0) (take (Z.to_nat 8) stream)
                        (replicate (Z.to_nat 8) x00) = stream).
  { change (Z.to_nat 0) with 0. change (Z.to_nat 8) with 8. unfold write_at.
    rewrite (take_ge stream) by lia. rewrite take_0, Hlen. simpl. apply app_nil_r. }
  rewrite Hw. reflexivity.
Qed.

Lemma stream_from_array_eq stack array s arr :
  host s !! array = Some arr -> length stack = 8 ->
  stream_from_array stack array s =
  Done (if decide (8 <= length arr) then take 8 arr else stack) s.
Proof.
  intros Harr Hlen. unfold stream_from_array, GetByteArrayRegion_local,
    java_array, sizeof_CUstream, bind, get, ret.
  rewrite Harr.
  destruct (decide (in_bounds 0 8 arr)) as [(_ & _ & Hin)|Hno].
  - destruct (decide (8 <= Z.of_nat (length stack))%Z) as [_|Hno]; [|lia].
    destruct (decide (8 <= length arr)) as [_|Hno]; [|lia].
    f_equal. change (Z.to_nat 0) with 0. change (Z.to_nat 8) with 8.
    unfold write_at. rewrite take_0, drop_0. simpl.
    rewrite drop_ge by (rewrite length_take; lia). apply app_nil_r.
  - destruct (decide (8 <= length arr)) as [Hge|_]; [|reflexivity].
    exfalso. apply Hno. unfold in_bounds. lia.
Qed.

(** X16.  [cuCreateStream] returns a wrapper whatever the driver answers.
    What any later entry point reads out of that wrapper with
    [stream_from_array] is the handle the driver stored when
    [cuStreamCreateWithPriority] succeeded, and otherwise the contents the
    uninitialised local happened to have; the first status plays no part. *)
Theorem created_stream_round_trip (stack handle stack' : list byte) (s : State) :
  length stack = 8 -> length handle = 8 -> length stack' = 8 ->
  exists array s',
    cuCreateStream stack handle s = Done array s' /\
    stream_from_array stack' array s' =
      Done (if decide (peek (pop s) = CUDA_SUCCESS) then handle else stack) s'.
Proof.
  intros Hs Hh Hs'. unfold cuCreateStream.
  rewrite (bind_eq _ _ _ _ _ (ask_eq s)), (bind_eq _ _ _ _ _ (ask_eq (pop s))).
  set (stream := if decide (peek (pop s) = CUDA_SUCCESS) then handle else stack).
  assert (Hlen : length stream = 8) by (subst stream; destruct (decide _); assumption).
  rewrite (array_from_stream_eq stream _ Hlen).
  eexists _, _. split; [reflexivity|].
  erewrite stream_from_array_eq; [|cbn [host set_host]; apply lookup_insert_eq|exact Hs'].
  rewrite Hlen. destruct (decide (8 <= 8)) as [_|Hno]; [|lia].
  rewrite take_ge by lia. reflexivity.
Qed.

(** * Safety of the transfers that go through the pool *)



















(** * The linked free queue *)

Section LinkedQueueFacts.
Import LinkedQueue.

Lemma chain_insert_fresh m p l n x :
  chain m p l -> n ∉ l.*1 -> chain (<[n := x]> m) p l.
Proof.
  revert p. induction l as [|[a e] l IH]; intros p Hc Hn; simpl in *; [assumption|].
  apply not_elem_of_cons in Hn as [Hne Hn].
  destruct Hc as (-> & nx & Ha & Hc). split; [reflexivity|].
  exists nx. split; [|apply IH; assumption].
  rewrite lookup_insert_ne by congruence. assumption.
Qed.

Lemma chain_delete m p l a :
  chain m p l -> a ∉ l.*1 -> chain (delete a m) p l.
Proof.
  revert p. induction l as [|[b e] l IH]; intros p Hc Hn; simpl in *; [assumption|].
  apply not_elem_of_cons in Hn as [Hne Hn].
  destruct Hc as (-> & nx & Hb & Hc). split; [reflexivity|].
  exists nx. split; [|apply IH; assumption].
  rewrite lookup_delete_ne by congruence. assumption.
Qed.

(** The last node of a chain has no successor. *)
Lemma chain_last m p l r e :
  chain m p l -> last l = Some (r, e) -> m !! r = Some (mkNode e None).
Proof.
  revert p. induction l as [|[a x] l IH]; intros p Hc Hl; [discriminate|].
  simpl in Hc. destruct Hc as (-> & nx & Ha & Hc).
  destruct l as [|y l].
  - simpl in Hl, Hc. injection Hl as <- <-. subst nx. assumption.
  - apply (IH nx Hc). exact Hl.
Qed.

(** Linking a new node behind the last one extends the chain by it. *)
Lemma chain_snoc m p l r e n x :
  chain m p l -> last l = Some (r, e) -> NoDup l.*1 -> n ∉ l.*1 ->
  chain (<[r := mkNode e (Some n)]> (<[n := mkNode x None]> m)) p (l ++ [(n, x)]).
Proof.
  revert p. induction l as [|[a y] l IH]; intros p Hc Hl Hnd Hn; [discriminate|].
  simpl in Hc. destruct Hc as (-> & nx & Ha & Hc).
  simpl in Hnd, Hn. apply NoDup_cons in Hnd as [Hal Hnd].
  apply not_elem_of_cons in Hn as [Hna Hn].
  destruct l as [|z l].
  - simpl in Hl, Hc. injection Hl as <- <-. subst nx. simpl.
    split; [reflexivity|]. exists (Some n). split; [apply lookup_insert_eq|].
    split; [reflexivity|]. exists None. split; [|reflexivity].
    rewrite lookup_insert_ne by lia. apply lookup_insert_eq.
  - change (((a, y) :: z :: l) ++ [(n, x)]) with ((a, y) :: ((z :: l) ++ [(n, x)])).
    cbn [chain]. split; [reflexivity|]. exists nx. split.
    + assert (r ∈ (z :: l).*1).
      { change r with (r, e).1. apply list_elem_of_fmap_2.
        apply last_Some_elem_of. exact Hl. }
      rewrite !lookup_insert_ne by (intros ->; contradiction). assumption.
    + apply IH; assumption.
Qed.

Lemma linked_empty : linked empty [].
Proof.
  split; [reflexivity|]. split; [constructor|].
  split; [|split].
  - intros a. split; [intros H; inversion H|].
    intros [x Hx]. simpl in Hx. rewrite lookup_empty in Hx. discriminate.
  - intros a H. inversion H.
  - intros H. contradiction.
Qed.

Lemma represents_empty : represents empty [].
Proof. exists []. split; [reflexivity|apply linked_empty]. Qed.

(** [enqueue] on the nodes: the new node is the one [malloc] returns, linked
    behind the last. *)
Lemma enqueue_linked (q : t) (l : list (nat * option nat)) (r : option nat) :
  linked q l ->
  exists q', enqueue r q = Some q' /\ linked q' (l ++ [(next_node q, r)]).
Proof.
  intros (Hc & Hnd & Hdom & Hlt & Hrear).
  assert (Hfresh : next_node q ∉ l.*1).
  { intros Hin. apply Hlt in Hin. lia. }
  assert (Hnone : nodes q !! next_node q = None).
  { destruct (nodes q !! next_node q) eqn:E; [|reflexivity].
    exfalso. apply Hfresh, Hdom. eauto. }
  unfold enqueue. destruct l as [|[a e] l].
  - simpl in Hc. rewrite Hc. eexists. split; [reflexivity|].
    assert (Hm : nodes q = ∅).
    { apply map_eq. intros i. rewrite lookup_empty.
      destruct (nodes q !! i) eqn:E; [|reflexivity].
      exfalso. assert (Hi : i ∈ ([] : list nat)) by (apply Hdom; eauto). inversion Hi. }
    split; [split; [reflexivity|]; exists None; split; [apply lookup_insert_eq|reflexivity]|].
    split; [apply NoDup_singleton|].
    split; [|split; [|reflexivity]].
    + intros a. cbn [nodes app fmap list_fmap fst]. rewrite list_elem_of_singleton. split.
      * intros ->. rewrite lookup_insert_eq. eauto.
      * intros [x Hx]. rewrite Hm in Hx.
        destruct (decide (a = next_node q)) as [->|Hne]; [reflexivity|].
        rewrite lookup_insert_ne, lookup_empty in Hx by congruence. discriminate.
    + intros a Ha. apply list_elem_of_singleton in Ha. subst a. simpl. lia.
  - pose proof Hc as Hc0. simpl in Hc. destruct Hc as (Hf & nx & Ha & Hc).
    rewrite Hf.
    destruct (last ((a, e) :: l)) as [[rr re]|] eqn:Hlast.
    2:{ apply last_None in Hlast. discriminate. }
    rewrite Hrear by discriminate. change (fst <$> Some (rr, re)) with (Some rr).
    pose proof (chain_last _ _ _ _ _ Hc0 Hlast) as Hr.
    assert (Hrin : rr ∈ ((a, e) :: l).*1).
    { change rr with (rr, re).1. apply list_elem_of_fmap_2, last_Some_elem_of, Hlast. }
    assert (Hrn : rr <> next_node q) by (intros ->; contradiction).
    cbv beta iota zeta. rewrite lookup_insert_ne by congruence. rewrite Hr. cbn [element].
    eexists. split; [reflexivity|].
    unfold linked. cbn [nodes front rear next_node].
    split; [rewrite <- Hf; apply chain_snoc; assumption|].
    split.
    { rewrite fmap_app. apply NoDup_app. split; [assumption|].
      split; [|apply NoDup_singleton].
      intros x Hx Hx'. apply list_elem_of_singleton in Hx'. subst x. contradiction. }
    split.
    { intros x. rewrite fmap_app, elem_of_app.
      change ([(next_node q, r)].*1) with [next_node q].
      rewrite list_elem_of_singleton.
      destruct (decide (x = rr)) as [->|Hxr].
      { rewrite lookup_insert_eq. split; eauto. }
      rewrite lookup_insert_ne by congruence.
      destruct (decide (x = next_node q)) as [->|Hxn].
      { rewrite lookup_insert_eq. split; eauto. }
      rewrite lookup_insert_ne by congruence.
      rewrite <- Hdom. split; [intros [H|H]; [assumption|contradiction]|auto]. }
    split.
    { intros x Hx. rewrite fmap_app, elem_of_app in Hx. destruct Hx as [Hx|Hx].
      - apply Hlt in Hx. lia.
      - change ([(next_node q, r)].*1) with [next_node q] in Hx.
        apply list_elem_of_singleton in Hx. subst x. lia. }
    intros _. rewrite last_snoc. reflexivity.
Qed.

(** [dequeue] on the nodes: the first node is unlinked and freed. *)
Lemma dequeue_linked (q : t) (l : list (nat * option nat)) :
  linked q l ->
  match l with
  | [] => dequeue q = Some (None, q)
  | (a, e) :: l' =>
      exists q', dequeue q = Some (e, q') /\ linked q' l' /\
                 nodes q' = delete a (nodes q) /\ next_node q' = next_node q
  end.
Proof.
  intros (Hc & Hnd & Hdom & Hlt & Hrear).
  unfold dequeue. destruct l as [|[a e] l]; simpl in *.
  - rewrite Hc. reflexivity.
  - destruct Hc as (Hf & nx & Ha & Hc). rewrite Hf, Ha. simpl.
    apply NoDup_cons in Hnd as [Hal Hnd].
    eexists. split; [reflexivity|]. split; [|split; reflexivity].
    unfold linked. cbn [nodes front rear next_node].
    split; [apply chain_delete; assumption|].
    split; [assumption|].
    split; [|split].
    + intros x. destruct (decide (x = a)) as [->|Hne].
      * rewrite lookup_delete_eq. split; [contradiction|].
        intros [y Hy]. discriminate.
      * rewrite lookup_delete_ne by congruence. rewrite <- Hdom.
        rewrite elem_of_cons. split; [auto|]. intros [H|H]; [contradiction|assumption].
    + intros x Hx. apply Hlt. right. assumption.
    + intros Hl. rewrite Hrear by discriminate.
      destruct l as [|y l]; [contradiction|reflexivity].
Qed.

(** X1.  On a well-formed linked queue [enqueue] never faults, and the new
    element is behind all the others. *)
Theorem linked_enqueue_appends (q : t) (es : list (option nat)) (r : option nat) :
  represents q es ->
  exists q', enqueue r q = Some q' /\ represents q' (es ++ [r]).
Proof.
  intros (l & -> & Hl).
  destruct (enqueue_linked q l r Hl) as (q' & Henq & Hl').
  exists q'. split; [exact Henq|].
  exists (l ++ [(next_node q, r)]). split; [|exact Hl'].
  rewrite fmap_app. reflexivity.
Qed.

(** X2.  [dequeue] on a well-formed linked queue returns [NULL] and changes
    nothing when the queue is empty; otherwise it returns the oldest element
    and frees its node, and the rest of the queue is as it was. *)
Theorem linked_dequeue_takes_front (q : t) (es : list (option nat)) :
  represents q es ->
  match es with
  | [] => dequeue q = Some (None, q)
  | r :: es' => exists q', dequeue q = Some (r, q') /\ represents q' es' /\
                           next_node q' = next_node q
  end.
Proof.
  intros (l & -> & Hl). pose proof (dequeue_linked q l Hl) as Hd.
  destruct l as [|[a e] l]; [exact Hd|].
  destruct Hd as (q' & Hdq & Hl' & _ & Hn).
  exists q'. split; [exact Hdq|]. split; [|exact Hn].
  exists l. split; [reflexivity|exact Hl'].
Qed.

Lemma free_queue_loop_frees l : forall fuel q,
  chain (nodes q) (front q) l -> NoDup l.*1 -> length l <= fuel ->
  exists q', free_queue_loop fuel q = Some q' /\ front q' = None /\
             next_node q' = next_node q /\
             forall x, nodes q' !! x = if decide (x ∈ l.*1) then None else nodes q !! x.
Proof.
  induction l as [|[a e] l IH]; intros fuel q Hc Hnd Hlen.
  - simpl in Hc. exists q. destruct fuel; simpl; rewrite Hc; repeat split; auto.
  - simpl in Hc. destruct Hc as (Hf & nx & Ha & Hc).
    change (((a, e) :: l).*1) with (a :: l.*1) in *.
    apply NoDup_cons in Hnd as [Hal Hnd].
    destruct fuel as [|fuel]; [simpl in Hlen; lia|]. simpl in Hlen.
    cbn [free_queue_loop]. rewrite Hf, Ha.
    destruct (IH fuel (mk nx (rear q) (delete a (nodes q)) (next_node q)))
      as (q' & Hrun & Hfront & Hnn & Hnodes).
    { simpl. apply chain_delete; assumption. }
    { assumption. }
    { lia. }
    exists q'. split; [exact Hrun|]. split; [assumption|]. split; [assumption|].
    intros x. rewrite Hnodes. cbn [nodes].
    destruct (decide (x ∈ l.*1)) as [Hin|Hnin];
      destruct (decide (x ∈ a :: l.*1)) as [Hin'|Hnin']; try reflexivity.
    + exfalso. apply Hnin'. right. assumption.
    + apply elem_of_cons in Hin' as [->|?]; [apply lookup_delete_eq|contradiction].
    + apply lookup_delete_ne. intros ->. apply Hnin'. left.
Qed.

Lemma chain_length_le_size (m : gmap nat QueueNode) (l : list (nat * option nat)) :
  NoDup l.*1 -> (forall a, a ∈ l.*1 -> is_Some (m !! a)) -> length l <= size m.
Proof.
  intros Hnd Hin.
  rewrite <- (length_fmap fst l), <- (size_list_to_set (C := gset nat) l.*1) by assumption.
  rewrite <- size_dom. apply subseteq_size.
  intros x Hx. apply elem_of_list_to_set in Hx. apply elem_of_dom, Hin, Hx.
Qed.

(** X3.  [free_queue] on a well-formed linked queue returns, frees every
    node, and leaves a well-formed empty queue, although [rear] still points
    to a freed node. *)
Theorem linked_free_queue_frees_all (q : t) (es : list (option nat)) :
  represents q es ->
  exists q', free_queue q = Some q' /\ nodes q' = ∅ /\ represents q' [].
Proof.
  intros (l & -> & Hc & Hnd & Hdom & Hlt & Hrear).
  assert (Hloop : exists q', free_queue q = Some q' /\ front q' = None /\
            forall x, nodes q' !! x = if decide (x ∈ l.*1) then None else nodes q !! x).
  { unfold free_queue. destruct (front q) as [f|] eqn:Hf.
    - destruct (free_queue_loop_frees l (S (size (nodes q))) q) as (q' & H1 & H2 & _ & H3).
      + rewrite Hf. exact Hc. + exact Hnd.
      + pose proof (chain_length_le_size (nodes q) l Hnd (fun a Ha => proj1 (Hdom a) Ha)). lia.
      + exists q'. auto.
    - exists q. split; [reflexivity|]. split; [assumption|].
      destruct l as [|[a e] l]; [intros x; reflexivity|].
      simpl in Hc. destruct Hc as [Hc _]. discriminate. }
  destruct Hloop as (q' & Hrun & Hfront & Hnodes).
  assert (Hempty : nodes q' = ∅).
  { apply map_eq. intros x. rewrite Hnodes, lookup_empty.
    destruct (decide (x ∈ l.*1)); [reflexivity|].
    destruct (nodes q !! x) eqn:E; [|reflexivity].
    exfalso. apply n, Hdom. eauto. }
  exists q'. split; [exact Hrun|]. split; [exact Hempty|].
  exists []. split; [reflexivity|]. split; [exact Hfront|].
  split; [constructor|]. split; [|split].
  - intros a. rewrite Hempty, lookup_empty. split; [intros H; inversion H|].
    intros [x Hx]. discriminate.
  - intros a H. inversion H.
  - intros H. contradiction.
Qed.

Lemma enqueue_all_linked rs : forall q l,
  linked q l ->
  exists q' l', enqueue_all rs q = Some q' /\ linked q' (l ++ l') /\ l'.*2 = rs.
Proof.
  induction rs as [|r rs IH]; intros q l Hq; simpl.
  - exists q, []. rewrite app_nil_r. auto.
  - destruct (enqueue_linked q l r Hq) as (q1 & -> & Hq1).
    destruct (IH q1 _ Hq1) as (q' & l' & Hrun & Hq' & Hl').
    exists q', ((next_node q, r) :: l'). split; [exact Hrun|].
    split; [rewrite <- app_assoc in Hq'; exact Hq'|].
    rewrite fmap_cons, Hl'. reflexivity.
Qed.

Lemma dequeue_n_linked l : forall q,
  linked q l ->
  exists q', dequeue_n (length l) q = Some (l.*2, q') /\ linked q' [].
Proof.
  induction l as [|[a e] l IH]; intros q Hq; simpl.
  - exists q. auto.
  - destruct (dequeue_linked q _ Hq) as (q1 & -> & Hq1 & _).
    destruct (IH q1 Hq1) as (q' & -> & Hq'). exists q'. auto.
Qed.

(** X4.  First in, first out: whatever is enqueued on a well-formed linked
    queue comes out behind what was there, in the order it went in, and the
    queue is empty afterwards. *)
Theorem linked_queue_fifo (q : t) (es rs : list (option nat)) :
  represents q es ->
  exists q1 q2,
    enqueue_all rs q = Some q1 /\
    dequeue_n (length (es ++ rs)) q1 = Some (es ++ rs, q2) /\
    represents q2 [].
Proof.
  intros (l & -> & Hl).
  destruct (enqueue_all_linked rs q l Hl) as (q1 & l' & Hrun & Hq1 & <-).
  destruct (dequeue_n_linked _ q1 Hq1) as (q2 & Hrun2 & Hq2).
  exists q1, q2. split; [exact Hrun|].
  rewrite <- !fmap_app, length_fmap. split; [exact Hrun2|].
  exists []. split; [reflexivity|exact Hq2].
Qed.

End LinkedQueueFacts.

(** * The further theorems at concrete inputs *)

Section LinkedQueueExamples.
Import LinkedQueue.

Lemma demo_queue_represents : represents demo_queue [Some 5; Some 6].
Proof.
  destruct (enqueue_all_linked [Some 5; Some 6] empty [] linked_empty)
    as (q & l & Hrun & Hq & Hl).
  unfold demo_queue. rewrite Hrun. exists l. split; [symmetry; exact Hl|exact Hq].
Qed.

Lemma linked_enqueue_appends_witness :
  exists q',
    enqueue (Some 7) demo_queue = Some q' /\
    represents q' ([Some 5; Some 6] ++ [Some 7]).
Proof.
  apply (linked_enqueue_appends demo_queue [Some 5; Some 6] (Some 7)).
  apply demo_queue_represents.
Defined.

Lemma linked_dequeue_takes_front_witness :
  exists q',
    dequeue demo_queue = Some (Some 5, q') /\
    represents q' [Some 6] /\ next_node q' = next_node demo_queue.
Proof.
  apply (linked_dequeue_takes_front demo_queue [Some 5; Some 6]).
  apply demo_queue_represents.
Defined.

Lemma linked_free_queue_frees_all_witness :
  exists q',
    free_queue demo_queue = Some q' /\ nodes q' = ∅ /\ represents q' [].
Proof.
  apply (linked_free_queue_frees_all demo_queue [Some 5; Some 6]).
  apply demo_queue_represents.
Defined.

Lemma linked_queue_fifo_witness :
  exists q1 q2,
    enqueue_all [Some 7] demo_queue = Some q1 /\
    dequeue_n (length ([Some 5; Some 6] ++ [Some 7])) q1 =
      Some ([Some 5; Some 6] ++ [Some 7], q2) /\
    represents q2 [].
Proof.
  apply (linked_queue_fifo demo_queue [Some 5; Some 6] [Some 7]).
  apply demo_queue_represents.
Defined.

End LinkedQueueExamples.

Lemma pool_stays_sound_witness :
  exists s held,
    pool_run [Acquire 4; Acquire 4; Release 0; Acquire 8] (demo [], []) = Some (s, held) /\
    (forall a, a ∈ held \/ Some a ∈ queue s -> area_ok s a) /\
    (forall a a' b, a ∈ held \/ Some a ∈ queue s ->
                    a' ∈ held \/ Some a' ∈ queue s ->
                    buffer_of s a = Some b -> buffer_of s a' = Some b -> a = a').
Proof.
  eexists _, _. split; [vm_compute; reflexivity|].
  apply (pool_stays_sound [Acquire 4; Acquire 4; Release 0; Acquire 8] (demo [])).
  - apply pool_sound_initial.
  - vm_compute. reflexivity.
Defined.

Lemma handed_out_buffer_fits_witness :
  exists s held r s' sa b l,
    pool_run [Acquire 4; Release 0] (demo [], []) = Some (s, held) /\
    get_first_free_staging_area 8 s = Done (Some r) s' /\
    areas s' !! r = Some sa /\ staging_area sa = Some b /\ host s' !! b = Some l /\
    (8 <= area_length sa <= Z.of_nat (length l))%Z.
Proof.
  destruct (pool_run [Acquire 4; Release 0] (demo [], [])) as [[s held]|] eqn:Hrun;
    [|vm_compute in Hrun; discriminate Hrun].
  destruct (get_first_free_staging_area 8 s) as [[r|] s'| |] eqn:Hacq;
    [|vm_compute in Hrun; injection Hrun as <- <-; vm_compute in Hacq; discriminate Hacq..].
  destruct (handed_out_buffer_fits [Acquire 4; Release 0] (demo []) s held 8 r s'
              (pool_sound_initial demo_heap 200 []) Hrun Hacq)
    as (sa & b & l & H1 & H2 & H3 & H4).
  exists s, held, r, s', sa, b, l.
  split; [reflexivity|]. split; [exact Hacq|].
  split; [exact H1|]. split; [exact H2|]. split; [exact H3|exact H4].
Defined.

Lemma acquisition_succeeds_witness :
  exists a s', get_first_free_staging_area 4 (demo []) = Done (Some a) s'.
Proof.
  apply (acquisition_succeeds 4 (demo [])).
  - unfold driver_succeeds. vm_compute. constructor.
  - intros a Ha. vm_compute in Ha. discriminate Ha.
Defined.

Lemma acquisition_fails_only_on_refusal_witness :
  exists s',
    get_first_free_staging_area 4 (demo [CUDA_ERROR_OUT_OF_MEMORY]) = Done None s' /\
    queue s' = tl (queue (demo [CUDA_ERROR_OUT_OF_MEMORY])) /\
    exists t e, trace s' = trace (demo [CUDA_ERROR_OUT_OF_MEMORY]) ++ t ++ [e] /\ refused e.
Proof.
  eexists. split; [vm_compute; reflexivity|].
  apply (acquisition_fails_only_on_refusal 4 (demo [CUDA_ERROR_OUT_OF_MEMORY])).
  vm_compute. reflexivity.
Defined.

Lemma acquisition_reuses_witness :
  exists s',
    get_first_free_staging_area 4 (after [read4] []) = Done (Some 0) s' /\
    trace s' = trace (after [read4] []) ++ [EvDequeue (Some 0)] /\
    oracle s' = oracle (after [read4] []) /\ areas s' = areas (after [read4] []) /\
    host s' = host (after [read4] []) /\
    queue s' = tl (queue (after [read4] [])).
Proof.
  apply (acquisition_reuses 4 (after [read4] []) 0 (mkArea None (Some 200) 4)).
  - vm_compute. reflexivity.
  - vm_compute. reflexivity.
  - simpl. lia.
Defined.

Lemma destroy_frees_the_list_witness :
  registry (after [read4] []) = Some [0] /\
  exists r s',
    cuDestroyStream 7 (after [read4] []) = Done r s' /\
    queue s' = [] /\ head s' = None /\
    (forall a, a ∈ [0] -> areas s' !! a = None) /\
    freed_ptrs (trace s') =
      freed_ptrs (trace (after [read4] [])) ++ (buffer_of (after [read4] []) <$> [0]) /\
    (is_Some r <-> [0] <> []).
Proof.
  split; [vm_compute; reflexivity|].
  apply (destroy_frees_the_list 7 (after [read4] []) [0]).
  - vm_compute. reflexivity.
  - apply NoDup_singleton.
Defined.


Lemma failed_acquisition_faults_witness :
  exists s1,
    get_first_free_staging_area (to_size_t 8) one_area_refused = Done None s1 /\
    transferFromDeviceToHostBlock 0 8 100 0 7 1 one_area_refused =
      Fault (st_record (next_event s1) 7 (set_next_event (S (S (next_event s1))) s1)) /\
    forall blocking,
      transferFromHostToDevice blocking 0 8 100 0 7 1 one_area_refused = Fault s1.
Proof.
  eexists. split; [vm_compute; reflexivity|].
  apply (failed_acquisition_faults 0 8 100 0 7 1 one_area_refused).
  vm_compute. reflexivity.
Defined.


Lemma registry_at_most_one_witness :
  exists s l,
    run [write4; write4; DeviceStep 7; read4] (initial demo_heap 200 []) = Done tt s /\
    registry s = Some l /\ length l <= 1.
Proof.
  eexists _, _. split; [vm_compute; reflexivity|].
  split; [vm_compute; reflexivity|].
  eapply (registry_at_most_one
            [write4; write4; DeviceStep 7; read4] demo_heap 200 []).
  - vm_compute. reflexivity.
  - vm_compute. reflexivity.
Defined.

Lemma host_to_device_data_witness :
  exists ev s1 s2,
    transferFromHostToDevice true 0 4 100 0 7 1 (demo []) = Done ev s1 /\
    PTXStream_cuStreamSynchronize 7 s1 = Done CUDA_SUCCESS s2 /\
    dev_read (device s2) 0 4 =
    take (Z.to_nat 4) (drop (Z.to_nat (to_jsize 0)) (replicate 8 x01)).
Proof.
  eexists _, _, _.
  split; [vm_compute; reflexivity|]. split; [vm_compute; reflexivity|].
  eapply (host_to_device_data true 0 4 100 0 7 (demo []) _ _ _ (replicate 8 x01)).
  - lia.
  - vm_compute. reflexivity.
  - vm_compute. reflexivity.
  - vm_compute. reflexivity.
  - simpl. lia.
  - intros a. unfold buffer_of. simpl. rewrite lookup_empty. discriminate.
  - vm_compute. repeat split; discriminate.
  - intros b o src n Hx. inversion Hx.
  - vm_compute. reflexivity.
Defined.

Lemma created_stream_round_trip_witness :
  exists array s',
    cuCreateStream (replicate 8 xff) (replicate 8 x2a) (demo []) = Done array s' /\
    stream_from_array (replicate 8 x00) array s' =
      Done (if decide (peek (pop (demo [])) = CUDA_SUCCESS)
            then replicate 8 x2a else replicate 8 xff) s'.
Proof.
  apply (created_stream_round_trip (replicate 8 xff) (replicate 8 x2a) (replicate 8 x00)
           (demo [])); reflexivity.
Defined.


Lemma host_to_device_release_deferred_witness :
  (exists s', transferFromHostToDevice true 0 4 100 0 7 1 (demo []) = Done (0, 1) s' /\
     queue s' = [] /\
     pending s' = [(7%Z, MemcpyHtoD 0 200 4); (7%Z, Callback (Some 0))] /\
     queue (st_complete 7 s') = [Some 0]) /\
  (exists s', transferFromHostToDevice false 0 4 100 0 7 1 (demo []) = Done (0, 1) s' /\
     queue s' = [] /\
     pending s' = [(7%Z, MemcpyHtoD 0 200 4); (7%Z, Callback (Some 0))] /\
     queue (st_complete 7 s') = [Some 0]).
Proof.
  split.
  - destruct (host_to_device_release_deferred true 0 4 100 0 7 1 (demo []) demo_acquired
                demo_staged 0) as (s' & Hrun & _ & _ & Hq & _ & Hp & Hc).
    + vm_compute. reflexivity.
    + vm_compute. reflexivity.
    + exists s'. split; [exact Hrun|]. split; [exact Hq|]. split; [exact Hp|].
      apply Hc. vm_compute. reflexivity.
  - destruct (host_to_device_release_deferred false 0 4 100 0 7 1 (demo []) demo_acquired
                demo_staged 0) as (s' & Hrun & _ & _ & Hq & _ & Hp & Hc).
    + vm_compute. reflexivity.
    + vm_compute. reflexivity.
    + exists s'. split; [exact Hrun|]. split; [exact Hq|]. split; [exact Hp|].
      apply Hc. vm_compute. reflexivity.
Defined.

Lemma blocking_device_to_host_order_witness :
  exists ev s' arr,
    transferFromDeviceToHostBlock 0 4 101 0 7 1 write_pending = Done ev s' /\
    host s' !! 101 = Some arr /\
    queue s' = [Some 0; Some 1] /\
    take (Z.to_nat 4) (drop (Z.to_nat 0) arr) = dev_read (device s') 0 4.
Proof.
  destruct (transferFromDeviceToHostBlock 0 4 101 0 7 1 write_pending)
    as [ev s'| |] eqn:E; [|vm_compute in E; discriminate E..].
  destruct (blocking_device_to_host_order 0 4 101 0 7 1 write_pending ev s' E)
    as (region & s1 & cbs & Hacq & _ & Hcbs & _ & Hq & _ & Hdata).
  vm_compute in Hacq. injection Hacq as <- <-.
  vm_compute in E. injection E as <- <-.
  eexists _, _, (replicate 4 x01 ++ replicate 4 x00).
  split; [reflexivity|]. split; [vm_compute; reflexivity|].
  split; [vm_compute; reflexivity|].
  apply Hdata.
  - reflexivity.
  - lia.
  - lia.
  - intros a Ha. vm_compute in Ha. discriminate Ha.
  - vm_compute. reflexivity.
  - vm_compute. reflexivity.
  - vm_compute. reflexivity.
  - vm_compute. discriminate.
Defined.
